(** * MindFlow layout engine: a shallow embedding of [client/src/lib/layout.ts]
      and of [findNonOverlappingPosition] from [MindMapPage.tsx].

    JavaScript numbers are idealised as exact rationals ([Q]); the platform
    functions [Math.cos], [Math.sin], [Math.atan2], [Math.sqrt] and the
    constant [Math.PI] are parameters of the development, as is the external
    graph-layout library (dagre).  A JavaScript [Map] is an association list
    kept in insertion order, because the code iterates over its maps.
    Unbounded recursion of the source is modelled with a recursion budget:
    [None] means the budget was exhausted. *)

From Stdlib Require Import QArith Qround Qminmax ZArith String Bool Lia Lqa List Permutation.
Import ListNotations.

Open Scope Q_scope.

(** ** Small JavaScript prelude *)

(** [a ?? b] *)
Definition nullish {A : Type} (a : option A) (b : A) : A :=
  match a with Some v => v | None => b end.

(** [a ?? b] where [b] may itself be absent *)
Definition nullish_opt {A : Type} (a b : option A) : option A :=
  match a with Some v => Some v | None => b end.

Definition isSome {A : Type} (a : option A) : bool :=
  match a with Some _ => true | None => false end.

Definition bind {A B : Type} (a : option A) (k : A -> option B) : option B :=
  match a with Some v => k v | None => None end.

Notation "x <- e ;; k" := (bind e (fun x => k))
  (at level 61, e at next level, right associativity).
Notation "' p <- e ;; k" := (bind e (fun p => k))
  (at level 61, p pattern, e at next level, right associativity).

Definition Qltb (a b : Q) : bool := negb (Qle_bool b a).
Definition Qleb (a b : Q) : bool := Qle_bool a b.
Definition Qgeb (a b : Q) : bool := Qle_bool b a.
Definition Qgtb (a b : Q) : bool := negb (Qle_bool a b).

(** [Math.max] and [Math.min] on two numbers *)
Definition Math_max (a b : Q) : Q := if Qltb a b then b else a.
Definition Math_min (a b : Q) : Q := if Qltb b a then b else a.

(** [Math.round]: nearest integer, ties towards plus infinity *)
Definition Math_round (a : Q) : Q := inject_Z (Qfloor (a + (1 # 2))).

(** JavaScript [%] on numbers: the remainder has the sign of the dividend *)
Definition Qtrunc (a : Q) : Z := Z.quot (Qnum a) (Zpos (Qden a)).
Definition js_rem (a b : Q) : Q := a - b * inject_Z (Qtrunc (a / b)).

(** [Array.prototype.forEach] with the index, threading a state *)
Fixpoint foldi_from {A St : Type} (f : St -> A -> nat -> St) (i : nat) (l : list A) (s : St) : St :=
  match l with
  | [] => s
  | a :: l' => foldi_from f (S i) l' (f s a i)
  end.

(** the same for a body that may exhaust the recursion budget *)
Fixpoint foldM {A St : Type} (f : St -> A -> option St) (l : list A) (s : St) : option St :=
  match l with
  | [] => Some s
  | a :: l' => s' <- f s a ;; foldM f l' s'
  end.

Fixpoint foldMi_from {A St : Type} (f : St -> A -> nat -> option St) (i : nat) (l : list A)
  (s : St) : option St :=
  match l with
  | [] => Some s
  | a :: l' => s' <- f s a i ;; foldMi_from f (S i) l' s'
  end.

Fixpoint mapM {A B : Type} (f : A -> option B) (l : list A) : option (list B) :=
  match l with
  | [] => Some []
  | a :: l' => b <- f a ;; bs <- mapM f l' ;; Some (b :: bs)
  end.

(** [Array.prototype.sort] with a comparator [(a, b) => key a - key b]: a
    stable sort by ascending key.  [insert_by] puts an element of the input
    in front of the part already sorted, which holds the elements that came
    after it: it passes only elements of strictly smaller key, so elements
    of equal key keep their input order. *)
Fixpoint insert_by {A : Type} (key : A -> Q) (a : A) (l : list A) : list A :=
  match l with
  | [] => [a]
  | b :: l' => if Qleb (key a) (key b) then a :: b :: l' else b :: insert_by key a l'
  end.

Definition sort_by {A : Type} (key : A -> Q) (l : list A) : list A :=
  fold_right (insert_by key) [] l.

(** ** [Map] and [Set] in insertion order *)

Section JSMap.
Context {K V : Type} (keq : K -> K -> bool).

Fixpoint mget (m : list (K * V)) (k : K) : option V :=
  match m with
  | [] => None
  | (k', v) :: m' => if keq k' k then Some v else mget m' k
  end.

(** [set] keeps the position of a key that is already present *)
Fixpoint mset (m : list (K * V)) (k : K) (v : V) : list (K * V) :=
  match m with
  | [] => [(k, v)]
  | (k', v') :: m' => if keq k' k then (k', v) :: m' else (k', v') :: mset m' k v
  end.

Definition mhas (m : list (K * V)) (k : K) : bool := isSome (mget m k).
End JSMap.

Definition SMap (V : Type) : Type := list (string * V).
Definition sget {V} (m : SMap V) (k : string) : option V := mget String.eqb m k.
Definition sset {V} (m : SMap V) (k : string) (v : V) : SMap V := mset String.eqb m k v.
Definition shas {V} (m : SMap V) (k : string) : bool := mhas String.eqb m k.

Definition SSet : Type := list string.
Definition set_has (s : SSet) (k : string) : bool := existsb (String.eqb k) s.
Definition set_add (s : SSet) (k : string) : SSet := if set_has s k then s else s ++ [k].

(** ** Data model (the fields of xyflow's [Node] and [Edge] the engine touches) *)

Module Position.
Inductive t : Type := Left | Right | Top | Bottom.

(** the string value of the enum member, which is also the handle id *)
Definition name (p : t) : string :=
  match p with
  | Left => "left" | Right => "right" | Top => "top" | Bottom => "bottom"
  end%string.

Definition eqb (a b : t) : bool :=
  match a, b with
  | Left, Left | Right, Right | Top, Top | Bottom, Bottom => true
  | _, _ => false
  end.
End Position.

Record Point : Type := mkPoint { px : Q; py : Q }.
Record Size : Type := mkSize { width : Q; height : Q }.
Record Measured : Type := mkMeasured { m_width : option Q; m_height : option Q }.

Record NodeData : Type := mkData {
  label : string;
  d_width : option Q;
  d_height : option Q;
  level : option Q
}.

Record Node : Type := mkNode {
  id : string;
  type : option string;
  position : Point;
  measured : option Measured;
  data : NodeData;
  selected : option bool;
  targetPosition : option Position.t;
  sourcePosition : option Position.t
}.

Record Edge : Type := mkEdge {
  eid : string;
  source : string;
  target : string;
  sourceHandle : option string;
  targetHandle : option string
}.

Record Handles : Type := mkHandles { h_target : Position.t; h_source : Position.t }.

Inductive LayoutDirection : Type := TB | LR | radial.

Definition nodeWidth : Q := 250.
Definition nodeHeight : Q := 80.

(** [node.measured?.width] and [node.measured?.height] *)
Definition measured_width (n : Node) : option Q := bind (measured n) m_width.
Definition measured_height (n : Node) : option Q := bind (measured n) m_height.

(** [{ ...node, targetPosition, sourcePosition, position }] *)
Definition place (n : Node) (h : Handles) (p : Point) : Node :=
  {| id := id n; type := type n; position := p; measured := measured n;
     data := data n; selected := selected n;
     targetPosition := Some (h_target h); sourcePosition := Some (h_source h) |}.

(** [{ ...edge, sourceHandle, targetHandle }] *)
Definition rehandle (e : Edge) (sh th : option string) : Edge :=
  {| eid := eid e; source := source e; target := target e;
     sourceHandle := sh; targetHandle := th |}.

(** [nodes.find(n => n.id === k)] *)
Definition find_node (nodes : list Node) (k : string) : option Node :=
  find (fun n => String.eqb (id n) k) nodes.

(** ** Graph model utilities *)

Definition findRootNodes (nodes : list Node) (edges : list Edge) : list Node :=
  let targetIds : SSet := map target edges in
  let roots := filter (fun n => negb (set_has targetIds (id n))) nodes in
  match roots with
  | _ :: _ => roots
  | [] => match nodes with n0 :: _ => [n0] | [] => [] end
  end.

Record Tree : Type := mkTree {
  t_children : SMap (list string);
  t_parent : SMap string
}.

Definition buildTree (nodes : list Node) (edges : list Edge) : Tree :=
  let children0 := fold_left (fun c n => sset c (id n) []) nodes [] in
  fold_left
    (fun t e =>
       let children :=
         match sget (t_children t) (source e) with
         | Some parentChildren => sset (t_children t) (source e) (parentChildren ++ [target e])
         | None => t_children t
         end in
       {| t_children := children; t_parent := sset (t_parent t) (target e) (source e) |})
    edges {| t_children := children0; t_parent := [] |}.

(** [children.get(id) || []] *)
Definition kids_of (children : SMap (list string)) (k : string) : list string :=
  nullish (sget children k) [].

(** ** Overlap test on top-left boxes *)

Definition nodesOverlap (pos1 : Point) (size1 : Size) (pos2 : Point) (size2 : Size)
  (padding : Q) : bool :=
  negb (Qleb (px pos1 + width size1 + padding) (px pos2)
        || Qleb (px pos2 + width size2 + padding) (px pos1)
        || Qleb (py pos1 + height size1 + padding) (py pos2)
        || Qleb (py pos2 + height size2 + padding) (py pos1)).

(** ** Horizontal tree layout ([horizontalLayout]) *)

Inductive Side : Type := ToLeft | ToRight.

Record Bounds : Type := mkBounds { b_x : Q; b_y : Q; b_width : Q; b_height : Q }.

Definition rootX : Q := 800.
Definition rootY : Q := 500.
Definition horizontalSpacing : Q := 350.
Definition baseVerticalSpacing : Q := 30.
Definition minPadding : Q := 25.

(** the two maps the layout pass fills in *)
Record Placement : Type := mkPlacement {
  positions : SMap Point;
  handlePositions : SMap Handles
}.

Definition of_nat (n : nat) : Q := inject_Z (Z.of_nat n).

(** a non-empty string is truthy *)
Definition truthy (s : string) : bool :=
  match s with EmptyString => false | _ => true end.

Section HorizontalPass.
Variable children : SMap (list string).
Variable parent : SMap string.
Variable nodeMap : SMap Node.

Definition getNodeSize (nodeId : string) : Size :=
  match sget nodeMap nodeId with
  | None => {| width := nodeWidth; height := nodeHeight |}
  | Some node =>
      {| width := nullish (nullish_opt (measured_width node) (d_width (data node))) nodeWidth;
         height := nullish (nullish_opt (measured_height node) (d_height (data node))) nodeHeight |}
  end.

Definition getNodeBounds (ps : SMap Point) (nodeId : string) : option Bounds :=
  match sget ps nodeId with
  | None => None
  | Some pos =>
      let size := getNodeSize nodeId in
      Some {| b_x := px pos - width size / 2; b_y := py pos - height size / 2;
              b_width := width size; b_height := height size |}
  end.

Definition boundsOverlap (b1 b2 : Bounds) (padding : Q) : bool :=
  nodesOverlap {| px := b_x b1; py := b_y b1 |} {| width := b_width b1; height := b_height b1 |}
               {| px := b_x b2; py := b_y b2 |} {| width := b_width b2; height := b_height b2 |}
               padding.

Definition checkOverlap (ps : SMap Point) (nodeId1 nodeId2 : string) : bool :=
  match getNodeBounds ps nodeId1, getNodeBounds ps nodeId2 with
  | Some bounds1, Some bounds2 => boundsOverlap bounds1 bounds2 minPadding
  | _, _ => false
  end.

Definition moveNodeWithDirectChildren (ps : SMap Point) (nodeId : string) (deltaY : Q)
  : SMap Point :=
  match sget ps nodeId with
  | None => ps
  | Some currentPos =>
      let ps1 := sset ps nodeId {| px := px currentPos; py := py currentPos + deltaY |} in
      fold_left
        (fun acc kidId =>
           match sget acc kidId with
           | Some kidPos => sset acc kidId {| px := px kidPos; py := py kidPos + deltaY |}
           | None => acc
           end)
        (kids_of children nodeId) ps1
  end.

(** no visited-set here: the recursion follows [children] as far as it goes *)
Fixpoint calcSubtreeHeight (fuel : nat) (nodeId : string) : option Q :=
  match fuel with
  | O => None
  | S fuel' =>
      let kids := kids_of children nodeId in
      let nodeSize := getNodeSize nodeId in
      match kids with
      | [] => Some (height nodeSize)
      | _ :: _ =>
          totalHeight <-
            foldMi_from
              (fun total kidId index =>
                 h <- calcSubtreeHeight fuel' kidId ;;
                 let total' := total + h in
                 Some (if (index <? length kids - 1)%nat
                       then total' + baseVerticalSpacing else total'))
              0%nat kids 0 ;;
          Some (Math_max (height nodeSize) totalHeight)
      end
  end.

Definition side_handles (direction : Side) : Handles :=
  match direction with
  | ToLeft => {| h_target := Position.Right; h_source := Position.Left |}
  | ToRight => {| h_target := Position.Left; h_source := Position.Right |}
  end.

Definition side_step (direction : Side) : Q :=
  match direction with ToLeft => - horizontalSpacing | ToRight => horizontalSpacing end.

(** [sum of heights + (n > 1 ? (n - 1) * baseVerticalSpacing : 0)] *)
Definition stackedHeight (heights : list Q) : Q :=
  fold_left Qplus heights 0
  + (if (1 <? length heights)%nat
     then of_nat (length heights - 1) * baseVerticalSpacing else 0).

Fixpoint initialLayout (fuel : nat) (st : Placement) (nodeId : string) (x parentY : Q)
  (direction : Side) : option (Placement * Q) :=
  match fuel with
  | O => None
  | S fuel' =>
      let kids := kids_of children nodeId in
      let nodeSize := getNodeSize nodeId in
      let st1 := {| positions := sset (positions st) nodeId {| px := x; py := parentY |};
                    handlePositions :=
                      sset (handlePositions st) nodeId (side_handles direction) |} in
      match kids with
      | [] => Some (st1, height nodeSize)
      | _ :: _ =>
          childHeights <- mapM (calcSubtreeHeight fuel') kids ;;
          let totalChildrenHeight := stackedHeight childHeights in
          let nextX := x + side_step direction in
          r <- foldMi_from
                 (fun (acc : Placement * Q) kidId index =>
                    let '(s, currentY) := acc in
                    let kidHeight := nth index childHeights 0 in
                    let childCenterY := currentY + kidHeight / 2 in
                    r' <- initialLayout fuel' s kidId nextX childCenterY direction ;;
                    Some (fst r', currentY + kidHeight + baseVerticalSpacing))
                 0%nat kids (st1, parentY - totalChildrenHeight / 2) ;;
          Some (fst r, Math_max (height nodeSize) totalChildrenHeight)
      end
  end.

(** [positions.get(a)!.y]; every id asked for is a key of [positions] *)
Definition y_of (ps : SMap Point) (a : string) : Q :=
  match sget ps a with Some p => py p | None => 0 end.

Definition siblingsByParent (ps : SMap Point) : SMap (list string) :=
  fold_left
    (fun m (entry : string * Point) =>
       let nodeId := fst entry in
       match sget parent nodeId with
       | Some parentId =>
           if truthy parentId
           then sset m parentId (nullish (sget m parentId) [] ++ [nodeId])
           else m
       | None => m
       end)
    ps [].

(** [(bounds1.y + bounds1.height + minPadding) - bounds2.y] *)
Definition neededSpace (bounds1 bounds2 : Bounds) : Q :=
  (b_y bounds1 + b_height bounds1 + minPadding) - b_y bounds2.

(** the [for] loop over consecutive siblings; [steps] counts the remaining
    iterations, [i] is the loop index *)
Fixpoint siblingScan (steps i : nat) (ids : list string) (ps : SMap Point) (hasOverlap : bool)
  : SMap Point * bool :=
  match steps with
  | O => (ps, hasOverlap)
  | S steps' =>
      let id1 := nth i ids EmptyString in
      let id2 := nth (S i) ids EmptyString in
      if checkOverlap ps id1 id2 then
        match getNodeBounds ps id1, getNodeBounds ps id2 with
        | Some bounds1, Some bounds2 =>
            if Qgtb (neededSpace bounds1 bounds2) 0 then
              let ps' := moveNodeWithDirectChildren ps id2 (neededSpace bounds1 bounds2 + 5) in
              siblingScan steps' (S i) (sort_by (y_of ps') ids) ps' true
            else siblingScan steps' (S i) ids ps true
        | _, _ => siblingScan steps' (S i) ids ps true
        end
      else siblingScan steps' (S i) ids ps hasOverlap
  end.

Definition siblingPass (ps : SMap Point) (hasOverlap : bool) : SMap Point * bool :=
  fold_left
    (fun (acc : SMap Point * bool) (group : string * list string) =>
       let siblingIds := snd group in
       if (length siblingIds <? 2)%nat then acc
       else
         let sorted := sort_by (y_of (fst acc)) siblingIds in
         siblingScan (length sorted - 1) 0 sorted (fst acc) (snd acc))
    (siblingsByParent ps) (ps, hasOverlap).

Definition nodesByColumn (ps : SMap Point) : list (Q * list string) :=
  fold_left
    (fun m (entry : string * Point) =>
       let colX := Math_round (px (snd entry) / 10) * 10 in
       mset Qeq_bool m colX (nullish (mget Qeq_bool m colX) [] ++ [fst entry]))
    ps [].

Definition opt_is (o : option string) (s : string) : bool :=
  match o with Some v => String.eqb v s | None => false end.

Definition opt_eqb (a b : option string) : bool :=
  match a, b with
  | Some u, Some v => String.eqb u v
  | None, None => true
  | _, _ => false
  end.

(** [parent.get(id1) && parent.get(id1) === parent.get(id2)] *)
Definition sameParent (id1 id2 : string) : bool :=
  match sget parent id1 with
  | Some p => truthy p && opt_eqb (Some p) (sget parent id2)
  | None => false
  end.

Fixpoint columnScan (steps i : nat) (ids : list string) (ps : SMap Point) (hasOverlap : bool)
  : SMap Point * bool :=
  match steps with
  | O => (ps, hasOverlap)
  | S steps' =>
      let id1 := nth i ids EmptyString in
      let id2 := nth (S i) ids EmptyString in
      if opt_is (sget parent id2) id1 || opt_is (sget parent id1) id2 then
        columnScan steps' (S i) ids ps hasOverlap
      else if sameParent id1 id2 then
        columnScan steps' (S i) ids ps hasOverlap
      else if checkOverlap ps id1 id2 then
        match getNodeBounds ps id1, getNodeBounds ps id2 with
        | Some bounds1, Some bounds2 =>
            if Qgtb (neededSpace bounds1 bounds2) 0 then
              columnScan steps' (S i) ids
                (moveNodeWithDirectChildren ps id2 (neededSpace bounds1 bounds2 + 5)) true
            else columnScan steps' (S i) ids ps true
        | _, _ => columnScan steps' (S i) ids ps true
        end
      else columnScan steps' (S i) ids ps hasOverlap
  end.

Definition columnPass (ps : SMap Point) (hasOverlap : bool) : SMap Point * bool :=
  fold_left
    (fun (acc : SMap Point * bool) (column : Q * list string) =>
       let nodeIds := snd column in
       if (length nodeIds <? 2)%nat then acc
       else
         let sorted := sort_by (y_of (fst acc)) nodeIds in
         columnScan (length sorted - 1) 0 sorted (fst acc) (snd acc))
    (nodesByColumn ps) (ps, hasOverlap).

(** the [while (hasOverlap && iteration < maxIterations)] loop; [remaining]
    is [maxIterations - iteration] *)
Fixpoint resolveLoop (remaining : nat) (ps : SMap Point) : SMap Point :=
  match remaining with
  | O => ps
  | S remaining' =>
      let r1 := siblingPass ps false in
      let r2 := columnPass (fst r1) (snd r1) in
      if snd r2 then resolveLoop remaining' (fst r2) else fst r2
  end.

Definition resolveOverlaps (ps : SMap Point) : SMap Point := resolveLoop 50 ps.

(** no visited-set here either *)
Fixpoint moveSubtreeHorizontally (fuel : nat) (ps : SMap Point) (nodeId : string) (deltaX : Q)
  : option (SMap Point) :=
  match fuel with
  | O => None
  | S fuel' =>
      let ps1 :=
        match sget ps nodeId with
        | Some pos => sset ps nodeId {| px := px pos + deltaX; py := py pos |}
        | None => ps
        end in
      foldM (fun acc kidId => moveSubtreeHorizontally fuel' acc kidId deltaX)
            (kids_of children nodeId) ps1
  end.

(** the bounded [while] of the parent/child pass for one edge *)
Fixpoint nudgeLoop (iters fuel : nat) (ps : SMap Point) (parentId childId : string)
  : option (SMap Point) :=
  match iters with
  | O => Some ps
  | S iters' =>
      match getNodeBounds ps parentId, getNodeBounds ps childId with
      | Some parentBounds, Some childBounds =>
          if boundsOverlap parentBounds childBounds 40 then
            let parentCenterX := b_x parentBounds + b_width parentBounds / 2 in
            let childCenterX := b_x childBounds + b_width childBounds / 2 in
            let direction : Q := if Qgeb childCenterX parentCenterX then 1 else -1 in
            ps' <- moveSubtreeHorizontally fuel ps childId (direction * 40) ;;
            nudgeLoop iters' fuel ps' parentId childId
          else Some ps
      | _, _ => Some ps
      end
  end.
End HorizontalPass.

(** [edge?.sourceHandle === s] for the first edge from [rootId] to [childId] *)
Definition rootEdgeHandle (edges : list Edge) (rootId childId : string) : option string :=
  bind (find (fun e => String.eqb (source e) rootId && String.eqb (target e) childId) edges)
       sourceHandle.

(** the horizontal centre the code reads off the incoming node:
    [position.x + (measured?.width ?? nodeWidth) / 2] *)
Definition inputCenterX (n : Node) : Q :=
  px (position n) + nullish (measured_width n) nodeWidth / 2.

Definition inputCenterY (n : Node) : Q :=
  py (position n) + nullish (measured_height n) nodeHeight / 2.

(** partition of the root's children into (left, right) *)
Definition splitRootChildren (nodes : list Node) (edges : list Edge) (rootNode : Node)
  (rootChildren : list string) : list string * list string :=
  foldi_from
    (fun (acc : list string * list string) childId index =>
       let '(leftChildren, rightChildren) := acc in
       let handle := rootEdgeHandle edges (id rootNode) childId in
       if opt_is handle "left" then (leftChildren ++ [childId], rightChildren)
       else if opt_is handle "right" then (leftChildren, rightChildren ++ [childId])
       else
         match find_node nodes childId with
         | Some childNode =>
             if Qltb (inputCenterX childNode) (inputCenterX rootNode)
             then (leftChildren ++ [childId], rightChildren)
             else (leftChildren, rightChildren ++ [childId])
         | None =>
             if Nat.even index then (leftChildren, rightChildren ++ [childId])
             else (leftChildren ++ [childId], rightChildren)
         end)
    0%nat rootChildren ([], []).

(** lay out one side of the root *)
Definition layoutSide (children : SMap (list string)) (nodeMap : SMap Node) (fuel : nat)
  (st : Placement) (sideChildren : list string) (direction : Side) : option Placement :=
  match sideChildren with
  | [] => Some st
  | _ :: _ =>
      childHeights <- mapM (calcSubtreeHeight children nodeMap fuel) sideChildren ;;
      let totalHeight := stackedHeight childHeights in
      let nextX := rootX + side_step direction in
      r <- foldMi_from
             (fun (acc : Placement * Q) childId index =>
                let '(s, currentY) := acc in
                let kidHeight := nth index childHeights 0 in
                let childCenterY := currentY + kidHeight / 2 in
                r' <- initialLayout children nodeMap fuel s childId nextX childCenterY direction ;;
                Some (fst r', currentY + kidHeight + baseVerticalSpacing))
             0%nat sideChildren (st, rootY - totalHeight / 2) ;;
      Some (fst r)
  end.

(** [minY]/[maxY] start at plus and minus infinity: [None] stands for them *)
Definition extendY (nodeMap : SMap Node) (ps : SMap Point) (acc : option Q * option Q)
  (childId : string) : option Q * option Q :=
  match sget ps childId with
  | Some pos =>
      let size := getNodeSize nodeMap childId in
      let top := py pos - height size / 2 in
      let bottom := py pos + height size / 2 in
      (Some (match fst acc with Some m => Math_min m top | None => top end),
       Some (match snd acc with Some m => Math_max m bottom | None => bottom end))
  | None => acc
  end.

Definition centerRoot (nodeMap : SMap Node) (rootId : string)
  (leftChildren rightChildren : list string) (ps : SMap Point) : SMap Point :=
  match leftChildren ++ rightChildren with
  | [] => ps
  | _ :: _ =>
      let acc := fold_left (extendY nodeMap ps) leftChildren (None, None) in
      let acc := fold_left (extendY nodeMap ps) rightChildren acc in
      match acc with
      | (Some minY, Some maxY) => sset ps rootId {| px := rootX; py := (minY + maxY) / 2 |}
      | _ => ps
      end
  end.

Definition defaultHandles : Handles :=
  {| h_target := Position.Left; h_source := Position.Right |}.

Definition placeOrphans (nodes : list Node) (st : Placement) : Placement :=
  fold_left
    (fun s node =>
       if shas (positions s) (id node) then s
       else {| positions := sset (positions s) (id node) {| px := rootX + 500; py := rootY |};
               handlePositions := sset (handlePositions s) (id node) defaultHandles |})
    nodes st.

(** [new Map(nodes.map(n => [n.id, n]))] *)
Definition nodeMapOf (nodes : list Node) : SMap Node :=
  fold_left (fun m n => sset m (id n) n) nodes [].

(** the two maps after the traversal from the root and the two overlap
    passes, before the orphan pass *)
Definition horizontalTraversal (fuel : nat) (nodes : list Node) (edges : list Edge)
  (rootNode : Node) : option Placement :=
  let tree := buildTree nodes edges in
  let children := t_children tree in
  let parent := t_parent tree in
  let nodeMap := nodeMapOf nodes in
  let rootChildren := kids_of children (id rootNode) in
  let '(leftChildren, rightChildren) := splitRootChildren nodes edges rootNode rootChildren in
  let st0 := {| positions := sset [] (id rootNode) {| px := rootX; py := rootY |};
                handlePositions := sset [] (id rootNode) defaultHandles |} in
  st1 <- layoutSide children nodeMap fuel st0 leftChildren ToLeft ;;
  st2 <- layoutSide children nodeMap fuel st1 rightChildren ToRight ;;
  let ps3 := centerRoot nodeMap (id rootNode) leftChildren rightChildren (positions st2) in
  let ps4 := resolveOverlaps children parent nodeMap ps3 in
  ps5 <- foldM (fun ps edge => nudgeLoop children nodeMap 20 fuel ps (source edge) (target edge))
               edges ps4 ;;
  Some {| positions := ps5; handlePositions := handlePositions st2 |}.

(** the state of the two maps once every pass, the orphan pass included,
    has run *)
Definition horizontalPlacement (fuel : nat) (nodes : list Node) (edges : list Edge)
  (rootNode : Node) : option Placement :=
  st <- horizontalTraversal fuel nodes edges rootNode ;;
  Some (placeOrphans nodes st).

Definition horizontalRoot (nodes : list Node) (edges : list Edge) : option Node :=
  let targetIds : SSet := map target edges in
  let rootNodes := filter (fun n => negb (set_has targetIds (id n))) nodes in
  match rootNodes with
  | r :: _ => Some r
  | [] => match nodes with n0 :: _ => Some n0 | [] => None end
  end.

Definition newNode_h (nodeMap : SMap Node) (st : Placement) (node : Node) : Node :=
  let pos := nullish (sget (positions st) (id node)) {| px := 0; py := 0 |} in
  let handles := nullish (sget (handlePositions st) (id node)) defaultHandles in
  let nodeSize := getNodeSize nodeMap (id node) in
  place node handles {| px := px pos - width nodeSize / 2; py := py pos - height nodeSize / 2 |}.

Definition is_pos (o : option Position.t) (p : Position.t) : bool :=
  match o with Some q => Position.eqb q p | None => false end.

Definition newEdge_h (rootNode : Node) (st : Placement) (newNodes : list Node) (edge : Edge)
  : Edge :=
  match find_node newNodes (source edge), find_node newNodes (target edge) with
  | Some src, Some tgt =>
      let srcHandle :=
        if String.eqb (id src) (id rootNode)
        then (if Qltb (px (nullish (sget (positions st) (target edge)) {| px := 0; py := 0 |}))
                      rootX
              then "left" else "right")
        else (if is_pos (sourcePosition src) Position.Left then "left" else "right") in
      let tgtHandle := if is_pos (targetPosition tgt) Position.Left then "left" else "right" in
      rehandle edge (Some srcHandle) (Some tgtHandle)
  | _, _ => edge
  end%string.

Definition horizontalLayout (fuel : nat) (nodes : list Node) (edges : list Edge)
  : option (list Node * list Edge) :=
  match horizontalRoot nodes edges with
  | None => Some (nodes, edges)
  | Some rootNode =>
      st <- horizontalPlacement fuel nodes edges rootNode ;;
      let nodeMap := nodeMapOf nodes in
      let newNodes := map (newNode_h nodeMap st) nodes in
      let newEdges := map (newEdge_h rootNode st newNodes) edges in
      Some (newNodes, newEdges)
  end.

(** ** Radial tree layout ([radialLayout]) *)

(** the part of the platform's [Math] object the engine calls *)
Record MathLib : Type := mkMath {
  cos : Q -> Q;
  sin : Q -> Q;
  atan2 : Q -> Q -> Q;
  sqrt : Q -> Q;
  PI : Q
}.

Definition baseRadius : Q := 350.
Definition radiusIncrement : Q := 280.
Definition minAngleSpacing : Q := 3 # 10.

Record RadialState : Type := mkRadial {
  r_positions : SMap Point;
  r_handles : SMap Handles;
  r_visited : SSet
}.

Section RadialPass.
Variable M : MathLib.
Variable nodes : list Node.
Variable children : SMap (list string).

Definition getHandlePositionFromAngle (angle : Q) : Handles :=
  let twoPi := 2 * PI M in
  let normalizedAngle := js_rem (js_rem angle twoPi + twoPi) twoPi in
  if Qgeb normalizedAngle (7 * PI M / 4) || Qltb normalizedAngle (PI M / 4) then
    {| h_target := Position.Left; h_source := Position.Right |}
  else if Qgeb normalizedAngle (PI M / 4) && Qltb normalizedAngle (3 * PI M / 4) then
    {| h_target := Position.Top; h_source := Position.Bottom |}
  else if Qgeb normalizedAngle (3 * PI M / 4) && Qltb normalizedAngle (5 * PI M / 4) then
    {| h_target := Position.Right; h_source := Position.Left |}
  else
    {| h_target := Position.Bottom; h_source := Position.Top |}.

(** the radial accessor: measured size or the defaults *)
Definition getNodeSize_radial (nodeId : string) : Size :=
  match find_node nodes nodeId with
  | None => {| width := nodeWidth; height := nodeHeight |}
  | Some node =>
      {| width := nullish (measured_width node) nodeWidth;
         height := nullish (measured_height node) nodeHeight |}
  end.

Definition halfDiagonal (s : Size) : Q := Math_max (width s) (height s) / 2.

(** guarded by the visited-set *)
Fixpoint calculateLevels (fuel : nat) (st : SSet * SMap Q) (nodeId : string) (lvl : Q)
  : option (SSet * SMap Q) :=
  if set_has (fst st) nodeId then Some st
  else
    match fuel with
    | O => None
    | S fuel' =>
        foldM (fun acc child => calculateLevels fuel' acc child (lvl + 1))
              (kids_of children nodeId)
              (set_add (fst st) nodeId, sset (snd st) nodeId lvl)
    end.

Definition maxChildHalfDiagonal (nodeChildren : list string) : Q :=
  fold_left
    (fun m childId =>
       let childHalfDiagonal := halfDiagonal (getNodeSize_radial childId) in
       if Qgtb childHalfDiagonal m then childHalfDiagonal else m)
    nodeChildren 0.

(** the ring radius used for the children of [parentId] *)
Definition ringRadius (levels : SMap Q) (parentId : string) : Q :=
  let parentLevel := nullish (sget levels parentId) 0 in
  let radius := baseRadius + parentLevel * radiusIncrement in
  let parentHalfDiagonal := halfDiagonal (getNodeSize_radial parentId) in
  let minRequiredRadius :=
    parentHalfDiagonal + maxChildHalfDiagonal (kids_of children parentId) + 80 in
  if Qltb radius minRequiredRadius then minRequiredRadius else radius.

(** the point at [angle] on the ring of [radius] around [parentPos]:
    [x = parentPos.x + Math.cos(angle) * radius] and the same with the sine *)
Definition ringPoint (parentPos : Point) (radius angle : Q) : Point :=
  {| px := px parentPos + cos M angle * radius;
     py := py parentPos + sin M angle * radius |}.

(** not guarded: the visited-set is not consulted here *)
Fixpoint positionChildren (fuel : nat) (levels : SMap Q) (st : SMap Point * SMap Handles)
  (parentId : string) (startAngle endAngle : Q)
  : option (SMap Point * SMap Handles * list Q) :=
  match fuel with
  | O => None
  | S fuel' =>
      let nodeChildren := kids_of children parentId in
      match nodeChildren with
      | [] => Some (st, [])
      | _ :: _ =>
          let radius := ringRadius levels parentId in
          let parentPos := nullish (sget (fst st) parentId) {| px := 0; py := 0 |} in
          let availableAngle := endAngle - startAngle in
          let angleStep :=
            Math_max (availableAngle / of_nat (length nodeChildren)) minAngleSpacing in
          foldMi_from
            (fun (acc : SMap Point * SMap Handles * list Q) childId index =>
               let '(ps, hs, childAngles) := acc in
               let angle := startAngle + angleStep * (of_nat index + (1 # 2)) in
               let childPos := ringPoint parentPos radius angle in
               let ps' := sset ps childId childPos in
               let angleToParent :=
                 atan2 M (py parentPos - py childPos) (px parentPos - px childPos) in
               let hs' := sset hs childId (getHandlePositionFromAngle angleToParent) in
               let childAngleSpan :=
                 Math_min (angleStep * (9 # 10))
                          (availableAngle / of_nat (length nodeChildren)) in
               r <- positionChildren fuel' levels (ps', hs') childId
                      (angle - childAngleSpan / 2) (angle + childAngleSpan / 2) ;;
               Some (fst r, childAngles ++ [angle]))
            0%nat nodeChildren (st, [])
      end
  end.

Definition layoutTree (fuel : nat) (st : RadialState) (rootId : string) (offsetX offsetY : Q)
  : option RadialState :=
  '(visited, levels) <- calculateLevels fuel (r_visited st, []) rootId 0 ;;
  let ps := sset (r_positions st) rootId {| px := offsetX; py := offsetY |} in
  '(ps', hs', rootChildAngles) <-
    positionChildren fuel levels (ps, r_handles st) rootId 0 (2 * PI M) ;;
  let rootHandles :=
    match rootChildAngles with
    | _ :: _ =>
        let sumX := fold_left (fun s angle => s + cos M angle) rootChildAngles 0 in
        let sumY := fold_left (fun s angle => s + sin M angle) rootChildAngles 0 in
        getHandlePositionFromAngle (atan2 M sumY sumX)
    | [] => defaultHandles
    end in
  Some {| r_positions := ps'; r_handles := sset hs' rootId rootHandles; r_visited := visited |}.

Definition layoutRoots (fuel : nat) (roots : list Node) : option (RadialState * Q) :=
  foldM
    (fun (acc : RadialState * Q) root =>
       st' <- layoutTree fuel (fst acc) (id root) (snd acc + 600) 600 ;;
       Some (st', snd acc + 1200))
    roots ({| r_positions := []; r_handles := []; r_visited := [] |}, 0).

(** the bounded [while] that shifts a child sideways off its parent *)
Fixpoint shiftLoop (iters : nat) (parentSize childSize : Size) (pX pY cy direction cx : Q) : Q :=
  match iters with
  | O => cx
  | S iters' =>
      let parentLeft := pX - width parentSize / 2 in
      let parentRight := pX + width parentSize / 2 in
      let parentTop := pY - height parentSize / 2 in
      let parentBottom := pY + height parentSize / 2 in
      let childLeft := cx - width childSize / 2 in
      let childRight := cx + width childSize / 2 in
      let childTop := cy - height childSize / 2 in
      let childBottom := cy + height childSize / 2 in
      let overlapsParent :=
        negb (Qleb (childRight + 40) parentLeft
              || Qgeb (childLeft - 40) parentRight
              || Qleb (childBottom + 40) parentTop
              || Qgeb (childTop - 40) parentBottom) in
      if overlapsParent
      then shiftLoop iters' parentSize childSize pX pY cy direction (cx + direction * 40)
      else cx
  end.

Definition nudgeEdge (ps : SMap Point) (edge : Edge) : SMap Point :=
  match sget ps (source edge), sget ps (target edge) with
  | Some parentPos, Some childPos =>
      let parentSize := getNodeSize_radial (source edge) in
      let childSize := getNodeSize_radial (target edge) in
      let direction : Q := if Qgeb (px childPos) (px parentPos) then 1 else -1 in
      let cx := shiftLoop 20 parentSize childSize (px parentPos) (py parentPos)
                          (py childPos) direction (px childPos) in
      sset ps (target edge) {| px := cx; py := py childPos |}
  | _, _ => ps
  end.

Definition placeOrphans_radial (st : RadialState) (currentOffset : Q) : RadialState * Q :=
  fold_left
    (fun (acc : RadialState * Q) node =>
       let '(s, off) := acc in
       if set_has (r_visited s) (id node) then acc
       else ({| r_positions := sset (r_positions s) (id node) {| px := off + 600; py := 600 |};
                r_handles := sset (r_handles s) (id node) defaultHandles;
                r_visited := r_visited s |},
             off + 400))
    nodes (st, currentOffset).

Definition newNode_r (st : RadialState) (node : Node) : Node :=
  let pos := nullish (sget (r_positions st) (id node)) {| px := 0; py := 0 |} in
  let handles := nullish (sget (r_handles st) (id node)) defaultHandles in
  let nodeW := nullish (measured_width node) nodeWidth in
  let nodeH := nullish (measured_height node) nodeHeight in
  place node handles {| px := px pos - nodeW / 2; py := py pos - nodeH / 2 |}.
End RadialPass.

(** the maps after the root traversals and the parent/child shift, before the
    orphan pass; the last component is [currentOffset] *)
Definition radialTraversal (M : MathLib) (fuel : nat) (nodes : list Node) (edges : list Edge)
  : option (RadialState * Q) :=
  let roots := findRootNodes nodes edges in
  let children := t_children (buildTree nodes edges) in
  '(st, currentOffset) <- layoutRoots M nodes children fuel roots ;;
  let ps := fold_left (nudgeEdge nodes) edges (r_positions st) in
  Some ({| r_positions := ps; r_handles := r_handles st; r_visited := r_visited st |},
        currentOffset).

Definition radialLayout (M : MathLib) (fuel : nat) (nodes : list Node) (edges : list Edge)
  : option (list Node) :=
  match nodes with
  | [] => Some nodes
  | _ :: _ =>
      '(st, currentOffset) <- radialTraversal M fuel nodes edges ;;
      let st' := fst (placeOrphans_radial nodes st currentOffset) in
      Some (map (newNode_r st') nodes)
  end.

(** ** Rank-based layout: the part of [getLayoutedElements] around dagre *)

Record DagreConfig : Type := mkConfig {
  rankdir : LayoutDirection;
  nodesep : Q;
  ranksep : Q;
  marginx : Q;
  marginy : Q
}.

(** what the code hands to the library: [setGraph], then one [setNode] per
    node and one [setEdge] per edge, in this order *)
Record DagreGraph : Type := mkGraph {
  g_config : DagreConfig;
  g_nodes : list (string * Size);
  g_edges : list (string * string)
}.

(** The library is external: [dagre.layout] is a function from the graph to
    the centre it writes on each node label.  The labels are shared objects,
    so the result is kept as a store indexed by node id and the code's later
    writes to [pos.x] and [pos.y] update that store. *)
Definition DagreLayout : Type := DagreGraph -> SMap Point.

Section RankPass.
Variable isHorizontal : bool.

Definition levelOf (node : Node) : Q := nullish (level (data node)) 0.

(** [nodesByLevel] with [minLevel] *)
Definition groupByLevel (store : SMap Point) (nodes : list Node)
  : list (Q * list Node) * option Q :=
  fold_left
    (fun (acc : list (Q * list Node) * option Q) node =>
       if shas store (id node) then
         let lvl := levelOf node in
         (mset Qeq_bool (fst acc) lvl (nullish (mget Qeq_bool (fst acc) lvl) [] ++ [node]),
          Some (match snd acc with Some m => Math_min m lvl | None => lvl end))
       else acc)
    nodes ([], None).

Definition storeX (store : SMap Point) (n : Node) : Q :=
  px (nullish (sget store (id n)) {| px := 0; py := 0 |}).
Definition storeY (store : SMap Point) (n : Node) : Q :=
  py (nullish (sget store (id n)) {| px := 0; py := 0 |}).

(** even redistribution of one level, written through the shared labels *)
Definition spreadLevel (minLevel : Q) (store : SMap Point) (entry : Q * list Node)
  : SMap Point :=
  let lvl := fst entry in
  let sorted :=
    sort_by (if isHorizontal then storeY store else storeX store) (snd entry) in
  let levelIndex := lvl - minLevel in
  let basePos := levelIndex * (if isHorizontal then 400 else 250) + 300 in
  match sorted with
  | [] => store
  | [only] =>
      sset store (id only)
        (if isHorizontal then {| px := basePos; py := 400 |}
         else {| px := 400; py := basePos |})
  | _ :: _ :: _ =>
      let verticalRange : Q := if isHorizontal then 1200 else 1000 in
      let spacing := Math_max (verticalRange / of_nat (length sorted + 1)) 100 in
      let startPos := 200 + spacing in
      foldi_from
        (fun st item index =>
           sset st (id item)
             (if isHorizontal
              then {| px := basePos; py := startPos + of_nat index * spacing |}
              else {| px := startPos + of_nat index * spacing; py := basePos |}))
        0%nat sorted store
  end.

Definition spreadLevels (store : SMap Point) (nodes : list Node) : SMap Point :=
  let '(nodesByLevel, minLevel) := groupByLevel store nodes in
  fold_left (spreadLevel (nullish minLevel 0)) nodesByLevel store.

(** [leftSideNodes] (horizontal) or [topSideNodes] (vertical) *)
Definition sideNodes (nodes : list Node) (edges : list Edge) (rootNode : option Node) : SSet :=
  match rootNode with
  | None => []
  | Some root =>
      let center := if isHorizontal then inputCenterX else inputCenterY in
      let marker := (if isHorizontal then "left" else "top")%string in
      let byPosition :=
        fold_left
          (fun s node =>
             if negb (String.eqb (id node) (id root)) && Qltb (center node) (center root)
             then set_add s (id node) else s)
          nodes [] in
      fold_left
        (fun s edge => if opt_is (sourceHandle edge) marker then set_add s (target edge) else s)
        edges byPosition
  end.

Definition newNode_d (store : SMap Point) (rootNode : option Node) (side : SSet) (node : Node)
  : Node :=
  match sget store (id node) with
  | None => node
  | Some nodeWithPosition =>
      let w := nullish (measured_width node) nodeWidth in
      let h := nullish (measured_height node) nodeHeight in
      let notRoot :=
        match rootNode with
        | Some root => negb (String.eqb (id node) (id root)) | None => false
        end in
      let rootPos :=
        match rootNode with
        | Some root => nullish (sget store (id root)) {| px := 0; py := 0 |}
        | None => {| px := 0; py := 0 |}
        end in
      let onSide := set_has side (id node) in
      (* distance of the node from the root along the layout axis, and the
         extent of the node along that axis *)
      let coord := if isHorizontal then px nodeWithPosition else py nodeWithPosition in
      let rootCoord := if isHorizontal then px rootPos else py rootPos in
      let extent := if isHorizontal then w else h in
      let initial := coord - extent / 2 in
      let final :=
        if notRoot then
          let isOnSide := Qltb coord rootCoord in
          if onSide && negb isOnSide then rootCoord - (coord - rootCoord) - extent
          else if negb onSide && isOnSide then rootCoord + (rootCoord - coord) - extent / 2
          else initial
        else initial in
      let handles :=
        if notRoot && onSide then
          if isHorizontal
          then {| h_target := Position.Right; h_source := Position.Left |}
          else {| h_target := Position.Bottom; h_source := Position.Top |}
        else
          if isHorizontal
          then {| h_target := Position.Left; h_source := Position.Right |}
          else {| h_target := Position.Top; h_source := Position.Bottom |} in
      place node handles
        (if isHorizontal
         then {| px := final; py := py nodeWithPosition - h / 2 |}
         else {| px := px nodeWithPosition - w / 2; py := final |})
  end.

(** [edge.sourceHandle || fallback] *)
Definition handle_or (o : option string) (fallback : string) : string :=
  match o with
  | Some s => if truthy s then s else fallback
  | None => fallback
  end.

Definition newEdge_d (rootNode : option Node) (newNodes : list Node) (edge : Edge) : Edge :=
  match find_node newNodes (source edge), find_node newNodes (target edge) with
  | Some sourceNode, Some targetNode =>
      let near := if isHorizontal then Position.Left else Position.Top in
      let far := if isHorizontal then Position.Right else Position.Bottom in
      let isRoot :=
        match rootNode with
        | Some root => String.eqb (id sourceNode) (id root) | None => false
        end in
      let srcHandle :=
        if isRoot then Some (handle_or (sourceHandle edge) (Position.name far))
        else if is_pos (sourcePosition sourceNode) near then Some (Position.name near)
        else if is_pos (sourcePosition sourceNode) far then Some (Position.name far)
        else sourceHandle edge in
      let tgtHandle :=
        if is_pos (targetPosition targetNode) near then Some (Position.name near)
        else if is_pos (targetPosition targetNode) far then Some (Position.name far)
        else targetHandle edge in
      rehandle edge srcHandle tgtHandle
  | _, _ => edge
  end.
End RankPass.

Definition rankLayout (dagre : DagreLayout) (nodes : list Node) (edges : list Edge)
  (direction : LayoutDirection) : list Node * list Edge :=
  let isHorizontal := match direction with TB => false | _ => true end in
  let rootNode := horizontalRoot nodes edges in
  let side := sideNodes isHorizontal nodes edges rootNode in
  let graph :=
    {| g_config := {| rankdir := direction;
                      nodesep := if isHorizontal then 120 else 150;
                      ranksep := if isHorizontal then 300 else 250;
                      marginx := 150; marginy := 150 |};
       g_nodes := map (fun node => (id node,
                                    {| width := nullish (measured_width node) nodeWidth;
                                       height := nullish (measured_height node) nodeHeight |}))
                      nodes;
       g_edges := map (fun edge => (source edge, target edge)) edges |} in
  let store := spreadLevels isHorizontal (dagre graph) nodes in
  let newNodes := map (newNode_d isHorizontal store rootNode side) nodes in
  let newEdges := map (newEdge_d isHorizontal rootNode newNodes) edges in
  (newNodes, newEdges).

(** ** Entry point *)

Definition getLayoutedElements (M : MathLib) (dagre : DagreLayout) (fuel : nat)
  (nodes : list Node) (edges : list Edge) (direction : LayoutDirection)
  : option (list Node * list Edge) :=
  match direction with
  | radial => ns <- radialLayout M fuel nodes edges ;; Some (ns, edges)
  | LR => horizontalLayout fuel nodes edges
  | TB => Some (rankLayout dagre nodes edges direction)
  end.

(** ** Incremental placement ([findNonOverlappingPosition]) *)

Section IncrementalPlacement.
Variable M : MathLib.
(** the candidate box; the two parameters shadow the module constants *)
Variable boxWidth boxHeight : Q.

Definition padding : Q := 20.

Definition existingSize (existingNode : Node) : Size :=
  {| width := nullish (nullish_opt (measured_width existingNode)
                                    (d_width (data existingNode))) boxWidth;
     height := nullish (nullish_opt (measured_height existingNode)
                                     (d_height (data existingNode))) boxHeight |}.

(** the overlap test of the candidate at [(testX, testY)] against one node *)
Definition overlapsExisting (testX testY : Q) (existingNode : Node) : bool :=
  let existingLeft := px (position existingNode) in
  let existingRight := px (position existingNode) + width (existingSize existingNode) in
  let existingTop := py (position existingNode) in
  let existingBottom := py (position existingNode) + height (existingSize existingNode) in
  let testLeft := testX in
  let testRight := testX + boxWidth in
  let testTop := testY in
  let testBottom := testY + boxHeight in
  negb (Qltb (testRight + padding) existingLeft
        || Qgtb (testLeft - padding) existingRight
        || Qltb (testBottom + padding) existingTop
        || Qgtb (testTop - padding) existingBottom).

(** centre-to-centre distance of the candidate to one node *)
Definition centerDistance (testX testY : Q) (existingNode : Node) : Q :=
  let existingLeft := px (position existingNode) in
  let existingRight := px (position existingNode) + width (existingSize existingNode) in
  let existingTop := py (position existingNode) in
  let existingBottom := py (position existingNode) + height (existingSize existingNode) in
  let centerX := (testX + (testX + boxWidth)) / 2 in
  let centerY := (testY + (testY + boxHeight)) / 2 in
  let existingCenterX := (existingLeft + existingRight) / 2 in
  let existingCenterY := (existingTop + existingBottom) / 2 in
  sqrt M ((centerX - existingCenterX) * (centerX - existingCenterX)
          + (centerY - existingCenterY) * (centerY - existingCenterY)).

(** the inner [for ... of] with its [break]: [None] when some node
    overlaps, otherwise the accumulated [totalDistance] *)
Fixpoint scanExisting (testX testY : Q) (existingNodes : list Node) (totalDistance : Q)
  : option Q :=
  match existingNodes with
  | [] => Some totalDistance
  | existingNode :: rest =>
      if overlapsExisting testX testY existingNode then None
      else scanExisting testX testY rest
             (totalDistance + centerDistance testX testY existingNode)
  end.

(** [for (let yOffset = -200; yOffset <= 200; yOffset += 50)] *)
Definition yOffsets : list Q := [-200; -150; -100; -50; 0; 50; 100; 150; 200].

(** [for (let xAdjust = 0; xAdjust < 500; xAdjust += 50)] *)
Definition xAdjusts : list Q := [0; 50; 100; 150; 200; 250; 300; 350; 400; 450].

Record Best : Type := mkBest { bestX : Q; bestY : Q; minDistance : option Q }.

(** one turn of the vertical scan; [minDistance = None] is [Infinity] *)
Definition tryY (initialX initialY : Q) (existingNodes : list Node) (b : Best) (yOffset : Q)
  : Best :=
  let testY := initialY + yOffset in
  let testX := initialX in
  match scanExisting testX testY existingNodes 0 with
  | Some totalDistance =>
      if match minDistance b with Some m => Qltb totalDistance m | None => true end
      then {| bestX := testX; bestY := testY; minDistance := Some totalDistance |}
      else b
  | None => b
  end.

(** the horizontal fallback, with its [break] at the first clear offset *)
Fixpoint tryX (initialX : Q) (direction : Side) (existingNodes : list Node) (b : Best)
  (adjusts : list Q) : Best :=
  match adjusts with
  | [] => b
  | xAdjust :: rest =>
      let testX := initialX + (match direction with ToRight => xAdjust | ToLeft => - xAdjust end) in
      if existsb (overlapsExisting testX (bestY b)) existingNodes
      then tryX initialX direction existingNodes b rest
      else {| bestX := testX; bestY := bestY b; minDistance := minDistance b |}
  end.

Definition findNonOverlappingPosition (initialX initialY : Q) (existingNodes : list Node)
  (direction : Side) : Point :=
  let b0 := {| bestX := initialX; bestY := initialY; minDistance := None |} in
  let b1 := fold_left (tryY initialX initialY existingNodes) yOffsets b0 in
  let b2 :=
    match minDistance b1 with
    | None => tryX initialX direction existingNodes b1 xAdjusts
    | Some _ => b1
    end in
  {| px := bestX b2; py := bestY b2 |}.
End IncrementalPlacement.

(** ** A computable stand-in for the platform's [Math]

    Used to run the model on concrete graphs: series for sine, cosine and
    arctangent and an integer square root, each rounded to fifteen decimal
    places.  [PI] is the exact value of the double [Math.PI]. *)

Module MathQ.
Definition scale : Z := (10 ^ 15)%Z.

Definition round15 (q : Q) : Q :=
  Qmake (Qfloor (q * inject_Z scale + (1 # 2))) (Z.to_pos scale).

Definition PI : Q := 884279719003555 # 281474976710656.

(** sum of [term 0 + term 1 + ...] where each term is the previous one
    times [ratio k] *)
Fixpoint series (n : nat) (k : Z) (term acc : Q) (ratio : Z -> Q) : Q :=
  match n with
  | O => acc
  | S n' => series n' (k + 1)%Z (round15 (term * ratio k)) (acc + term) ratio
  end.

(** reduction of an angle to the interval from minus PI to PI *)
Definition reduce (a : Q) : Q :=
  let r := js_rem a (2 * PI) in
  if Qltb PI r then r - 2 * PI
  else if Qltb r (- PI) then r + 2 * PI
  else r.

Definition sin (a : Q) : Q :=
  let r := round15 (reduce a) in
  round15 (series 30 1 r 0
             (fun k => - (r * r) / inject_Z ((2 * k) * (2 * k + 1)))).

Definition cos (a : Q) : Q :=
  let r := round15 (reduce a) in
  round15 (series 30 1 1 0
             (fun k => - (r * r) / inject_Z ((2 * k - 1) * (2 * k)))).

(** arctangent for an argument between minus one and one *)
Definition atan_unit (z : Q) : Q :=
  let w := z * z / (1 + z * z) in
  round15 (series 60 1 (round15 (z / (1 + z * z))) 0
             (fun k => w * inject_Z (2 * k) / inject_Z (2 * k + 1))).

Definition atan (z : Q) : Q :=
  round15 (if Qltb 1 z then PI / 2 - atan_unit (1 / z)
           else if Qltb z (-1) then - PI / 2 - atan_unit (1 / z)
           else atan_unit z).

Definition atan2 (b a : Q) : Q :=
  round15 (if Qltb 0 a then atan (b / a)
           else if Qltb a 0
                then (if Qltb b 0 then atan (b / a) - PI else atan (b / a) + PI)
           else if Qltb 0 b then PI / 2
           else if Qltb b 0 then - PI / 2
           else 0).

Definition sqrt (q : Q) : Q :=
  Qmake (Z.sqrt (Qfloor (q * inject_Z (scale * scale)))) (Z.to_pos scale).

Definition lib : MathLib := mkMath cos sin atan2 sqrt PI.
End MathQ.

(** ** Vocabulary of the statements and sample graphs *)

(** a node is free when no edge targets it *)
Definition free (edges : list Edge) (n : Node) : Prop :=
  forall e, In e edges -> target e <> id n.

(** the size precedence in words: measured, then stored on [data], then the
    defaults *)
Definition effectiveSize (n : Node) : Size :=
  {| width := match measured_width n with
              | Some w => w
              | None => match d_width (data n) with Some w => w | None => 250 end
              end;
     height := match measured_height n with
               | Some h => h
               | None => match d_height (data n) with Some h => h | None => 80 end
               end |}.

(** every size recorded on the node is positive *)
Definition positiveSizes (n : Node) : Prop :=
  forall v, In (Some v) [measured_width n; measured_height n;
                         d_width (data n); d_height (data n)] -> 0 < v.

(** what a layout pass leaves alone *)
Definition same_frame (i o : Node) : Prop :=
  id o = id i /\ type o = type i /\ data o = data i
  /\ selected o = selected i /\ measured o = measured i.

(** an unmeasured node with default data at the given top-left corner *)
Definition plainNode (k : string) (x y : Q) : Node :=
  {| id := k; type := None; position := {| px := x; py := y |}; measured := None;
     data := {| label := k; d_width := None; d_height := None; level := None |};
     selected := None; targetPosition := None; sourcePosition := None |}.

(** a node measured at [w] by [h] *)
Definition sizedNode (k : string) (w h : Q) : Node :=
  {| id := k; type := None; position := {| px := 0; py := 0 |};
     measured := Some {| m_width := Some w; m_height := Some h |};
     data := {| label := k; d_width := None; d_height := None; level := None |};
     selected := None; targetPosition := None; sourcePosition := None |}.

(** an unmeasured node whose data stores a size *)
Definition storedNode (k : string) (w h : Q) : Node :=
  {| id := k; type := None; position := {| px := 0; py := 0 |}; measured := None;
     data := {| label := k; d_width := Some w; d_height := Some h; level := None |};
     selected := None; targetPosition := None; sourcePosition := None |}.

Definition plainEdge (s t : string) : Edge :=
  {| eid := String.append s t; source := s; target := t;
     sourceHandle := None; targetHandle := None |}.

(** the candidate at [(x, y)] overlaps no existing node *)
Definition clearAt (w h x y : Q) (existing : list Node) : Prop :=
  forall n, In n existing -> overlapsExisting w h x y n = false.

(** summed centre-to-centre distance of the candidate to all existing nodes *)
Definition summedDistance (M : MathLib) (w h x y : Q) (existing : list Node) : Q :=
  fold_left (fun acc n => acc + centerDistance M w h x y n) existing 0.

Definition twoNodes : list Node := [plainNode "r" 0 0; plainNode "a" (-400) 0].
Definition oneEdge : list Edge := [plainEdge "r" "a"].

(** a library stub that lays out nothing *)
Definition noDagre : DagreLayout := fun _ => [].

(** two nodes on a cycle *)
Definition cycleNodes : list Node := [plainNode "a" 0 0; plainNode "b" 0 0].
Definition cycleEdges : list Edge := [plainEdge "a" "b"; plainEdge "b" "a"].
Definition cycleChildren : SMap (list string) :=
  [("a", ["b"]); ("b", ["a"])]%string.

(** the two handle pairs the horizontal pass hands out *)
Definition horizontalHandles (h : Handles) : Prop :=
  h = side_handles ToLeft \/ h = side_handles ToRight.

Definition handlesWithin (hs : SMap Handles) : Prop :=
  Forall (fun kv => horizontalHandles (snd kv)) hs.

(** the handle id named by an anchor side *)
Definition handleName (o : option Position.t) : option string :=
  option_map Position.name o.

Definition origin : Point := {| px := 0; py := 0 |}.

(** the box of an output node, given its size *)
Definition boxOf (n : Node) (s : Size) : Bounds :=
  {| b_x := px (position n); b_y := py (position n);
     b_width := width s; b_height := height s |}.

(** smallest box around two boxes *)
Definition joinBounds (a b : Bounds) : Bounds :=
  let left := Math_min (b_x a) (b_x b) in
  let top := Math_min (b_y a) (b_y b) in
  let right := Math_max (b_x a + b_width a) (b_x b + b_width b) in
  let bottom := Math_max (b_y a + b_height a) (b_y b + b_height b) in
  {| b_x := left; b_y := top; b_width := right - left; b_height := bottom - top |}.

(** a box lies outside another when their interiors do not meet *)
Definition outsideOf (b bb : Bounds) : bool := negb (boundsOverlap b bb 0).

(** a root with one child on the right and a node on a self-loop *)
Definition orphanNodes : list Node :=
  [plainNode "r" 0 0; plainNode "a" 400 0; plainNode "o" 0 0].
Definition orphanEdges : list Edge := [plainEdge "r" "a"; plainEdge "o" "o"].

(** number of nodes of [l] the radial traversal did not visit *)
Definition unvisitedCount (visited : SSet) (l : list Node) : nat :=
  length (filter (fun m => negb (set_has visited (id m))) l).

(** centre of an output node of the radial pass *)
Definition centerOf (n : Node) : Point :=
  {| px := inputCenterX n; py := inputCenterY n |}.

(** squared Euclidean distance *)
Definition distance2 (a b : Point) : Q :=
  (px a - px b) * (px a - px b) + (py a - py b) * (py a - py b).

(** [parentHalfDiagonal + childHalfDiagonal + 80] *)
Definition separation (nodes : list Node) (parentId childId : string) : Q :=
  halfDiagonal (getNodeSize_radial nodes parentId)
  + halfDiagonal (getNodeSize_radial nodes childId) + 80.

(** a root with three children, one of which has a child of its own *)
Definition ringNodes : list Node :=
  [sizedNode "G" 1000 1000; sizedNode "P" 100 1000; plainNode "Q" 0 0;
   plainNode "S" 0 0; sizedNode "C" 100 100].
Definition ringEdges : list Edge :=
  [plainEdge "G" "P"; plainEdge "G" "Q"; plainEdge "G" "S"; plainEdge "P" "C"].

(** tree shape, decided: distinct ids, edges between nodes, one root, one
    incoming edge for every other node, every node reached from the root *)
Definition treeShaped (nodes : list Node) (edges : list Edge) : bool :=
  let ids := map id nodes in
  let distinct :=
    forallb (fun k => (length (filter (String.eqb k) ids) =? 1)%nat) ids in
  let closed :=
    forallb (fun e => set_has ids (source e) && set_has ids (target e)) edges in
  let incoming k := length (filter (fun e => String.eqb (target e) k) edges) in
  let roots := filter (fun k => (incoming k =? 0)%nat) ids in
  match roots with
  | [root] =>
      distinct && closed
      && forallb (fun k => String.eqb k root || (incoming k =? 1)%nat) ids
      && match calculateLevels (t_children (buildTree nodes edges))
                 (S (length nodes)) ([], []) root 0 with
         | Some (visited, _) => forallb (set_has visited) ids
         | None => false
         end
  | _ => false
  end.


(** opposite sides of a box *)
Definition opposite (a b : Position.t) : bool :=
  match a, b with
  | Position.Left, Position.Right | Position.Right, Position.Left
  | Position.Top, Position.Bottom | Position.Bottom, Position.Top => true
  | _, _ => false
  end.

Definition oppositeHandles (h : Handles) : Prop :=
  opposite (h_target h) (h_source h) = true.

(** an output node whose two anchors are set and face opposite ways *)
Definition oppositeAnchors (n : Node) : Prop :=
  exists t s, targetPosition n = Some t /\ sourcePosition n = Some s
              /\ opposite t s = true.

(** what a layout pass leaves alone on an edge *)
Definition same_edge_frame (e e' : Edge) : Prop :=
  eid e' = eid e /\ source e' = source e /\ target e' = target e.

(** the horizontal offset tried by the fallback scan *)
Definition shiftX (x0 : Q) (direction : Side) (xAdjust : Q) : Q :=
  x0 + (match direction with ToRight => xAdjust | ToLeft => - xAdjust end).

(** a tall box that covers every candidate of the vertical scan around 0 *)
Definition tallNode : Node :=
  {| id := "tall"; type := None; position := {| px := 0; py := -1000 |};
     measured := Some {| m_width := Some 300; m_height := Some 2000 |};
     data := {| label := "tall"; d_width := None; d_height := None; level := None |};
     selected := None; targetPosition := None; sourcePosition := None |}.

(** the side decision for one child of the root, by its index among the
    root's children: marker on the edge, then position, then parity *)
Definition goesLeft (nodes : list Node) (edges : list Edge) (rootNode : Node)
  (childId : string) (index : nat) : bool :=
  let handle := rootEdgeHandle edges (id rootNode) childId in
  if opt_is handle "left" then true
  else if opt_is handle "right" then false
  else match find_node nodes childId with
       | Some childNode => Qltb (inputCenterX childNode) (inputCenterX rootNode)
       | None => negb (Nat.even index)
       end.

(** the keys of a position map, in order, each with its x coordinate *)
Definition xProfile (ps : SMap Point) : list (string * Q) :=
  map (fun kv => (fst kv, px (snd kv))) ps.

(** every key with a position also has a handle pair *)
Definition handlesCover (st : Placement) : Prop :=
  forall k, shas (positions st) k = true -> shas (handlePositions st) k = true.

(** number of keys of the adjacency map not yet visited *)
Definition unvisitedKeys (children : SMap (list string)) (visited : SSet) : nat :=
  length (filter (fun k => negb (set_has visited k)) (map fst children)).

Definition cycleLevels : SMap Q := [("a", 0); ("b", 0 + 1)]%string.

(** the part of the graph below [p] unfolds completely within [fuel] levels
    of recursion, which no node on or before a cycle does for any [fuel] *)
Fixpoint unfolds (children : SMap (list string)) (fuel : nat) (p : string) : bool :=
  match fuel with
  | O => false
  | S fuel' => forallb (unfolds children fuel') (kids_of children p)
  end.

(** every key of a position map unfolds within [fuel] *)
Definition keysUnfold (children : SMap (list string)) (fuel : nat) (ps : SMap Point) : Prop :=
  forall k, shas ps k = true -> unfolds children fuel k = true.

(** a root with two children and a grandchild *)
Definition smallTreeNodes : list Node :=
  [plainNode "r" 0 0; plainNode "a" (-400) 0; plainNode "b" 400 0; plainNode "c" 800 0].
Definition smallTreeEdges : list Edge :=
  [plainEdge "r" "a"; plainEdge "r" "b"; plainEdge "b" "c"].

(** the ids strictly below [p], in the order the traversal meets them, as
    far as [fuel] levels reach *)
Fixpoint below (children : SMap (list string)) (fuel : nat) (p : string) : list string :=
  match fuel with
  | O => []
  | S fuel' => flat_map (fun k => k :: below children fuel' k) (kids_of children p)
  end.

(** positions [ps] put [v] on the ring of its parent [u] *)
Definition onRing (M : MathLib) (nodes : list Node) (children : SMap (list string))
  (levels : SMap Q) (ps : SMap Point) (u v : string) : Prop :=
  exists pu angle,
    sget ps u = Some pu
    /\ sget ps v = Some (ringPoint M pu (ringRadius nodes children levels u) angle).

(** what one run of [positionChildren] below [p] establishes: nodes outside
    the subtree keep their position, nodes inside sit on their parent's ring *)
Definition ringsBelow (M : MathLib) (nodes : list Node) (children : SMap (list string))
  (levels : SMap Q) (fuel : nat) (p : string) (ps ps' : SMap Point) : Prop :=
  (forall k, ~ In k (below children fuel p) -> sget ps' k = sget ps k)
  /\ (forall u v, In u (p :: below children fuel p) -> In v (kids_of children u) ->
        onRing M nodes children levels ps' u v).

(** ** Incremental placement in the words of the specification

    The definitions below do not mention the code of
    [findNonOverlappingPosition]: they say what a box, an overlap and a
    centre distance are, so that the code can be compared with them. *)

(** an axis-aligned box by its four edges *)
Record Box : Type := mkBox { box_left : Q; box_right : Q; box_top : Q; box_bottom : Q }.

(** the size taken for an existing node: its measured size; failing that,
    the size recorded in its data; failing that, the candidate's own size *)
Definition sizeOnCanvas (w h : Q) (n : Node) : Size :=
  {| width := match measured_width n, d_width (data n) with
              | Some v, _ => v
              | None, Some v => v
              | None, None => w
              end;
     height := match measured_height n, d_height (data n) with
               | Some v, _ => v
               | None, Some v => v
               | None, None => h
               end |}.

(** the box an existing node covers: its position is its top-left corner *)
Definition nodeBox (w h : Q) (n : Node) : Box :=
  {| box_left := px (position n);
     box_right := px (position n) + width (sizeOnCanvas w h n);
     box_top := py (position n);
     box_bottom := py (position n) + height (sizeOnCanvas w h n) |}.

(** the box of a candidate of size [w] x [h] with top-left corner [(x, y)] *)
Definition candidateBox (w h x y : Q) : Box :=
  {| box_left := x; box_right := x + w; box_top := y; box_bottom := y + h |}.

(** a box grown by [d] on every side *)
Definition padded (d : Q) (b : Box) : Box :=
  {| box_left := box_left b - d; box_right := box_right b + d;
     box_top := box_top b - d; box_bottom := box_bottom b + d |}.

(** a point lies in a (closed) box *)
Definition insideBox (b : Box) (p : Point) : Prop :=
  box_left b <= px p /\ px p <= box_right b /\ box_top b <= py p /\ py p <= box_bottom b.

(** axis-aligned bounding-box overlap: the extents meet on both axes *)
Definition boxesOverlap (a b : Box) : Prop :=
  box_left a <= box_right b /\ box_left b <= box_right a
  /\ box_top a <= box_bottom b /\ box_top b <= box_bottom a.

(** the candidate at [(x, y)], padded by 20, overlaps no existing node *)
Definition overlapFree (w h x y : Q) (existing : list Node) : Prop :=
  forall n, In n existing ->
    ~ boxesOverlap (padded 20 (candidateBox w h x y)) (nodeBox w h n).

(** the centre of a box: the midpoint of its edges *)
Definition boxCentre (b : Box) : Point :=
  {| px := (box_left b + box_right b) / 2; py := (box_top b + box_bottom b) / 2 |}.

(** Euclidean distance of two points, for the square root of [M] *)
Definition euclidean (M : MathLib) (p q : Point) : Q :=
  sqrt M ((px p - px q) * (px p - px q) + (py p - py q) * (py p - py q)).

(** the sum, over all existing nodes, of the distance from the candidate's
    centre to the node's centre *)
Definition totalCentreDistance (M : MathLib) (w h x y : Q) (existing : list Node) : Q :=
  fold_right
    (fun n acc => euclidean M (boxCentre (candidateBox w h x y)) (boxCentre (nodeBox w h n)) + acc)
    0 existing.

(** the positions the function can return: [x] is the initial one or one of
    the horizontal offsets, [y] the initial one or one of the vertical offsets *)
Definition candidatePosition (x0 y0 : Q) (direction : Side) (p : Point) : Prop :=
  (px p = x0 \/ exists xa, In xa xAdjusts /\ px p = shiftX x0 direction xa)
  /\ (py p = y0 \/ exists yo, In yo yOffsets /\ py p = y0 + yo).

(** ** Graphs without a cycle *)

(** a chain of one or more edges leads from [x] to [y] *)
Inductive edgePath (edges : list Edge) : string -> string -> Prop :=
| path_one : forall e, In e edges -> edgePath edges (source e) (target e)
| path_more : forall e z,
    In e edges -> edgePath edges (target e) z -> edgePath edges (source e) z.

(** no chain of edges leads from an id back to itself *)
Definition acyclic (edges : list Edge) : Prop := forall x, ~ edgePath edges x x.

(** no cycle of edges passes through [p] or through an id reached from [p] *)
Definition acyclicBelow (edges : list Edge) (p : string) : Prop :=
  forall x, x = p \/ edgePath edges p x -> ~ edgePath edges x x.

(** a ranking that falls along every edge, a sufficient test for [acyclic] *)
Definition ranked (rank : string -> nat) (edges : list Edge) : bool :=
  forallb (fun e => (rank (target e) <? rank (source e))%nat) edges.

(** a ranking of the small tree *)
Definition smallTreeRank (k : string) : nat :=
  if String.eqb k "r" then 2%nat else if String.eqb k "b" then 1%nat else 0%nat.

(** ** What a call reads of the platform *)

(** two [Math] objects answer alike wherever the engine asks: [Math.PI],
    [Math.cos], [Math.sin] and [Math.atan2]; [Math.sqrt] is left free *)
Definition sameMath (M1 M2 : MathLib) : Prop :=
  PI M1 = PI M2
  /\ (forall a, cos M1 a = cos M2 a)
  /\ (forall a, sin M1 a = sin M2 a)
  /\ (forall a b, atan2 M1 a b = atan2 M2 a b).

(** the graph that the rank-based path hands to [dagre.layout] *)
Definition rankGraph (nodes : list Node) (edges : list Edge) (direction : LayoutDirection)
  : DagreGraph :=
  let isHorizontal := match direction with TB => false | _ => true end in
  {| g_config := {| rankdir := direction;
                    nodesep := if isHorizontal then 120 else 150;
                    ranksep := if isHorizontal then 300 else 250;
                    marginx := 150; marginy := 150 |};
     g_nodes := map (fun node => (id node,
                                  {| width := nullish (measured_width node) nodeWidth;
                                     height := nullish (measured_height node) nodeHeight |}))
                    nodes;
     g_edges := map (fun edge => (source edge, target edge)) edges |}.

(** a second [Math] object: that of [MathQ] with another square root *)
Definition otherMath : MathLib :=
  mkMath (cos MathQ.lib) (sin MathQ.lib) (atan2 MathQ.lib) (fun q => q + 1) (PI MathQ.lib).

(** a second library stub, which puts every node of the graph at (7, 7) *)
Definition otherDagre : DagreLayout :=
  fun g => map (fun entry => (fst entry, {| px := 7; py := 7 |})) (g_nodes g).

(** ** Radial placement of a forest *)

(** the ids the traversal from [roots] meets, in the order it meets them *)
Definition forestIds (children : SMap (list string)) (fuel : nat) (roots : list Node)
  : list string :=
  flat_map (fun r => id r :: below children fuel (id r)) roots.

(** what the root traversals have established once the roots [done] are
    laid out: positions and visited marks only for ids of their trees, the
    roots and their children marked visited, every tree unfolded, and every
    child on the ring of its parent *)
Definition placedForest (M : MathLib) (nodes : list Node) (children : SMap (list string))
  (fuel : nat) (done : list Node) (st : RadialState) : Prop :=
  (forall k, shas (r_positions st) k = true -> In k (forestIds children fuel done))
  /\ (forall k, set_has (r_visited st) k = true -> In k (forestIds children fuel done))
  /\ (forall r, In r done ->
        unfolds children fuel (id r) = true
        /\ set_has (r_visited st) (id r) = true
        /\ forall c, In c (kids_of children (id r)) -> set_has (r_visited st) c = true)
  /\ (forall u v, In u (forestIds children fuel done) -> In v (kids_of children u) ->
        exists levels, onRing M nodes children levels (r_positions st) u v).

(** what the shift pass keeps of a child [c] first placed at [pc0] beside a
    parent fixed at [pr]: the same keys, the parent where it was, the child
    at the same height and no nearer to the parent's column *)
Definition shiftedAway (ps0 : SMap Point) (r c : string) (pr pc0 : Point) (ps : SMap Point)
  : Prop :=
  (forall k, shas ps k = shas ps0 k)
  /\ sget ps r = Some pr
  /\ exists pc, sget ps c = Some pc
                /\ py pc = py pc0
                /\ ((px pr <= px pc0 /\ px pc0 <= px pc)
                    \/ (px pc0 < px pr /\ px pc <= px pc0)).

(** ** Sorting *)

(** every element is at most, by key, every element after it *)
Fixpoint ascending {A : Type} (key : A -> Q) (l : list A) : Prop :=
  match l with
  | [] => True
  | a :: l' => (forall b, In b l' -> key a <= key b) /\ ascending key l'
  end.
(** * Verification *)

(** ** Lemmas on the prelude *)

Lemma Qltb_lt (a b : Q) : Qltb a b = true <-> a < b.
Proof.
  unfold Qltb. rewrite negb_true_iff. split; intro H.
  - apply Qnot_le_lt. intro Hle. apply Qle_bool_iff in Hle. congruence.
  - destruct (Qle_bool b a) eqn:E; [|reflexivity].
    apply Qle_bool_iff in E. exfalso. apply (Qlt_not_le _ _ H E).
Qed.

Lemma Qltb_ge (a b : Q) : Qltb a b = false <-> b <= a.
Proof.
  unfold Qltb. rewrite negb_false_iff. apply Qle_bool_iff.
Qed.

Lemma Qleb_le (a b : Q) : Qleb a b = true <-> a <= b.
Proof. apply Qle_bool_iff. Qed.

Lemma Qgtb_gt (a b : Q) : Qgtb a b = true <-> b < a.
Proof.
  unfold Qgtb. rewrite negb_true_iff. split; intro H.
  - apply Qnot_le_lt. intro Hle. apply Qle_bool_iff in Hle. congruence.
  - destruct (Qle_bool a b) eqn:E; [|reflexivity].
    apply Qle_bool_iff in E. exfalso. apply (Qlt_not_le _ _ H E).
Qed.

Lemma Math_max_l (a b : Q) : a <= Math_max a b.
Proof.
  unfold Math_max. destruct (Qltb a b) eqn:E.
  - apply Qltb_lt in E. apply Qlt_le_weak. exact E.
  - apply Qle_refl.
Qed.

Lemma Math_max_r (a b : Q) : b <= Math_max a b.
Proof.
  unfold Math_max. destruct (Qltb a b) eqn:E.
  - apply Qle_refl.
  - apply Qltb_ge in E. exact E.
Qed.

Lemma set_has_In (s : SSet) (k : string) : set_has s k = true <-> In k s.
Proof.
  unfold set_has. rewrite existsb_exists. split.
  - intros [x [Hin Heq]]. apply String.eqb_eq in Heq. subst. exact Hin.
  - intro Hin. exists k. split; [exact Hin | apply String.eqb_refl].
Qed.

Lemma set_has_map_target (edges : list Edge) (k : string) :
  set_has (map target edges) k = true <-> exists e, In e edges /\ target e = k.
Proof.
  rewrite set_has_In, in_map_iff.
  split; intros [e [H1 H2]]; exists e; split; assumption.
Qed.

(** ** Root detection *)

Lemma free_filter (edges : list Edge) (n : Node) :
  negb (set_has (map target edges) (id n)) = true <-> free edges n.
Proof.
  rewrite negb_true_iff. unfold free. split.
  - intros H e Hin Heq.
    assert (set_has (map target edges) (id n) = true) as Ht
      by (apply set_has_map_target; exists e; split; assumption).
    congruence.
  - intro H. destruct (set_has (map target edges) (id n)) eqn:E; [|reflexivity].
    apply set_has_map_target in E. destruct E as [e [Hin Heq]].
    exfalso. exact (H e Hin Heq).
Qed.

(** C9: [findRootNodes] returns exactly the nodes no edge targets, in input
    order; when there is none it returns the first node alone, and the empty
    list for an empty node list. *)
Theorem findRootNodes_roots_or_first (nodes : list Node) (edges : list Edge) :
  ((exists n, In n nodes /\ free edges n) ->
     findRootNodes nodes edges
       = filter (fun n => negb (set_has (map target edges) (id n))) nodes
     /\ (forall n, In n (findRootNodes nodes edges) <-> In n nodes /\ free edges n))
  /\ ((forall n, In n nodes -> ~ free edges n) ->
        forall n0 rest, nodes = n0 :: rest -> findRootNodes nodes edges = [n0])
  /\ (nodes = [] -> findRootNodes nodes edges = []).
Proof.
  unfold findRootNodes.
  set (p := fun n : Node => negb (set_has (map target edges) (id n))).
  assert (Hp : forall n, In n (filter p nodes) <-> In n nodes /\ free edges n).
  { intro n. rewrite filter_In. unfold p. rewrite free_filter. reflexivity. }
  split; [|split].
  - intros [n Hn]. apply Hp in Hn.
    destruct (filter p nodes) as [|r roots] eqn:E; [destruct Hn|].
    split; [reflexivity|]. exact Hp.
  - intros Hnone n0 rest ->.
    destruct (filter p (n0 :: rest)) as [|r roots] eqn:E; [reflexivity|].
    exfalso. assert (In r (r :: roots)) as Hr by (left; reflexivity).
    apply Hp in Hr. destruct Hr as [Hin Hfree]. exact (Hnone r Hin Hfree).
  - intros ->. reflexivity.
Qed.

Lemma findRootNodes_witness :
  findRootNodes [plainNode "a" 0 0; plainNode "b" 0 0] [plainEdge "a" "b"]
  = filter (fun n => negb (set_has (map target [plainEdge "a" "b"]) (id n)))
           [plainNode "a" 0 0; plainNode "b" 0 0].
Proof.
  apply (proj1 (findRootNodes_roots_or_first
                  [plainNode "a" 0 0; plainNode "b" 0 0] [plainEdge "a" "b"])).
  exists (plainNode "a" 0 0). split; [left; reflexivity|].
  intros e [<-|[]]. discriminate.
Defined.

(** ** Node sizing *)

(** C8: in the horizontal pass the accessor follows the precedence measured
    size, size stored on the data, defaults 250 by 80, separately for width
    and height; it answers for unknown ids with the defaults; the size is
    positive when every recorded size is. *)
Theorem getNodeSize_precedence (nodeMap : SMap Node) (nodeId : string) :
  (sget nodeMap nodeId = None ->
     getNodeSize nodeMap nodeId = {| width := 250; height := 80 |})
  /\ (forall node, sget nodeMap nodeId = Some node ->
        getNodeSize nodeMap nodeId = effectiveSize node
        /\ (positiveSizes node ->
              0 < width (getNodeSize nodeMap nodeId)
              /\ 0 < height (getNodeSize nodeMap nodeId))).
Proof.
  unfold getNodeSize. split.
  - intros ->. reflexivity.
  - intros node ->. split.
    + unfold effectiveSize, nullish, nullish_opt.
      destruct (measured_width node), (measured_height node),
        (d_width (data node)), (d_height (data node)); reflexivity.
    + intro Hpos. unfold positiveSizes in Hpos. cbn [In] in Hpos.
      unfold nullish, nullish_opt. cbn [width height].
      split.
      * destruct (measured_width node) as [w|] eqn:Ew; [apply Hpos; auto|].
        destruct (d_width (data node)) as [w|] eqn:Ed; [apply Hpos; auto 6|].
        reflexivity.
      * destruct (measured_height node) as [w|] eqn:Ew; [apply Hpos; auto|].
        destruct (d_height (data node)) as [w|] eqn:Ed; [apply Hpos; auto 6|].
        reflexivity.
Qed.

Lemma getNodeSize_precedence_witness :
  getNodeSize (nodeMapOf [storedNode "n" 400 200]) "n" = effectiveSize (storedNode "n" 400 200)
  /\ 0 < width (getNodeSize (nodeMapOf [storedNode "n" 400 200]) "n").
Proof.
  pose proof (proj2 (getNodeSize_precedence (nodeMapOf [storedNode "n" 400 200]) "n")
                (storedNode "n" 400 200) eq_refl) as [Hsize Hpos].
  split; [exact Hsize|].
  apply Hpos. intros v Hin. cbn in Hin.
  destruct Hin as [H|[H|[H|[H|[]]]]]; inversion H; reflexivity.
Defined.

(** C8, as stated, fails twice: the radial accessor skips the size stored
    on the data, and a recorded size of zero is returned as it is. *)
Lemma size_precedence_counterexample :
  (exists n, getNodeSize_radial [n] (id n) <> effectiveSize n)
  /\ (exists n, ~ 0 < width (getNodeSize (nodeMapOf [n]) (id n))).
Proof.
  split.
  - exists (storedNode "n" 400 200). vm_compute. discriminate.
  - exists (sizedNode "n" 0 0). vm_compute. discriminate.
Qed.

(** ** Frame *)

Lemma place_same_frame (n : Node) (h : Handles) (p : Point) : same_frame n (place n h p).
Proof. repeat split. Qed.

Lemma same_frame_refl (n : Node) : same_frame n n.
Proof. repeat split. Qed.

Lemma Forall2_map_same_frame (f : Node -> Node) (l : list Node) :
  (forall n, same_frame n (f n)) -> Forall2 same_frame l (map f l).
Proof.
  intro Hf. induction l as [|n l IH]; cbn; constructor; auto.
Qed.

Lemma Forall2_same_frame_refl (l : list Node) : Forall2 same_frame l l.
Proof. induction l; constructor; auto using same_frame_refl. Qed.

Lemma newNode_d_same_frame isH store root side n :
  same_frame n (newNode_d isH store root side n).
Proof.
  unfold newNode_d. destruct (sget store (id n)).
  - apply place_same_frame.
  - apply same_frame_refl.
Qed.

Lemma horizontalLayout_same_frame fuel nodes edges outN outE :
  horizontalLayout fuel nodes edges = Some (outN, outE) -> Forall2 same_frame nodes outN.
Proof.
  unfold horizontalLayout. destruct (horizontalRoot nodes edges) as [root|].
  - destruct (horizontalPlacement fuel nodes edges root) as [st|]; cbn; [|discriminate].
    intro H. inversion H; subst. apply Forall2_map_same_frame.
    intro n. apply place_same_frame.
  - intro H. inversion H; subst. apply Forall2_same_frame_refl.
Qed.

Lemma radialLayout_same_frame M fuel nodes edges outN :
  radialLayout M fuel nodes edges = Some outN -> Forall2 same_frame nodes outN.
Proof.
  unfold radialLayout. destruct nodes as [|n0 nodes'].
  - intro H. inversion H. constructor.
  - destruct (radialTraversal M fuel (n0 :: nodes') edges) as [[st off]|]; cbn [bind];
      [|discriminate].
    intro H. injection H as <-.
    apply (Forall2_map_same_frame
             (newNode_r (fst (placeOrphans_radial (n0 :: nodes') st off))) (n0 :: nodes')).
    intro n. apply place_same_frame.
Qed.

(** C10: whenever a layout pass returns, the output nodes correspond one to
    one, in order, to the input nodes and differ from them at most in
    [position], [sourcePosition] and [targetPosition]. *)
Theorem getLayoutedElements_frame M dagre fuel nodes edges direction outN outE :
  getLayoutedElements M dagre fuel nodes edges direction = Some (outN, outE) ->
  Forall2 same_frame nodes outN.
Proof.
  unfold getLayoutedElements. destruct direction.
  - unfold rankLayout. intro H. inversion H; subst.
    apply Forall2_map_same_frame. intro n. apply newNode_d_same_frame.
  - apply horizontalLayout_same_frame.
  - destruct (radialLayout M fuel nodes edges) as [ns|] eqn:E; cbn [bind]; [|discriminate].
    intro H. inversion H; subst. eapply radialLayout_same_frame. exact E.
Qed.

Lemma getLayoutedElements_frame_witness :
  exists outN outE,
    getLayoutedElements MathQ.lib noDagre 5 twoNodes oneEdge LR = Some (outN, outE)
    /\ Forall2 same_frame twoNodes outN.
Proof.
  eexists. eexists. split.
  - vm_compute. reflexivity.
  - eapply (getLayoutedElements_frame MathQ.lib noDagre 5 twoNodes oneEdge LR).
    vm_compute. reflexivity.
Defined.

(** ** Incremental placement *)

Section Incremental.
Variable M : MathLib.
Variables w h x0 y0 : Q.
Variable existing : list Node.

Lemma scanExisting_sum (y : Q) (l : list Node) (acc : Q) :
  scanExisting M w h x0 y l acc
  = if existsb (overlapsExisting w h x0 y) l then None
    else Some (fold_left (fun a n => a + centerDistance M w h x0 y n) l acc).
Proof.
  revert acc. induction l as [|n l IH]; intro acc; cbn; [reflexivity|].
  destruct (overlapsExisting w h x0 y n); cbn; [reflexivity|]. apply IH.
Qed.

Lemma existsb_clearAt (y : Q) :
  existsb (overlapsExisting w h x0 y) existing = false <-> clearAt w h x0 y existing.
Proof.
  unfold clearAt. split.
  - intros H n Hin. destruct (overlapsExisting w h x0 y n) eqn:E; [|reflexivity].
    assert (existsb (overlapsExisting w h x0 y) existing = true) as Ht
      by (apply existsb_exists; exists n; split; assumption).
    congruence.
  - intro H. destruct (existsb (overlapsExisting w h x0 y) existing) eqn:E; [|reflexivity].
    apply existsb_exists in E. destruct E as [n [Hin Ho]].
    rewrite (H n Hin) in Ho. discriminate.
Qed.

(** what the vertical scan has established after the offsets [done] *)
Definition scanned (done : list Q) (b : Best) : Prop :=
  bestX b = x0
  /\ (minDistance b = None ->
        bestY b = y0 /\ forall yo, In yo done -> ~ clearAt w h x0 (y0 + yo) existing)
  /\ (forall m, minDistance b = Some m ->
        exists yo, In yo done /\ bestY b = y0 + yo
                   /\ clearAt w h x0 (y0 + yo) existing
                   /\ m = summedDistance M w h x0 (y0 + yo) existing
                   /\ forall yo', In yo' done -> clearAt w h x0 (y0 + yo') existing ->
                                  m <= summedDistance M w h x0 (y0 + yo') existing).

Lemma tryY_scanned (done : list Q) (b : Best) (yo : Q) :
  scanned done b -> scanned (done ++ [yo]) (tryY M w h x0 y0 existing b yo).
Proof.
  intros [Hx [Hnone Hsome]]. unfold tryY. rewrite scanExisting_sum.
  destruct (existsb (overlapsExisting w h x0 (y0 + yo)) existing) eqn:Eo.
  - (* the candidate overlaps: nothing changes *)
    assert (Hnc : ~ clearAt w h x0 (y0 + yo) existing).
    { intro Hc. apply existsb_clearAt in Hc. congruence. }
    split; [exact Hx|]. split.
    + intro Hm. destruct (Hnone Hm) as [Hy Hall]. split; [exact Hy|].
      intros yo' Hin. apply in_app_or in Hin. destruct Hin as [Hin|[<-|[]]]; auto.
    + intros m Hm. destruct (Hsome m Hm) as [y1 [Hin [Hy [Hc [Hmeq Hmin]]]]].
      exists y1. repeat split; auto.
      * apply in_or_app. left. exact Hin.
      * intros yo' Hin' Hc'. apply in_app_or in Hin'.
        destruct Hin' as [Hin'|[<-|[]]]; [auto|contradiction].
  - apply existsb_clearAt in Eo.
    fold (summedDistance M w h x0 (y0 + yo) existing).
    destruct (minDistance b) as [m|] eqn:Em.
    + destruct (Hsome m eq_refl) as [y1 [Hin [Hy [Hc [Hmeq Hmin]]]]].
      destruct (Qltb (summedDistance M w h x0 (y0 + yo) existing) m) eqn:Elt.
      * apply Qltb_lt in Elt. cbn. split; [reflexivity|]. split; [discriminate|].
        intros m' Hm'. injection Hm' as <-. exists yo. repeat split; auto.
        -- apply in_or_app. right. left. reflexivity.
        -- intros yo' Hin' Hc'. apply in_app_or in Hin'.
           destruct Hin' as [Hin'|[<-|[]]].
           ++ apply Qle_trans with m; [apply Qlt_le_weak; exact Elt|auto].
           ++ apply Qle_refl.
      * apply Qltb_ge in Elt. split; [exact Hx|]. split; [congruence|].
        intros m' Hm'. rewrite Em in Hm'. injection Hm' as <-.
        exists y1. repeat split; auto.
        -- apply in_or_app. left. exact Hin.
        -- intros yo' Hin' Hc'. apply in_app_or in Hin'.
           destruct Hin' as [Hin'|[<-|[]]]; auto.
    + cbn. split; [reflexivity|]. split; [discriminate|].
      intros m' Hm'. injection Hm' as <-. exists yo. repeat split; auto.
      * apply in_or_app. right. left. reflexivity.
      * intros yo' Hin' Hc'. apply in_app_or in Hin'.
        destruct Hin' as [Hin'|[<-|[]]].
        -- exfalso. destruct (Hnone eq_refl) as [_ Hall]. exact (Hall yo' Hin' Hc').
        -- apply Qle_refl.
Qed.

Lemma fold_tryY_scanned (l done : list Q) (b : Best) :
  scanned done b -> scanned (done ++ l) (fold_left (tryY M w h x0 y0 existing) l b).
Proof.
  revert done b. induction l as [|yo l IH]; intros done b Hb; cbn.
  - rewrite app_nil_r. exact Hb.
  - replace (done ++ yo :: l) with ((done ++ [yo]) ++ l)
      by (rewrite <- app_assoc; reflexivity).
    apply IH. apply tryY_scanned. exact Hb.
Qed.

Lemma scanned_start :
  scanned [] {| bestX := x0; bestY := y0; minDistance := None |}.
Proof.
  split; [reflexivity|]. split.
  - intros _. split; [reflexivity|]. intros yo [].
  - intros m Hm. discriminate.
Qed.

(** the code's size, overlap test and distance are those of the
    specification *)
Lemma existingSize_sizeOnCanvas (n : Node) : existingSize w h n = sizeOnCanvas w h n.
Proof.
  unfold existingSize, sizeOnCanvas, nullish, nullish_opt.
  destruct (measured_width n), (d_width (data n)),
           (measured_height n), (d_height (data n)); reflexivity.
Qed.

Lemma overlapsExisting_boxesOverlap (x y : Q) (n : Node) :
  overlapsExisting w h x y n = true
  <-> boxesOverlap (padded 20 (candidateBox w h x y)) (nodeBox w h n).
Proof.
  unfold overlapsExisting, boxesOverlap, padded, candidateBox, nodeBox, padding.
  cbv zeta. cbn [box_left box_right box_top box_bottom].
  rewrite existingSize_sizeOnCanvas.
  rewrite negb_true_iff, !orb_false_iff.
  unfold Qgtb. rewrite !Qltb_ge.
  rewrite !negb_false_iff, !Qle_bool_iff. tauto.
Qed.

Lemma clearAt_overlapFree (y : Q) : clearAt w h x0 y existing <-> overlapFree w h x0 y existing.
Proof.
  unfold clearAt, overlapFree. split; intros H n Hin; specialize (H n Hin).
  - intro Ho. apply overlapsExisting_boxesOverlap in Ho. congruence.
  - destruct (overlapsExisting w h x0 y n) eqn:E; [|reflexivity].
    exfalso. apply H. apply overlapsExisting_boxesOverlap. exact E.
Qed.

Lemma centerDistance_euclidean (y : Q) (n : Node) :
  centerDistance M w h x0 y n
  = euclidean M (boxCentre (candidateBox w h x0 y)) (boxCentre (nodeBox w h n)).
Proof.
  unfold centerDistance, euclidean, boxCentre, candidateBox, nodeBox.
  cbv zeta. cbn [box_left box_right box_top box_bottom px py].
  rewrite existingSize_sizeOnCanvas. reflexivity.
Qed.

Lemma fold_left_sum_from (f : Node -> Q) (l : list Node) (acc : Q) :
  fold_left (fun a n => a + f n) l acc == acc + fold_right (fun n a => f n + a) 0 l.
Proof.
  revert acc. induction l as [|n l IH]; intro acc; cbn [fold_left fold_right].
  - ring.
  - rewrite IH. ring.
Qed.

Lemma summedDistance_total (y : Q) :
  summedDistance M w h x0 y existing == totalCentreDistance M w h x0 y existing.
Proof.
  unfold summedDistance, totalCentreDistance.
  rewrite fold_left_sum_from. rewrite Qplus_0_l.
  induction existing as [|n l IH]; cbn [fold_right]; [reflexivity|].
  rewrite IH, centerDistance_euclidean. reflexivity.
Qed.

Lemma tryX_bestX (direction : Side) (b : Best) (adjusts : list Q) :
  bestY (tryX w h x0 direction existing b adjusts) = bestY b
  /\ (bestX (tryX w h x0 direction existing b adjusts) = bestX b
      \/ exists xa, In xa adjusts
                    /\ bestX (tryX w h x0 direction existing b adjusts)
                       = shiftX x0 direction xa).
Proof.
  induction adjusts as [|xa adjusts IH]; cbn [tryX].
  - split; [reflexivity|left; reflexivity].
  - cbv zeta.
    destruct (existsb _ existing).
    + destruct IH as [Hy [Hx|[xb [Hin Hx]]]]; split; auto.
      right. exists xb. split; [right; exact Hin|exact Hx].
    + cbn [bestX bestY]. split; [reflexivity|].
      right. exists xa. split; [left; reflexivity|reflexivity].
Qed.
End Incremental.

(** two boxes with their edges in order overlap exactly when they share a
    point *)
Lemma boxesOverlap_share_point (a b : Box) :
  box_left a <= box_right a -> box_top a <= box_bottom a ->
  box_left b <= box_right b -> box_top b <= box_bottom b ->
  (boxesOverlap a b <-> exists p, insideBox a p /\ insideBox b p).
Proof.
  intros Ha1 Ha2 Hb1 Hb2. unfold boxesOverlap, insideBox. split.
  - intros [H1 [H2 [H3 H4]]].
    exists {| px := Qmax (box_left a) (box_left b); py := Qmax (box_top a) (box_top b) |}.
    cbn [px py].
    repeat split;
      try apply Q.le_max_l; try apply Q.le_max_r; apply Q.max_lub; assumption.
  - intros [p [[A1 [A2 [A3 A4]]] [B1 [B2 [B3 B4]]]]].
    repeat split; eapply Qle_trans; eassumption.
Qed.



(** ** Cyclic input *)

Lemma cycle_children : t_children (buildTree cycleNodes cycleEdges) = cycleChildren.
Proof. reflexivity. Qed.

Lemma calcSubtreeHeight_cycle (nodeMap : SMap Node) (fuel : nat) :
  calcSubtreeHeight cycleChildren nodeMap fuel "a" = None
  /\ calcSubtreeHeight cycleChildren nodeMap fuel "b" = None.
Proof.
  induction fuel as [|fuel [IHa IHb]]; [split; reflexivity|].
  split; cbn [calcSubtreeHeight].
  - change (kids_of cycleChildren "a") with ["b"%string].
    cbn [foldMi_from]. rewrite IHb. reflexivity.
  - change (kids_of cycleChildren "b") with ["a"%string].
    cbn [foldMi_from]. rewrite IHa. reflexivity.
Qed.

Lemma initialLayout_cycle (nodeMap : SMap Node) (fuel : nat) st x y side :
  initialLayout cycleChildren nodeMap fuel st "a" x y side = None.
Proof.
  destruct fuel as [|fuel]; [reflexivity|]. cbn [initialLayout].
  change (kids_of cycleChildren "a") with ["b"%string].
  cbn [mapM]. rewrite (proj2 (calcSubtreeHeight_cycle nodeMap fuel)). reflexivity.
Qed.

Lemma moveSubtreeHorizontally_cycle (fuel : nat) :
  forall ps dx,
    moveSubtreeHorizontally cycleChildren fuel ps "a" dx = None
    /\ moveSubtreeHorizontally cycleChildren fuel ps "b" dx = None.
Proof.
  induction fuel as [|fuel IH]; intros ps dx; [split; reflexivity|].
  split; cbn [moveSubtreeHorizontally].
  - change (kids_of cycleChildren "a") with ["b"%string].
    cbn [foldM]. rewrite (proj2 (IH _ dx)). reflexivity.
  - change (kids_of cycleChildren "b") with ["a"%string].
    cbn [foldM]. rewrite (proj1 (IH _ dx)). reflexivity.
Qed.

Lemma positionChildren_cycle (M : MathLib) (nodes : list Node) (fuel : nat) :
  forall levels st a0 a1,
    positionChildren M nodes cycleChildren fuel levels st "a" a0 a1 = None
    /\ positionChildren M nodes cycleChildren fuel levels st "b" a0 a1 = None.
Proof.
  induction fuel as [|fuel IH]; intros levels st a0 a1; [split; reflexivity|].
  split; cbn [positionChildren].
  - change (kids_of cycleChildren "a") with ["b"%string].
    cbn [foldMi_from]. destruct st as [ps hs].
    rewrite (proj2 (IH _ _ _ _)). reflexivity.
  - change (kids_of cycleChildren "b") with ["a"%string].
    cbn [foldMi_from]. destruct st as [ps hs].
    rewrite (proj1 (IH _ _ _ _)). reflexivity.
Qed.

Lemma horizontalLayout_cycle (fuel : nat) :
  horizontalLayout fuel cycleNodes cycleEdges = None.
Proof.
  unfold horizontalLayout.
  change (horizontalRoot cycleNodes cycleEdges) with (Some (plainNode "a" 0 0)).
  unfold horizontalPlacement, horizontalTraversal. cbv zeta.
  rewrite cycle_children.
  change (splitRootChildren cycleNodes cycleEdges (plainNode "a" 0 0)
            (kids_of cycleChildren (id (plainNode "a" 0 0))))
    with (@nil string, ["b"%string]).
  cbv iota beta. cbn [layoutSide bind].
  cbn [mapM]. rewrite (proj2 (calcSubtreeHeight_cycle _ fuel)). reflexivity.
Qed.

Lemma radialLayout_cycle (M : MathLib) (fuel : nat) :
  radialLayout M fuel cycleNodes cycleEdges = None.
Proof.
  unfold radialLayout. cbn [cycleNodes]. unfold radialTraversal.
  fold cycleNodes. rewrite cycle_children.
  change (findRootNodes cycleNodes cycleEdges) with [plainNode "a" 0 0].
  unfold layoutRoots. cbn [foldM]. unfold layoutTree at 1.
  cbn [fst snd id plainNode r_visited r_positions r_handles].
  match goal with
  | |- context [calculateLevels ?c ?f ?s ?n ?l] =>
      destruct (calculateLevels c f s n l) as [[visited levels]|]
  end; cbn [bind]; [|reflexivity].
  rewrite (proj1 (positionChildren_cycle M cycleNodes fuel _ _ _ _)).
  reflexivity.
Qed.

(** C1 on a cyclic graph: neither the horizontal nor the radial pass ever
    returns, whatever the recursion budget, so no output node exists. *)
Theorem getLayoutedElements_cycle_no_output (M : MathLib) (dagre : DagreLayout) (fuel : nat) :
  getLayoutedElements M dagre fuel cycleNodes cycleEdges LR = None
  /\ getLayoutedElements M dagre fuel cycleNodes cycleEdges radial = None.
Proof.
  split; cbn [getLayoutedElements].
  - apply horizontalLayout_cycle.
  - rewrite radialLayout_cycle. reflexivity.
Qed.

(** C3 on the same graph: the level computation, which consults the
    visited-set, returns; subtree height, subtree placement, subtree shift
    and radial child placement do not consult it and exhaust every budget. *)
Theorem unguarded_recursions_exhaust_budget (M : MathLib) (nodes : list Node)
  (nodeMap : SMap Node) (fuel : nat) st ps hs levels x y side dx a0 a1 :
  t_children (buildTree cycleNodes cycleEdges) = cycleChildren
  /\ calculateLevels cycleChildren 2 ([], []) "a" 0
     = Some (["a"; "b"]%string, [("a", 0); ("b", 0 + 1)]%string)
  /\ calcSubtreeHeight cycleChildren nodeMap fuel "a" = None
  /\ initialLayout cycleChildren nodeMap fuel st "a" x y side = None
  /\ moveSubtreeHorizontally cycleChildren fuel ps "a" dx = None
  /\ positionChildren M nodes cycleChildren fuel levels (ps, hs) "a" a0 a1 = None.
Proof.
  split; [reflexivity|]. split; [reflexivity|].
  split; [apply calcSubtreeHeight_cycle|].
  split; [apply initialLayout_cycle|].
  split; [apply moveSubtreeHorizontally_cycle|].
  apply positionChildren_cycle.
Qed.

(** ** Maps *)

Lemma sget_sset_same {V} (m : SMap V) (k : string) (v : V) : sget (sset m k v) k = Some v.
Proof.
  unfold sget, sset. induction m as [|[k' v'] m IH]; cbn.
  - rewrite String.eqb_refl. reflexivity.
  - destruct (String.eqb k' k) eqn:E; cbn; rewrite E; [reflexivity|exact IH].
Qed.

Lemma sget_sset_other {V} (m : SMap V) (k k0 : string) (v : V) :
  k <> k0 -> sget (sset m k v) k0 = sget m k0.
Proof.
  intro Hne. unfold sget, sset. induction m as [|[k' v'] m IH]; cbn.
  - destruct (String.eqb k k0) eqn:E; [apply String.eqb_eq in E; contradiction|reflexivity].
  - destruct (String.eqb k' k) eqn:E; cbn.
    + apply String.eqb_eq in E. subst k'.
      destruct (String.eqb k k0) eqn:E0; [apply String.eqb_eq in E0; contradiction|reflexivity].
    + destruct (String.eqb k' k0); [reflexivity|exact IH].
Qed.

Lemma shas_sset {V} (m : SMap V) (k k0 : string) (v : V) :
  shas (sset m k v) k0 = String.eqb k k0 || shas m k0.
Proof.
  unfold shas, mhas. fold (sget (sset m k v) k0). fold (sget m k0).
  destruct (String.eqb k k0) eqn:E.
  - apply String.eqb_eq in E. subst. rewrite sget_sset_same. reflexivity.
  - rewrite sget_sset_other; [reflexivity|].
    intro Heq. subst. rewrite String.eqb_refl in E. discriminate.
Qed.

Lemma sset_Forall {V} (P : V -> Prop) (m : SMap V) (k : string) (v : V) :
  Forall (fun kv => P (snd kv)) m -> P v -> Forall (fun kv => P (snd kv)) (sset m k v).
Proof.
  intros Hm Hv. unfold sset. induction Hm as [|[k' v'] m Hkv Hm IH]; cbn.
  - constructor; [exact Hv|constructor].
  - destruct (String.eqb k' k); constructor; auto.
Qed.

Lemma sget_Forall {V} (P : V -> Prop) (m : SMap V) (k : string) (v : V) :
  Forall (fun kv => P (snd kv)) m -> sget m k = Some v -> P v.
Proof.
  intros Hm. unfold sget. induction Hm as [|[k' v'] m Hkv Hm IH]; cbn; [discriminate|].
  destruct (String.eqb k' k); [intro H; injection H as <-; exact Hkv|exact IH].
Qed.

(** ** Loops that keep an invariant *)

Lemma foldMi_from_invariant {A St : Type} (I : St -> Prop) (f : St -> A -> nat -> option St) :
  (forall s a i s', I s -> f s a i = Some s' -> I s') ->
  forall l i s s', I s -> foldMi_from f i l s = Some s' -> I s'.
Proof.
  intros Hf l. induction l as [|a l IH]; intros i s s' Hs H; cbn in H.
  - injection H as <-. exact Hs.
  - destruct (f s a i) as [s1|] eqn:E; cbn in H; [|discriminate].
    eapply IH; [|exact H]. eapply Hf; eassumption.
Qed.

Lemma foldM_invariant {A St : Type} (I : St -> Prop) (f : St -> A -> option St) :
  (forall s a s', I s -> f s a = Some s' -> I s') ->
  forall l s s', I s -> foldM f l s = Some s' -> I s'.
Proof.
  intros Hf l. induction l as [|a l IH]; intros s s' Hs H; cbn in H.
  - injection H as <-. exact Hs.
  - destruct (f s a) as [s1|] eqn:E; cbn in H; [|discriminate].
    eapply IH; [|exact H]. eapply Hf; eassumption.
Qed.

Lemma fold_left_invariant {A St : Type} (I : St -> Prop) (f : St -> A -> St) :
  (forall s a, I s -> I (f s a)) -> forall l s, I s -> I (fold_left f l s).
Proof.
  intros Hf l. induction l as [|a l IH]; intros s Hs; cbn; auto.
Qed.

(** ** Anchors of the horizontal pass *)

Lemma horizontalHandles_side (side : Side) : horizontalHandles (side_handles side).
Proof. destruct side; [left|right]; reflexivity. Qed.

Lemma horizontalHandles_default : horizontalHandles defaultHandles.
Proof. right. reflexivity. Qed.

Lemma initialLayout_handlesWithin children nodeMap (fuel : nat) :
  forall st nodeId x y side r,
    handlesWithin (handlePositions st) ->
    initialLayout children nodeMap fuel st nodeId x y side = Some r ->
    handlesWithin (handlePositions (fst r)).
Proof.
  induction fuel as [|fuel IH]; intros st nodeId x y side r Hst H; [discriminate|].
  cbn [initialLayout] in H.
  assert (Hst1 : handlesWithin (sset (handlePositions st) nodeId (side_handles side)))
    by (apply sset_Forall; [exact Hst|apply horizontalHandles_side]).
  destruct (kids_of children nodeId) as [|k kids] eqn:Ek.
  - injection H as <-. exact Hst1.
  - destruct (mapM (calcSubtreeHeight children nodeMap fuel) (k :: kids)) as [hsz|];
      cbn [bind] in H; [|discriminate].
    match type of H with
    | context [foldMi_from ?f ?i ?l ?s] => destruct (foldMi_from f i l s) as [acc|] eqn:Ef
    end; cbn [bind] in H; [|discriminate].
    injection H as <-. cbn [fst].
    revert Ef.
    apply (foldMi_from_invariant
             (fun acc : Placement * Q => handlesWithin (handlePositions (fst acc)))).
    + intros [s cy] a i s' Hs Hstep.
      destruct (initialLayout children nodeMap fuel s a
                  (x + side_step side) (cy + nth i hsz 0 / 2) side) as [r'|] eqn:Er;
        cbn [bind] in Hstep; [|discriminate].
      injection Hstep as <-. cbn [fst]. eapply IH; [|exact Er]. exact Hs.
    + exact Hst1.
Qed.

Lemma layoutSide_handlesWithin children nodeMap fuel st kids side st' :
  handlesWithin (handlePositions st) ->
  layoutSide children nodeMap fuel st kids side = Some st' ->
  handlesWithin (handlePositions st').
Proof.
  intros Hst H. unfold layoutSide in H. destruct kids as [|k kids].
  - injection H as <-. exact Hst.
  - destruct (mapM (calcSubtreeHeight children nodeMap fuel) (k :: kids)) as [hsz|];
      cbn [bind] in H; [|discriminate].
    match type of H with
    | context [foldMi_from ?f ?i ?l ?s] => destruct (foldMi_from f i l s) as [acc|] eqn:Ef
    end; cbn [bind] in H; [|discriminate].
    injection H as <-.
    revert Ef.
    apply (foldMi_from_invariant
             (fun acc : Placement * Q => handlesWithin (handlePositions (fst acc)))).
    + intros [s cy] a i s' Hs Hstep.
      match type of Hstep with
      | context [initialLayout ?c ?n ?f ?s0 ?a0 ?x0 ?y0 ?d] =>
          destruct (initialLayout c n f s0 a0 x0 y0 d) as [r'|] eqn:Er
      end; cbn [bind] in Hstep; [|discriminate].
      injection Hstep as <-. cbn [fst].
      eapply initialLayout_handlesWithin; [|exact Er]. exact Hs.
    + exact Hst.
Qed.

Lemma placeOrphans_handlesWithin nodes st :
  handlesWithin (handlePositions st) -> handlesWithin (handlePositions (placeOrphans nodes st)).
Proof.
  unfold placeOrphans.
  apply (fold_left_invariant (fun s : Placement => handlesWithin (handlePositions s))).
  intros s n Hs. destruct (shas (positions s) (id n)); [exact Hs|].
  cbn. apply sset_Forall; [exact Hs|apply horizontalHandles_default].
Qed.

Lemma horizontalTraversal_handlesWithin fuel nodes edges root st :
  horizontalTraversal fuel nodes edges root = Some st -> handlesWithin (handlePositions st).
Proof.
  unfold horizontalTraversal. cbv zeta.
  destruct (splitRootChildren nodes edges root
              (kids_of (t_children (buildTree nodes edges)) (id root))) as [lefts rights].
  match goal with
  | |- context [layoutSide ?c ?n ?f ?s ?k ?d] =>
      destruct (layoutSide c n f s k d) as [st1|] eqn:E1
  end; cbn [bind]; [|discriminate].
  destruct (layoutSide (t_children (buildTree nodes edges)) (nodeMapOf nodes) fuel st1
              rights ToRight) as [st2|] eqn:E2; cbn [bind]; [|discriminate].
  match goal with
  | |- context [foldM ?f ?l ?s] => destruct (foldM f l s) as [ps5|]
  end; cbn [bind]; [|discriminate].
  intro H. injection H as <-. cbn [handlePositions].
  eapply layoutSide_handlesWithin; [|exact E2].
  eapply layoutSide_handlesWithin; [|exact E1].
  cbn. constructor; [apply horizontalHandles_default|constructor].
Qed.

Lemma horizontalPlacement_handlesWithin fuel nodes edges root st :
  horizontalPlacement fuel nodes edges root = Some st -> handlesWithin (handlePositions st).
Proof.
  unfold horizontalPlacement.
  destruct (horizontalTraversal fuel nodes edges root) as [st0|] eqn:E; cbn [bind];
    [|discriminate].
  intro H. injection H as <-. apply placeOrphans_handlesWithin.
  eapply horizontalTraversal_handlesWithin. exact E.
Qed.

Lemma find_node_id (nodes : list Node) (k : string) (n : Node) :
  find_node nodes k = Some n -> In n nodes /\ id n = k.
Proof.
  unfold find_node. intro H. apply find_some in H. destruct H as [Hin Heq].
  apply String.eqb_eq in Heq. split; assumption.
Qed.

Lemma newNode_h_anchors nodeMap st n :
  handlesWithin (handlePositions st) ->
  exists h, horizontalHandles h
            /\ targetPosition (newNode_h nodeMap st n) = Some (h_target h)
            /\ sourcePosition (newNode_h nodeMap st n) = Some (h_source h).
Proof.
  intro Hst. unfold newNode_h.
  exists (nullish (sget (handlePositions st) (id n)) defaultHandles).
  split; [|split; reflexivity].
  destruct (sget (handlePositions st) (id n)) as [h|] eqn:E; cbn.
  - eapply (sget_Forall horizontalHandles); eassumption.
  - apply horizontalHandles_default.
Qed.

Lemma horizontal_target_name h :
  horizontalHandles h ->
  Some (if is_pos (Some (h_target h)) Position.Left then "left" else "right")%string
  = handleName (Some (h_target h)).
Proof. intros [->| ->]; reflexivity. Qed.

Lemma horizontal_source_name h :
  horizontalHandles h ->
  Some (if is_pos (Some (h_source h)) Position.Left then "left" else "right")%string
  = handleName (Some (h_source h)).
Proof. intros [->| ->]; reflexivity. Qed.

(** C4: after the horizontal pass every rewritten edge carries as target
    handle the side of its target's incoming anchor; an edge leaving a node
    other than the root carries as source handle the side of that node's
    outgoing anchor; an edge leaving the root carries "left" or "right"
    according to where its target was placed relative to the root column. *)
Theorem horizontalLayout_edge_handles fuel nodes edges outN outE :
  horizontalLayout fuel nodes edges = Some (outN, outE) ->
  forall e src tgt,
    In e outE ->
    find_node outN (source e) = Some src ->
    find_node outN (target e) = Some tgt ->
    targetHandle e = handleName (targetPosition tgt)
    /\ exists root st,
         horizontalRoot nodes edges = Some root
         /\ horizontalPlacement fuel nodes edges root = Some st
         /\ (id src <> id root -> sourceHandle e = handleName (sourcePosition src))
         /\ (id src = id root ->
               sourceHandle e
               = Some (if Qltb (px (nullish (sget (positions st) (target e)) origin)) rootX
                       then "left" else "right")%string).
Proof.
  unfold horizontalLayout.
  destruct (horizontalRoot nodes edges) as [root|] eqn:Eroot.
  2:{ intro H. injection H as <- <-. intros e src tgt _ Hsrc.
      destruct nodes as [|n0 nodes'].
      - discriminate.
      - unfold horizontalRoot in Eroot.
        destruct (filter _ (n0 :: nodes')); discriminate. }
  destruct (horizontalPlacement fuel nodes edges root) as [st|] eqn:Est; cbn [bind];
    [|discriminate].
  intro H. injection H as <- <-.
  intros e src tgt Hin Hsrc Htgt.
  apply in_map_iff in Hin. destruct Hin as [e0 [He0 Hin0]].
  pose proof (horizontalPlacement_handlesWithin _ _ _ _ _ Est) as Hst.
  set (newNodes := map (newNode_h (nodeMapOf nodes) st) nodes) in *.
  assert (Hsame : source e = source e0 /\ target e = target e0).
  { subst e. unfold newEdge_h.
    destruct (find_node newNodes (source e0)), (find_node newNodes (target e0));
      split; reflexivity. }
  destruct Hsame as [Hs Ht]. rewrite Hs in Hsrc. rewrite Ht in Htgt.
  assert (Hanch : forall n, In n newNodes ->
            exists h, horizontalHandles h /\ targetPosition n = Some (h_target h)
                      /\ sourcePosition n = Some (h_source h)).
  { intros n Hn. apply in_map_iff in Hn. destruct Hn as [n0 [<- _]].
    apply newNode_h_anchors. exact Hst. }
  destruct (Hanch src (proj1 (find_node_id _ _ _ Hsrc))) as [hs [Hhs [_ Hsp]]].
  destruct (Hanch tgt (proj1 (find_node_id _ _ _ Htgt))) as [ht [Hht [Htp _]]].
  assert (He : e = newEdge_h root st newNodes e0) by (symmetry; exact He0).
  unfold newEdge_h in He. rewrite Hsrc, Htgt in He.
  split.
  - rewrite He. cbn [targetHandle rehandle]. rewrite Htp.
    apply horizontal_target_name. exact Hht.
  - exists root, st. split; [reflexivity|]. split; [exact Est|]. split.
    + intro Hne. rewrite He. cbn [sourceHandle rehandle].
      destruct (String.eqb (id src) (id root)) eqn:E;
        [apply String.eqb_eq in E; contradiction|].
      rewrite Hsp. apply horizontal_source_name. exact Hhs.
    + intro Heq. rewrite He at 1. cbn [sourceHandle rehandle].
      rewrite Heq, String.eqb_refl. rewrite Ht. reflexivity.
Qed.

Lemma horizontalLayout_edge_handles_witness :
  exists outN outE e src tgt,
    horizontalLayout 5 twoNodes oneEdge = Some (outN, outE)
    /\ In e outE
    /\ find_node outN (source e) = Some src
    /\ find_node outN (target e) = Some tgt
    /\ targetHandle e = handleName (targetPosition tgt).
Proof.
  do 5 eexists.
  split; [vm_compute; reflexivity|].
  split; [left; reflexivity|].
  split; [vm_compute; reflexivity|].
  split; [vm_compute; reflexivity|].
  eapply (proj1 (horizontalLayout_edge_handles 5 twoNodes oneEdge _ _ _ _ _ _ _ _ _)).
  Unshelve.
  all: try (vm_compute; reflexivity).
  left; reflexivity.
Defined.

(** C4, as stated, fails at the root: its outgoing anchor is the right side
    while the edge to a child placed on the left leaves from "left". *)
Lemma root_handle_counterexample :
  exists outN outE e src,
    horizontalLayout 5 twoNodes oneEdge = Some (outN, outE)
    /\ In e outE
    /\ find_node outN (source e) = Some src
    /\ sourceHandle e <> handleName (sourcePosition src).
Proof.
  do 4 eexists.
  split; [vm_compute; reflexivity|].
  split; [left; reflexivity|].
  split; [vm_compute; reflexivity|].
  vm_compute. discriminate.
Qed.

(** ** Orphans *)

Lemma placeOrphans_cons m nodes st :
  placeOrphans (m :: nodes) st
  = if shas (positions st) (id m) then placeOrphans nodes st
    else placeOrphans nodes
           {| positions := sset (positions st) (id m) {| px := rootX + 500; py := rootY |};
              handlePositions := sset (handlePositions st) (id m) defaultHandles |}.
Proof.
  unfold placeOrphans. cbn [fold_left].
  destruct (shas (positions st) (id m)); reflexivity.
Qed.

Lemma placeOrphans_keeps nodes : forall st k,
  shas (positions st) k = true ->
  sget (positions (placeOrphans nodes st)) k = sget (positions st) k
  /\ sget (handlePositions (placeOrphans nodes st)) k = sget (handlePositions st) k.
Proof.
  induction nodes as [|m nodes IH]; intros st k Hk.
  - split; reflexivity.
  - rewrite placeOrphans_cons.
    destruct (shas (positions st) (id m)) eqn:Em; [apply IH; exact Hk|].
    assert (Hne : id m <> k) by (intro Heq; subst; congruence).
    match goal with |- context [placeOrphans nodes ?s] => specialize (IH s k) end.
    cbn [positions handlePositions] in IH.
    rewrite shas_sset, Hk, orb_true_r in IH. destruct (IH eq_refl) as [H1 H2].
    rewrite H1, H2. rewrite !sget_sset_other by exact Hne. split; reflexivity.
Qed.

Lemma placeOrphans_fallback nodes : forall st n,
  In n nodes -> shas (positions st) (id n) = false ->
  sget (positions (placeOrphans nodes st)) (id n) = Some {| px := rootX + 500; py := rootY |}
  /\ sget (handlePositions (placeOrphans nodes st)) (id n) = Some defaultHandles.
Proof.
  induction nodes as [|m nodes IH]; intros st n Hin Hn; [destruct Hin|].
  rewrite placeOrphans_cons.
  destruct (shas (positions st) (id m)) eqn:Em.
  - destruct Hin as [->|Hin]; [congruence|]. apply IH; assumption.
  - destruct (String.eqb (id m) (id n)) eqn:E.
    + apply String.eqb_eq in E.
      match goal with |- context [placeOrphans nodes ?s] =>
        destruct (placeOrphans_keeps nodes s (id n)) as [H1 H2] end.
      { cbn [positions]. rewrite shas_sset, E, String.eqb_refl. reflexivity. }
      rewrite H1, H2. cbn [positions handlePositions]. rewrite E, !sget_sset_same.
      split; reflexivity.
    + assert (Hne : id m <> id n) by (intro Heq; rewrite Heq, String.eqb_refl in E; discriminate).
      destruct Hin as [->|Hin]; [contradiction|].
      apply IH; [exact Hin|]. cbn [positions]. rewrite shas_sset, E, Hn. reflexivity.
Qed.

Lemma orphanPass_cons m l st off :
  placeOrphans_radial (m :: l) st off
  = if set_has (r_visited st) (id m) then placeOrphans_radial l st off
    else placeOrphans_radial l
           {| r_positions := sset (r_positions st) (id m) {| px := off + 600; py := 600 |};
              r_handles := sset (r_handles st) (id m) defaultHandles;
              r_visited := r_visited st |} (off + 400).
Proof.
  unfold placeOrphans_radial. cbn [fold_left].
  destruct (set_has (r_visited st) (id m)); reflexivity.
Qed.

Lemma orphanPass_visited l : forall st off,
  r_visited (fst (placeOrphans_radial l st off)) = r_visited st.
Proof.
  induction l as [|m l IH]; intros st off; [reflexivity|].
  rewrite orphanPass_cons. destruct (set_has (r_visited st) (id m)); [apply IH|].
  rewrite IH. reflexivity.
Qed.

Lemma orphanPass_other l : forall st off k,
  ~ In k (map id l) ->
  sget (r_positions (fst (placeOrphans_radial l st off))) k = sget (r_positions st) k
  /\ sget (r_handles (fst (placeOrphans_radial l st off))) k = sget (r_handles st) k.
Proof.
  induction l as [|m l IH]; intros st off k Hk; [split; reflexivity|].
  rewrite orphanPass_cons. cbn [map In] in Hk.
  assert (Hne : id m <> k) by tauto. assert (Hk' : ~ In k (map id l)) by tauto.
  destruct (set_has (r_visited st) (id m)); [apply IH; exact Hk'|].
  destruct (IH {| r_positions := sset (r_positions st) (id m) {| px := off + 600; py := 600 |};
                  r_handles := sset (r_handles st) (id m) defaultHandles;
                  r_visited := r_visited st |} (off + 400) k Hk') as [H1 H2].
  rewrite H1, H2. cbn [r_positions r_handles].
  rewrite !sget_sset_other by exact Hne. split; reflexivity.
Qed.

Lemma orphanPass_offset l : forall st off i n,
  NoDup (map id l) ->
  nth_error l i = Some n ->
  set_has (r_visited st) (id n) = false ->
  exists x,
    x == off + 400 * of_nat (unvisitedCount (r_visited st) (firstn i l))
    /\ sget (r_positions (fst (placeOrphans_radial l st off))) (id n)
       = Some {| px := x + 600; py := 600 |}
    /\ sget (r_handles (fst (placeOrphans_radial l st off))) (id n) = Some defaultHandles.
Proof.
  induction l as [|m l IH]; intros st off i n Hnd Hnth Hn; [destruct i; discriminate|].
  inversion Hnd as [|? ? Hm Hnd']; subst.
  rewrite orphanPass_cons. destruct i as [|i]; cbn [nth_error] in Hnth.
  - injection Hnth as ->. rewrite Hn. exists off. split.
    + cbn. unfold of_nat. cbn. ring.
    + match goal with |- context [placeOrphans_radial l ?s ?o] =>
        destruct (orphanPass_other l s o (id n) Hm) as [H1 H2] end.
      rewrite H1, H2. cbn [r_positions r_handles]. rewrite !sget_sset_same.
      split; reflexivity.
  - cbn [firstn]. unfold unvisitedCount. cbn [filter].
    destruct (set_has (r_visited st) (id m)) eqn:Em; cbn [negb].
    + apply IH; assumption.
    + match goal with |- context [placeOrphans_radial l ?s ?o] =>
        destruct (IH s o i n Hnd' Hnth Hn) as [x [Hx [H1 H2]]] end.
      exists x. split; [|split; assumption].
      rewrite Hx. cbn [r_visited]. unfold unvisitedCount.
      cbn [length]. unfold of_nat. rewrite Nat2Z.inj_succ, <- Z.add_1_r, inject_Z_plus.
      match goal with
      | |- context [inject_Z (Z.of_nat ?t)] => generalize (inject_Z (Z.of_nat t))
      end.
      intro c. change (inject_Z 1) with 1. ring.
Qed.

(** C7: a node the traversal did not reach gets a fixed fallback.  In the
    horizontal pass its centre is (1300, 500), whatever else was placed; in
    the radial pass the k-th such node, in input order, is centred at
    (offset + 600 + 400 k, 600), where [offset] is the running offset left
    by the root traversals.  Both get the default anchors. *)
Theorem orphan_fallback :
  (forall fuel nodes edges root st n,
     horizontalRoot nodes edges = Some root ->
     horizontalTraversal fuel nodes edges root = Some st ->
     In n nodes -> shas (positions st) (id n) = false ->
     exists outN outE,
       horizontalLayout fuel nodes edges = Some (outN, outE)
       /\ forall o, In o outN -> id o = id n ->
            position o
            = {| px := rootX + 500 - width (getNodeSize (nodeMapOf nodes) (id n)) / 2;
                 py := rootY - height (getNodeSize (nodeMapOf nodes) (id n)) / 2 |}
            /\ targetPosition o = Some Position.Left
            /\ sourcePosition o = Some Position.Right)
  /\ (forall M fuel nodes edges st off i n,
        radialTraversal M fuel nodes edges = Some (st, off) ->
        NoDup (map id nodes) ->
        nth_error nodes i = Some n ->
        set_has (r_visited st) (id n) = false ->
        exists outN o x,
          radialLayout M fuel nodes edges = Some outN
          /\ nth_error outN i = Some o
          /\ x == off + 400 * of_nat (unvisitedCount (r_visited st) (firstn i nodes))
          /\ position o
             = {| px := x + 600 - nullish (measured_width n) nodeWidth / 2;
                  py := 600 - nullish (measured_height n) nodeHeight / 2 |}
          /\ targetPosition o = Some Position.Left
          /\ sourcePosition o = Some Position.Right).
Proof.
  split.
  - intros fuel nodes edges root st n Hroot Htrav Hin Hn.
    unfold horizontalLayout, horizontalPlacement. rewrite Hroot, Htrav. cbn [bind].
    eexists. eexists. split; [reflexivity|].
    intros o Ho Hid. apply in_map_iff in Ho. destruct Ho as [m [<- Hm]].
    cbn [id newNode_h place] in Hid.
    destruct (placeOrphans_fallback nodes st n Hin Hn) as [H1 H2].
    unfold newNode_h. rewrite Hid, H1, H2. cbn. repeat split.
  - intros M fuel nodes edges st off i n Htrav Hnd Hnth Hn.
    unfold radialLayout. destruct nodes as [|n0 nodes']; [destruct i; discriminate|].
    rewrite Htrav. cbn [bind].
    destruct (orphanPass_offset (n0 :: nodes') st off i n Hnd Hnth Hn) as [x [Hx [H1 H2]]].
    eexists. exists (newNode_r (fst (placeOrphans_radial (n0 :: nodes') st off)) n). exists x.
    split; [reflexivity|].
    split; [apply map_nth_error; exact Hnth|].
    split; [exact Hx|].
    unfold newNode_r. rewrite H1, H2. cbn. repeat split.
Qed.

Lemma orphan_fallback_witness :
  exists outN outE,
    horizontalLayout 5 orphanNodes orphanEdges = Some (outN, outE)
    /\ forall o, In o outN -> id o = id (plainNode "o" 0 0) ->
         position o
         = {| px := rootX + 500
                    - width (getNodeSize (nodeMapOf orphanNodes) (id (plainNode "o" 0 0))) / 2;
              py := rootY
                    - height (getNodeSize (nodeMapOf orphanNodes) (id (plainNode "o" 0 0))) / 2 |}
         /\ targetPosition o = Some Position.Left
         /\ sourcePosition o = Some Position.Right.
Proof.
  eapply (proj1 orphan_fallback 5%nat orphanNodes orphanEdges (plainNode "r" 0 0) _
            (plainNode "o" 0 0)).
  - reflexivity.
  - vm_compute. reflexivity.
  - right. right. left. reflexivity.
  - vm_compute. reflexivity.
Defined.

(** C7, as stated, fails: the fallback box of the unreached node "o" meets
    the bounding box of the two nodes the traversal placed. *)
Lemma orphan_counterexample :
  exists st outN outE r a o,
    horizontalTraversal 5 orphanNodes orphanEdges (plainNode "r" 0 0) = Some st
    /\ horizontalLayout 5 orphanNodes orphanEdges = Some (outN, outE)
    /\ outN = [r; a; o]
    /\ shas (positions st) (id r) = true
    /\ shas (positions st) (id a) = true
    /\ shas (positions st) (id o) = false
    /\ outsideOf (boxOf o (getNodeSize (nodeMapOf orphanNodes) (id o)))
                 (joinBounds (boxOf r (getNodeSize (nodeMapOf orphanNodes) (id r)))
                             (boxOf a (getNodeSize (nodeMapOf orphanNodes) (id a))))
       = false.
Proof.
  do 6 eexists.
  split; [vm_compute; reflexivity|].
  split; [vm_compute; reflexivity|].
  split; [reflexivity|].
  repeat split; vm_compute; reflexivity.
Qed.

(** ** Radial rings *)

Lemma maxChildHalfDiagonal_fold nodes (l : list string) : forall m0,
  m0 <= fold_left
          (fun m childId =>
             let childHalfDiagonal := halfDiagonal (getNodeSize_radial nodes childId) in
             if Qgtb childHalfDiagonal m then childHalfDiagonal else m) l m0
  /\ forall c, In c l ->
       halfDiagonal (getNodeSize_radial nodes c)
       <= fold_left
            (fun m childId =>
               let childHalfDiagonal := halfDiagonal (getNodeSize_radial nodes childId) in
               if Qgtb childHalfDiagonal m then childHalfDiagonal else m) l m0.
Proof.
  induction l as [|k l IH]; intro m0; cbn [fold_left].
  - split; [apply Qle_refl|intros c []].
  - cbv zeta.
    destruct (Qgtb (halfDiagonal (getNodeSize_radial nodes k)) m0) eqn:E.
    + apply Qgtb_gt in E. destruct (IH (halfDiagonal (getNodeSize_radial nodes k))) as [H1 H2].
      split.
      * eapply Qle_trans; [apply Qlt_le_weak; exact E|exact H1].
      * intros c [<-|Hc]; [exact H1|apply H2; exact Hc].
    + assert (Hle : halfDiagonal (getNodeSize_radial nodes k) <= m0).
      { unfold Qgtb in E. rewrite negb_false_iff in E. apply Qle_bool_iff in E. exact E. }
      destruct (IH m0) as [H1 H2]. split; [exact H1|].
      intros c [<-|Hc]; [eapply Qle_trans; [exact Hle|exact H1]|apply H2; exact Hc].
Qed.

Lemma ringRadius_bound nodes children levels parentId childId :
  In childId (kids_of children parentId) ->
  separation nodes parentId childId <= ringRadius nodes children levels parentId.
Proof.
  intro Hin. unfold ringRadius, separation. cbv zeta.
  assert (Hmax : halfDiagonal (getNodeSize_radial nodes childId)
                 <= maxChildHalfDiagonal nodes (kids_of children parentId))
    by (apply (proj2 (maxChildHalfDiagonal_fold nodes (kids_of children parentId) 0));
        exact Hin).
  generalize dependent (maxChildHalfDiagonal nodes (kids_of children parentId)).
  intros mx Hmax.
  generalize (halfDiagonal (getNodeSize_radial nodes parentId)).
  generalize dependent (halfDiagonal (getNodeSize_radial nodes childId)).
  intros hc Hmax hp.
  generalize (baseRadius + nullish (sget levels parentId) 0 * radiusIncrement).
  intro r0.
  destruct (Qltb r0 (hp + mx + 80)) eqn:E.
  - lra.
  - apply Qltb_ge in E. lra.
Qed.

(** C5, as stated, fails: in this tree the shift pass moves "P" sideways
    off the root and towards its own child "C", which stays where it was,
    and the two centres end up closer than the required separation. *)
Lemma radial_separation_counterexample :
  exists outN p c,
    treeShaped ringNodes ringEdges = true
    /\ In (plainEdge "P" "C") ringEdges
    /\ radialLayout MathQ.lib 10 ringNodes ringEdges = Some outN
    /\ find_node outN "P" = Some p
    /\ find_node outN "C" = Some c
    /\ 0 <= separation ringNodes "P" "C"
    /\ distance2 (centerOf p) (centerOf c)
       < separation ringNodes "P" "C" * separation ringNodes "P" "C".
Proof.
  do 3 eexists.
  split; [vm_compute; reflexivity|].
  split; [right; right; right; left; reflexivity|].
  split; [vm_compute; reflexivity|].
  split; [vm_compute; reflexivity|].
  split; [vm_compute; reflexivity|].
  split; vm_compute; [discriminate|reflexivity].
Qed.

(** ** The recursion budget does not influence a result *)

Lemma mapM_mono {A B : Type} (f g : A -> option B) (l : list A) :
  (forall a r, f a = Some r -> g a = Some r) ->
  forall r, mapM f l = Some r -> mapM g l = Some r.
Proof.
  intro Hfg. induction l as [|a l IH]; intros r H; cbn in *; [exact H|].
  destruct (f a) as [b|] eqn:Ea; cbn [bind] in H; [|discriminate].
  rewrite (Hfg a b Ea). cbn [bind].
  destruct (mapM f l) as [bs|]; cbn [bind] in H; [|discriminate].
  rewrite (IH bs eq_refl). exact H.
Qed.

Lemma foldM_mono {A St : Type} (f g : St -> A -> option St) (l : list A) :
  (forall s a r, f s a = Some r -> g s a = Some r) ->
  forall s r, foldM f l s = Some r -> foldM g l s = Some r.
Proof.
  intro Hfg. induction l as [|a l IH]; intros s r H; cbn in *; [exact H|].
  destruct (f s a) as [s1|] eqn:Ea; cbn [bind] in H; [|discriminate].
  rewrite (Hfg s a s1 Ea). cbn [bind]. apply IH. exact H.
Qed.

Lemma foldMi_from_mono {A St : Type} (f g : St -> A -> nat -> option St) (l : list A) :
  (forall s a i r, f s a i = Some r -> g s a i = Some r) ->
  forall i s r, foldMi_from f i l s = Some r -> foldMi_from g i l s = Some r.
Proof.
  intro Hfg. induction l as [|a l IH]; intros i s r H; cbn in *; [exact H|].
  destruct (f s a i) as [s1|] eqn:Ea; cbn [bind] in H; [|discriminate].
  rewrite (Hfg s a i s1 Ea). cbn [bind]. apply IH. exact H.
Qed.

Lemma bind_Some {A B : Type} (a : option A) (k : A -> option B) (r : B) :
  bind a k = Some r -> exists v, a = Some v /\ k v = Some r.
Proof. destruct a as [v|]; cbn; [intro H; exists v; split; auto|discriminate]. Qed.

Section BudgetHorizontal.
Variable children : SMap (list string).
Variable nodeMap : SMap Node.

Lemma calcSubtreeHeight_mono (fuel : nat) :
  forall fuel' nodeId r,
    (fuel <= fuel')%nat ->
    calcSubtreeHeight children nodeMap fuel nodeId = Some r ->
    calcSubtreeHeight children nodeMap fuel' nodeId = Some r.
Proof.
  induction fuel as [|fuel IH]; intros fuel' nodeId r Hle H; [discriminate|].
  destruct fuel' as [|fuel']; [lia|]. cbn [calcSubtreeHeight] in *.
  destruct (kids_of children nodeId) as [|k kids]; [exact H|].
  apply bind_Some in H. destruct H as [total [Hf Hr]].
  erewrite foldMi_from_mono; [exact Hr| |exact Hf].
  intros s a i r0 Hstep. apply bind_Some in Hstep. destruct Hstep as [h [Hh Hs]].
  rewrite (IH fuel' a h ltac:(lia) Hh). exact Hs.
Qed.

Lemma initialLayout_mono (fuel : nat) :
  forall fuel' st nodeId x y side r,
    (fuel <= fuel')%nat ->
    initialLayout children nodeMap fuel st nodeId x y side = Some r ->
    initialLayout children nodeMap fuel' st nodeId x y side = Some r.
Proof.
  induction fuel as [|fuel IH]; intros fuel' st nodeId x y side r Hle H; [discriminate|].
  destruct fuel' as [|fuel']; [lia|]. cbn [initialLayout] in *.
  destruct (kids_of children nodeId) as [|k kids]; [exact H|].
  apply bind_Some in H. destruct H as [hs [Hm H]].
  apply bind_Some in H. destruct H as [acc [Hf Hr]].
  erewrite mapM_mono; [| |exact Hm].
  2:{ intros a r0. apply calcSubtreeHeight_mono. lia. }
  cbn [bind]. erewrite foldMi_from_mono; [exact Hr| |exact Hf].
  intros [s cy] a i r0 Hstep. apply bind_Some in Hstep. destruct Hstep as [r' [Hl Hs]].
  rewrite (IH fuel' _ _ _ _ _ r' ltac:(lia) Hl). exact Hs.
Qed.

Lemma moveSubtreeHorizontally_mono (fuel : nat) :
  forall fuel' ps nodeId dx r,
    (fuel <= fuel')%nat ->
    moveSubtreeHorizontally children fuel ps nodeId dx = Some r ->
    moveSubtreeHorizontally children fuel' ps nodeId dx = Some r.
Proof.
  induction fuel as [|fuel IH]; intros fuel' ps nodeId dx r Hle H; [discriminate|].
  destruct fuel' as [|fuel']; [lia|]. cbn [moveSubtreeHorizontally] in *.
  eapply foldM_mono; [|exact H].
  intros s a r0. apply IH. lia.
Qed.

Lemma nudgeLoop_mono (iters : nat) :
  forall fuel fuel' ps parentId childId r,
    (fuel <= fuel')%nat ->
    nudgeLoop children nodeMap iters fuel ps parentId childId = Some r ->
    nudgeLoop children nodeMap iters fuel' ps parentId childId = Some r.
Proof.
  induction iters as [|iters IH]; intros fuel fuel' ps parentId childId r Hle H;
    cbn [nudgeLoop] in *; [exact H|].
  destruct (getNodeBounds nodeMap ps parentId) as [pb|]; [|exact H].
  destruct (getNodeBounds nodeMap ps childId) as [cb|]; [|exact H].
  destruct (boundsOverlap pb cb 40); [|exact H].
  apply bind_Some in H. destruct H as [ps' [Hm Hr]].
  rewrite (moveSubtreeHorizontally_mono fuel fuel' _ _ _ ps' Hle Hm). cbn [bind].
  eapply IH; eassumption.
Qed.

Lemma layoutSide_mono fuel fuel' st kids side r :
  (fuel <= fuel')%nat ->
  layoutSide children nodeMap fuel st kids side = Some r ->
  layoutSide children nodeMap fuel' st kids side = Some r.
Proof.
  intros Hle H. unfold layoutSide in *. destruct kids as [|k kids]; [exact H|].
  apply bind_Some in H. destruct H as [hs [Hm H]].
  apply bind_Some in H. destruct H as [acc [Hf Hr]].
  erewrite mapM_mono; [| |exact Hm].
  2:{ intros a r0. apply calcSubtreeHeight_mono. exact Hle. }
  cbn [bind]. erewrite foldMi_from_mono; [exact Hr| |exact Hf].
  intros [s cy] a i r0 Hstep. apply bind_Some in Hstep. destruct Hstep as [r' [Hl Hs]].
  rewrite (initialLayout_mono fuel fuel' _ _ _ _ _ r' Hle Hl). exact Hs.
Qed.
End BudgetHorizontal.

Lemma horizontalTraversal_mono fuel fuel' nodes edges root st :
  (fuel <= fuel')%nat ->
  horizontalTraversal fuel nodes edges root = Some st ->
  horizontalTraversal fuel' nodes edges root = Some st.
Proof.
  intros Hle. unfold horizontalTraversal. cbv zeta.
  destruct (splitRootChildren nodes edges root
              (kids_of (t_children (buildTree nodes edges)) (id root))) as [lefts rights].
  intro H.
  apply bind_Some in H. destruct H as [st1 [H1 H]].
  apply bind_Some in H. destruct H as [st2 [H2 H]].
  apply bind_Some in H. destruct H as [ps5 [H5 H]].
  rewrite (layoutSide_mono _ _ fuel fuel' _ _ _ st1 Hle H1). cbn [bind].
  rewrite (layoutSide_mono _ _ fuel fuel' _ _ _ st2 Hle H2). cbn [bind].
  erewrite foldM_mono; [exact H| |exact H5].
  intros s a r0. apply nudgeLoop_mono. exact Hle.
Qed.

Lemma horizontalLayout_mono fuel fuel' nodes edges r :
  (fuel <= fuel')%nat ->
  horizontalLayout fuel nodes edges = Some r ->
  horizontalLayout fuel' nodes edges = Some r.
Proof.
  intros Hle. unfold horizontalLayout, horizontalPlacement.
  destruct (horizontalRoot nodes edges) as [root|]; [|auto].
  intro H. apply bind_Some in H. destruct H as [st [H1 H]].
  apply bind_Some in H1. destruct H1 as [st0 [H0 H1]].
  rewrite (horizontalTraversal_mono fuel fuel' _ _ _ st0 Hle H0). cbn [bind].
  injection H1 as <-. exact H.
Qed.

Section BudgetRadial.
Variable M : MathLib.
Variable nodes : list Node.
Variable children : SMap (list string).

Lemma calculateLevels_mono (fuel : nat) :
  forall fuel' st nodeId lvl r,
    (fuel <= fuel')%nat ->
    calculateLevels children fuel st nodeId lvl = Some r ->
    calculateLevels children fuel' st nodeId lvl = Some r.
Proof.
  induction fuel as [|fuel IH]; intros fuel' st nodeId lvl r Hle H.
  - cbn [calculateLevels] in H. destruct (set_has (fst st) nodeId) eqn:E; [|discriminate].
    destruct fuel'; cbn [calculateLevels]; rewrite E; exact H.
  - destruct fuel' as [|fuel']; [lia|]. cbn [calculateLevels] in *.
    destruct (set_has (fst st) nodeId); [exact H|].
    eapply foldM_mono; [|exact H].
    intros s a r0. apply IH. lia.
Qed.

Lemma positionChildren_mono (fuel : nat) :
  forall fuel' levels st parentId a0 a1 r,
    (fuel <= fuel')%nat ->
    positionChildren M nodes children fuel levels st parentId a0 a1 = Some r ->
    positionChildren M nodes children fuel' levels st parentId a0 a1 = Some r.
Proof.
  induction fuel as [|fuel IH]; intros fuel' levels st parentId a0 a1 r Hle H;
    [discriminate|].
  destruct fuel' as [|fuel']; [lia|]. cbn [positionChildren] in *.
  destruct (kids_of children parentId) as [|k kids]; [exact H|].
  eapply foldMi_from_mono; [|exact H].
  intros [[ps hs] angles] a i r0 Hstep.
  apply bind_Some in Hstep. destruct Hstep as [r' [Hp Hs]].
  erewrite IH; [exact Hs| |exact Hp]. lia.
Qed.

Lemma layoutTree_mono fuel fuel' st rootId x y r :
  (fuel <= fuel')%nat ->
  layoutTree M nodes children fuel st rootId x y = Some r ->
  layoutTree M nodes children fuel' st rootId x y = Some r.
Proof.
  intros Hle H. unfold layoutTree in *.
  apply bind_Some in H. destruct H as [[visited levels] [Hc H]].
  apply bind_Some in H. destruct H as [[[ps hs] angles] [Hp H]].
  rewrite (calculateLevels_mono fuel fuel' _ _ _ _ Hle Hc). cbn [bind].
  rewrite (positionChildren_mono fuel fuel' _ _ _ _ _ _ Hle Hp). cbn [bind].
  exact H.
Qed.

Lemma layoutRoots_mono fuel fuel' roots r :
  (fuel <= fuel')%nat ->
  layoutRoots M nodes children fuel roots = Some r ->
  layoutRoots M nodes children fuel' roots = Some r.
Proof.
  intros Hle. unfold layoutRoots. apply foldM_mono.
  intros s a r0 Hstep. apply bind_Some in Hstep. destruct Hstep as [st' [Hl Hs]].
  rewrite (layoutTree_mono fuel fuel' _ _ _ _ _ Hle Hl). exact Hs.
Qed.
End BudgetRadial.

Lemma radialLayout_mono M fuel fuel' nodes edges r :
  (fuel <= fuel')%nat ->
  radialLayout M fuel nodes edges = Some r ->
  radialLayout M fuel' nodes edges = Some r.
Proof.
  intros Hle. unfold radialLayout, radialTraversal.
  destruct nodes as [|n0 nodes']; [auto|].
  intro H. apply bind_Some in H. destruct H as [[st off] [Ht H]].
  apply bind_Some in Ht. destruct Ht as [[st0 off0] [Hl Ht]].
  rewrite (layoutRoots_mono M _ _ fuel fuel' _ _ Hle Hl). cbn [bind].
  injection Ht as <- <-. exact H.
Qed.

Lemma getLayoutedElements_mono M dagre fuel fuel' nodes edges direction r :
  (fuel <= fuel')%nat ->
  getLayoutedElements M dagre fuel nodes edges direction = Some r ->
  getLayoutedElements M dagre fuel' nodes edges direction = Some r.
Proof.
  intros Hle. unfold getLayoutedElements. destruct direction.
  - auto.
  - apply horizontalLayout_mono. exact Hle.
  - intro H. apply bind_Some in H. destruct H as [ns [Hr H]].
    rewrite (radialLayout_mono M fuel fuel' _ _ _ Hle Hr). exact H.
Qed.

(** *** The result depends on the platform only through what the call asks *)

Lemma foldM_ext {A St : Type} (f g : St -> A -> option St) (l : list A) :
  (forall s a, f s a = g s a) -> forall s, foldM f l s = foldM g l s.
Proof.
  intro H. induction l as [|a l IH]; intro s; cbn [foldM]; [reflexivity|].
  rewrite H. destruct (g s a); cbn [bind]; [apply IH|reflexivity].
Qed.

Lemma foldMi_from_ext {A St : Type} (f g : St -> A -> nat -> option St) (l : list A) :
  (forall s a i, f s a i = g s a i) -> forall i s, foldMi_from f i l s = foldMi_from g i l s.
Proof.
  intro H. induction l as [|a l IH]; intros i s; cbn [foldMi_from]; [reflexivity|].
  rewrite H. destruct (g s a i); cbn [bind]; [apply IH|reflexivity].
Qed.

Lemma fold_left_ext {A St : Type} (f g : St -> A -> St) (l : list A) :
  (forall s a, f s a = g s a) -> forall s, fold_left f l s = fold_left g l s.
Proof.
  intro H. induction l as [|a l IH]; intro s; cbn [fold_left]; [reflexivity|].
  rewrite H. apply IH.
Qed.

Section SameMath.
Variables M1 M2 : MathLib.
Hypothesis Hsame : sameMath M1 M2.
Variable nodes : list Node.
Variable children : SMap (list string).

Lemma getHandlePositionFromAngle_ext (angle : Q) :
  getHandlePositionFromAngle M1 angle = getHandlePositionFromAngle M2 angle.
Proof.
  destruct Hsame as [Hpi _]. unfold getHandlePositionFromAngle. rewrite Hpi. reflexivity.
Qed.

Lemma ringPoint_ext (p : Point) (r angle : Q) : ringPoint M1 p r angle = ringPoint M2 p r angle.
Proof.
  destruct Hsame as [_ [Hcos [Hsin _]]]. unfold ringPoint. rewrite Hcos, Hsin. reflexivity.
Qed.

Lemma positionChildren_ext (fuel : nat) : forall levels st p a0 a1,
  positionChildren M1 nodes children fuel levels st p a0 a1
  = positionChildren M2 nodes children fuel levels st p a0 a1.
Proof.
  induction fuel as [|fuel IH]; intros levels st p a0 a1; [reflexivity|].
  cbn [positionChildren]. destruct (kids_of children p) as [|k kids]; [reflexivity|].
  cbv zeta. apply foldMi_from_ext. intros [[ps hs] angles] c i.
  rewrite ringPoint_ext, getHandlePositionFromAngle_ext, IH.
  destruct Hsame as [_ [_ [_ Hatan]]]. rewrite Hatan. reflexivity.
Qed.

Lemma layoutTree_ext (fuel : nat) (st : RadialState) (rootId : string) (x y : Q) :
  layoutTree M1 nodes children fuel st rootId x y
  = layoutTree M2 nodes children fuel st rootId x y.
Proof.
  unfold layoutTree.
  destruct (calculateLevels children fuel (r_visited st, []) rootId 0) as [[visited levels]|];
    [|reflexivity].
  cbn [bind]. rewrite positionChildren_ext.
  destruct Hsame as [Hpi [Hcos [Hsin Hatan]]]. rewrite Hpi.
  destruct (positionChildren M2 nodes children fuel levels _ rootId 0 (2 * PI M2))
    as [[[ps hs] angles]|]; [|reflexivity].
  cbn [bind]. destruct angles as [|a angles]; [reflexivity|].
  rewrite getHandlePositionFromAngle_ext, Hatan.
  rewrite (fold_left_ext (fun s angle => s + cos M1 angle) (fun s angle => s + cos M2 angle))
    by (intros; rewrite Hcos; reflexivity).
  rewrite (fold_left_ext (fun s angle => s + sin M1 angle) (fun s angle => s + sin M2 angle))
    by (intros; rewrite Hsin; reflexivity).
  reflexivity.
Qed.

Lemma layoutRoots_ext (fuel : nat) (roots : list Node) :
  layoutRoots M1 nodes children fuel roots = layoutRoots M2 nodes children fuel roots.
Proof.
  unfold layoutRoots. apply foldM_ext. intros acc root. rewrite layoutTree_ext. reflexivity.
Qed.
End SameMath.

Lemma radialLayout_ext (M1 M2 : MathLib) (fuel : nat) (nodes : list Node) (edges : list Edge) :
  sameMath M1 M2 -> radialLayout M1 fuel nodes edges = radialLayout M2 fuel nodes edges.
Proof.
  intro Hsame. unfold radialLayout, radialTraversal. destruct nodes as [|n0 nodes']; [reflexivity|].
  rewrite (layoutRoots_ext M1 M2 Hsame). reflexivity.
Qed.

Lemma rankLayout_ext (dagre1 dagre2 : DagreLayout) (nodes : list Node) (edges : list Edge)
  (direction : LayoutDirection) :
  dagre1 (rankGraph nodes edges direction) = dagre2 (rankGraph nodes edges direction) ->
  rankLayout dagre1 nodes edges direction = rankLayout dagre2 nodes edges direction.
Proof.
  intro H. unfold rankLayout.
  change (dagre1 _) with (dagre1 (rankGraph nodes edges direction)).
  rewrite H. reflexivity.
Qed.



(** * Further properties of the engine *)

(** ** Adjacency *)

Lemma children_init (nodes : list Node) (k : string) : forall (c0 : SMap (list string)),
  sget (fold_left (fun c n => sset c (id n) []) nodes c0) k
  = if set_has (map id nodes) k then Some [] else sget c0 k.
Proof.
  induction nodes as [|n nodes IH]; intro c0; cbn [fold_left map]; [reflexivity|].
  rewrite IH. unfold set_has. cbn [existsb].
  fold (set_has (map id nodes) k).
  destruct (set_has (map id nodes) k); [rewrite orb_true_r; reflexivity|].
  rewrite orb_false_r. destruct (String.eqb k (id n)) eqn:E.
  - apply String.eqb_eq in E. subst. apply sget_sset_same.
  - apply sget_sset_other. intro Heq. subst. rewrite String.eqb_refl in E. discriminate.
Qed.

Lemma children_edges (edges : list Edge) (k : string) : forall (t : Tree),
  sget (t_children
          (fold_left
             (fun t e =>
                let children :=
                  match sget (t_children t) (source e) with
                  | Some parentChildren =>
                      sset (t_children t) (source e) (parentChildren ++ [target e])
                  | None => t_children t
                  end in
                {| t_children := children;
                   t_parent := sset (t_parent t) (target e) (source e) |})
             edges t)) k
  = match sget (t_children t) k with
    | Some l => Some (l ++ map target (filter (fun e => String.eqb (source e) k) edges))
    | None => None
    end.
Proof.
  induction edges as [|e edges IH]; intro t; cbn [fold_left filter map].
  - destruct (sget (t_children t) k); [rewrite app_nil_r|]; reflexivity.
  - rewrite IH. cbn [t_children]. destruct (String.eqb (source e) k) eqn:E.
    + apply String.eqb_eq in E. subst k.
      destruct (sget (t_children t) (source e)) as [l|] eqn:El.
      * rewrite sget_sset_same. cbn [map]. rewrite <- app_assoc. reflexivity.
      * rewrite El. reflexivity.
    + assert (Hne : source e <> k)
        by (intro Heq; subst; rewrite String.eqb_refl in E; discriminate).
      destruct (sget (t_children t) (source e)) as [l|] eqn:El.
      * rewrite sget_sset_other by exact Hne. reflexivity.
      * reflexivity.
Qed.

(** X1: [buildTree] gives every node id the targets of the edges leaving
    it, in edge order, and gives no entry to an id that is not a node, even
    when edges leave it. *)
Theorem buildTree_children (nodes : list Node) (edges : list Edge) (k : string) :
  sget (t_children (buildTree nodes edges)) k
  = if set_has (map id nodes) k
    then Some (map target (filter (fun e => String.eqb (source e) k) edges))
    else None.
Proof.
  unfold buildTree. rewrite children_edges. cbn [t_children]. rewrite children_init.
  destruct (set_has (map id nodes) k); reflexivity.
Qed.

(** X2: the parent recorded for an id is the source of the last edge that
    targets it; an id no edge targets has no parent. *)
Theorem buildTree_parent_last_edge (nodes : list Node) (edges : list Edge) (k : string) :
  sget (t_parent (buildTree nodes edges)) k
  = option_map source (find (fun e => String.eqb (target e) k) (rev edges)).
Proof.
  unfold buildTree.
  generalize (fold_left (fun c n => sset c (id n) (@nil string)) nodes []).
  intro c0. induction edges as [|e edges IH] using rev_ind; [reflexivity|].
  rewrite fold_left_app, rev_app_distr. cbn [fold_left rev app find t_parent].
  destruct (String.eqb (target e) k) eqn:E.
  - apply String.eqb_eq in E. subst k. rewrite sget_sset_same. reflexivity.
  - rewrite sget_sset_other; [exact IH|].
    intro Heq. subst. rewrite String.eqb_refl in E. discriminate.
Qed.

(** X3: the horizontal and the rank-based pass take as root the first of
    the roots that [findRootNodes] returns. *)
Theorem horizontalRoot_first_root (nodes : list Node) (edges : list Edge) :
  horizontalRoot nodes edges = hd_error (findRootNodes nodes edges).
Proof.
  unfold horizontalRoot, findRootNodes.
  destruct (filter _ nodes); [destruct nodes|]; reflexivity.
Qed.

(** ** Boxes and anchors *)

(** X4: the overlap test does not depend on the order of the two boxes. *)
Theorem nodesOverlap_sym (pos1 : Point) (size1 : Size) (pos2 : Point) (size2 : Size)
  (pad : Q) :
  nodesOverlap pos1 size1 pos2 size2 pad = nodesOverlap pos2 size2 pos1 size1 pad.
Proof.
  unfold nodesOverlap.
  destruct (Qleb (px pos1 + width size1 + pad) (px pos2)),
    (Qleb (px pos2 + width size2 + pad) (px pos1)),
    (Qleb (py pos1 + height size1 + pad) (py pos2)),
    (Qleb (py pos2 + height size2 + pad) (py pos1)); reflexivity.
Qed.

Lemma getHandlePositionFromAngle_opposite_handles (M : MathLib) (angle : Q) :
  oppositeHandles (getHandlePositionFromAngle M angle).
Proof.
  unfold getHandlePositionFromAngle, oppositeHandles. cbv zeta.
  repeat match goal with
         | |- context [if ?b then _ else _] => destruct b
         end; reflexivity.
Qed.

(** X5: whatever the angle, and whatever [Math] computes, the handle pair
    chosen from an angle puts the incoming and the outgoing anchor on
    opposite sides. *)
Theorem getHandlePositionFromAngle_opposite (M : MathLib) (angle : Q) :
  oppositeHandles (getHandlePositionFromAngle M angle).
Proof.
  unfold oppositeHandles, getHandlePositionFromAngle. cbv zeta.
  destruct (Qgeb _ _ || Qltb _ _); [reflexivity|].
  destruct (Qgeb _ _ && Qltb _ _); [reflexivity|].
  destruct (Qgeb _ _ && Qltb _ _); reflexivity.
Qed.

(** ** Subtree height *)

(** X6: when the subtree height of a node is computed, it is at least the
    node's own height, and it is exactly that height for a node without
    children. *)
Theorem calcSubtreeHeight_own_height children nodeMap fuel nodeId h :
  calcSubtreeHeight children nodeMap fuel nodeId = Some h ->
  height (getNodeSize nodeMap nodeId) <= h
  /\ (kids_of children nodeId = [] -> h = height (getNodeSize nodeMap nodeId)).
Proof.
  destruct fuel as [|fuel]; [discriminate|]. cbn [calcSubtreeHeight].
  destruct (kids_of children nodeId) as [|k kids].
  - intro H. injection H as <-. split; [apply Qle_refl|reflexivity].
  - intro H. apply bind_Some in H. destruct H as [total [_ H]].
    injection H as <-. split; [apply Math_max_l|discriminate].
Qed.

Lemma calcSubtreeHeight_own_height_witness :
  height (getNodeSize (nodeMapOf twoNodes) "r") <= 80
  /\ (kids_of (t_children (buildTree twoNodes oneEdge)) "r" = [] ->
      80 = height (getNodeSize (nodeMapOf twoNodes) "r")).
Proof.
  apply (calcSubtreeHeight_own_height (t_children (buildTree twoNodes oneEdge))
           (nodeMapOf twoNodes) 3 "r" 80).
  vm_compute. reflexivity.
Defined.

(** ** Empty input *)

Lemma map_unchanged {A : Type} (f : A -> A) (l : list A) :
  (forall a, f a = a) -> map f l = l.
Proof. intro H. induction l as [|a l IH]; cbn; [reflexivity|]. rewrite H, IH. reflexivity. Qed.

(** X7: for an empty node list every direction returns at once, with an
    empty node list and the edges exactly as given. *)
Theorem getLayoutedElements_empty (M : MathLib) (dagre : DagreLayout) (fuel : nat)
  (edges : list Edge) (direction : LayoutDirection) :
  getLayoutedElements M dagre fuel [] edges direction = Some ([], edges).
Proof.
  destruct direction; cbn.
  - unfold rankLayout. cbn [map]. rewrite map_unchanged; [reflexivity|].
    intro e. reflexivity.
  - reflexivity.
  - reflexivity.
Qed.

(** ** Edges *)

Lemma newEdge_h_frame root st newNodes e : same_edge_frame e (newEdge_h root st newNodes e).
Proof.
  unfold newEdge_h.
  destruct (find_node newNodes (source e)), (find_node newNodes (target e));
    repeat split.
Qed.

Lemma newEdge_d_frame isH root newNodes e :
  same_edge_frame e (newEdge_d isH root newNodes e).
Proof.
  unfold newEdge_d.
  destruct (find_node newNodes (source e)), (find_node newNodes (target e));
    repeat split.
Qed.

Lemma Forall2_map_edge_frame (f : Edge -> Edge) (l : list Edge) :
  (forall e, same_edge_frame e (f e)) -> Forall2 same_edge_frame l (map f l).
Proof. intro Hf. induction l as [|e l IH]; cbn; constructor; auto. Qed.

Lemma Forall2_edge_frame_refl (l : list Edge) : Forall2 same_edge_frame l l.
Proof. induction l; constructor; auto. repeat split. Qed.

(** X8: whenever a layout pass returns, the output edges correspond one to
    one, in order, to the input edges and keep their id, source and target;
    the radial pass returns the edge list itself. *)
Theorem getLayoutedElements_edge_frame M dagre fuel nodes edges direction outN outE :
  getLayoutedElements M dagre fuel nodes edges direction = Some (outN, outE) ->
  Forall2 same_edge_frame edges outE /\ (direction = radial -> outE = edges).
Proof.
  unfold getLayoutedElements. destruct direction.
  - unfold rankLayout. intro H. injection H as _ <-. split; [|discriminate].
    apply Forall2_map_edge_frame. intro e. apply newEdge_d_frame.
  - unfold horizontalLayout. destruct (horizontalRoot nodes edges) as [root|].
    + intro H. apply bind_Some in H. destruct H as [st [_ H]].
      injection H as _ <-. split; [|discriminate].
      apply Forall2_map_edge_frame. intro e. apply newEdge_h_frame.
    + intro H. injection H as _ <-. split; [|discriminate].
      apply Forall2_edge_frame_refl.
  - intro H. apply bind_Some in H. destruct H as [ns [_ H]].
    injection H as _ <-. split; [apply Forall2_edge_frame_refl|reflexivity].
Qed.

Lemma getLayoutedElements_edge_frame_witness :
  exists outN outE,
    getLayoutedElements MathQ.lib noDagre 5 twoNodes oneEdge LR = Some (outN, outE)
    /\ Forall2 same_edge_frame oneEdge outE.
Proof.
  eexists. eexists. split.
  - vm_compute. reflexivity.
  - eapply proj1.
    eapply (getLayoutedElements_edge_frame MathQ.lib noDagre 5 twoNodes oneEdge LR).
    vm_compute. reflexivity.
Defined.

(** ** Anchors of the output *)

Lemma opposite_side (side : Side) : oppositeHandles (side_handles side).
Proof. destruct side; reflexivity. Qed.

Lemma place_opposite n h p : oppositeHandles h -> oppositeAnchors (place n h p).
Proof. intro Hh. exists (h_target h), (h_source h). repeat split. exact Hh. Qed.

Lemma horizontalHandles_opposite h : horizontalHandles h -> oppositeHandles h.
Proof. intros [->| ->]; reflexivity. Qed.

Lemma positionChildren_opposite M nodes children (fuel : nat) :
  forall levels st parentId a0 a1 r,
    Forall (fun kv => oppositeHandles (snd kv)) (snd st) ->
    positionChildren M nodes children fuel levels st parentId a0 a1 = Some r ->
    Forall (fun kv => oppositeHandles (snd kv)) (snd (fst r)).
Proof.
  induction fuel as [|fuel IH]; intros levels st parentId a0 a1 r Hst H; [discriminate|].
  cbn [positionChildren] in H.
  destruct (kids_of children parentId) as [|k kids].
  - injection H as <-. exact Hst.
  - revert H.
    apply (foldMi_from_invariant
             (fun acc : SMap Point * SMap Handles * list Q =>
                Forall (fun kv => oppositeHandles (snd kv)) (snd (fst acc)))).
    + intros [[ps hs] angles] a i s' Hs Hstep.
      apply bind_Some in Hstep. destruct Hstep as [r' [Hp Hr]].
      injection Hr as <-. cbn [fst snd].
      eapply IH; [|exact Hp]. cbn [snd].
      apply sset_Forall; [exact Hs|apply getHandlePositionFromAngle_opposite_handles].
    + exact Hst.
Qed.

Lemma layoutTree_opposite M nodes children fuel st rootId x y st' :
  Forall (fun kv => oppositeHandles (snd kv)) (r_handles st) ->
  layoutTree M nodes children fuel st rootId x y = Some st' ->
  Forall (fun kv => oppositeHandles (snd kv)) (r_handles st').
Proof.
  intros Hst H. unfold layoutTree in H.
  apply bind_Some in H. destruct H as [[visited levels] [_ H]].
  apply bind_Some in H. destruct H as [[[ps hs] angles] [Hp H]].
  injection H as <-. cbn [r_handles].
  apply sset_Forall.
  - change hs with (snd (fst (ps, hs, angles))).
    eapply positionChildren_opposite; [|exact Hp]. exact Hst.
  - destruct angles; [reflexivity|apply getHandlePositionFromAngle_opposite_handles].
Qed.

Lemma layoutRoots_opposite M nodes children fuel roots r :
  layoutRoots M nodes children fuel roots = Some r ->
  Forall (fun kv => oppositeHandles (snd kv)) (r_handles (fst r)).
Proof.
  unfold layoutRoots.
  apply (foldM_invariant
           (fun acc : RadialState * Q =>
              Forall (fun kv => oppositeHandles (snd kv)) (r_handles (fst acc)))).
  - intros [s off] root s' Hs Hstep.
    apply bind_Some in Hstep. destruct Hstep as [st' [Hl Hr]].
    injection Hr as <-. cbn [fst]. eapply layoutTree_opposite; [|exact Hl]. exact Hs.
  - constructor.
Qed.

Lemma orphanPass_opposite l : forall st off,
  Forall (fun kv => oppositeHandles (snd kv)) (r_handles st) ->
  Forall (fun kv => oppositeHandles (snd kv))
         (r_handles (fst (placeOrphans_radial l st off))).
Proof.
  induction l as [|m l IH]; intros st off Hst; [exact Hst|].
  rewrite orphanPass_cons. destruct (set_has (r_visited st) (id m)); [apply IH; exact Hst|].
  apply IH. cbn [r_handles]. apply sset_Forall; [exact Hst|reflexivity].
Qed.

Lemma newNode_d_anchors isH store root side n :
  newNode_d isH store root side n = n \/ oppositeAnchors (newNode_d isH store root side n).
Proof.
  unfold newNode_d. destruct (sget store (id n)); [right|left; reflexivity].
  apply place_opposite. unfold oppositeHandles.
  repeat match goal with
         | |- context [if ?b then _ else _] => destruct b
         end; reflexivity.
Qed.

(** X9: whenever a layout pass returns, every output node either is an
    input node handed back untouched (which only the rank-based pass does,
    for a node the library reports no coordinates for, and the other passes
    for an empty graph) or has both anchors set, on opposite sides. *)
Theorem getLayoutedElements_anchors_opposite M dagre fuel nodes edges direction outN outE :
  getLayoutedElements M dagre fuel nodes edges direction = Some (outN, outE) ->
  forall o, In o outN ->
    (direction = TB /\ In o nodes) \/ oppositeAnchors o.
Proof.
  unfold getLayoutedElements. destruct direction.
  - unfold rankLayout. intro H. injection H as <- _. intros o Ho.
    apply in_map_iff in Ho. destruct Ho as [n [<- Hn]].
    destruct (newNode_d_anchors false
                (spreadLevels false
                   (dagre
                      {| g_config := {| rankdir := TB; nodesep := 150; ranksep := 250;
                                        marginx := 150; marginy := 150 |};
                         g_nodes := map (fun node =>
                                           (id node,
                                            {| width := nullish (measured_width node) nodeWidth;
                                               height := nullish (measured_height node)
                                                           nodeHeight |})) nodes;
                         g_edges := map (fun edge => (source edge, target edge)) edges |})
                   nodes)
                (horizontalRoot nodes edges)
                (sideNodes false nodes edges (horizontalRoot nodes edges)) n) as [Heq|Hop].
    + left. split; [reflexivity|]. rewrite Heq. exact Hn.
    + right. exact Hop.
  - unfold horizontalLayout. destruct (horizontalRoot nodes edges) as [root|] eqn:Er.
    + intro H. apply bind_Some in H. destruct H as [st [Hst H]].
      injection H as <- _. intros o Ho. right.
      apply in_map_iff in Ho. destruct Ho as [n [<- Hn]].
      unfold newNode_h. apply place_opposite.
      pose proof (horizontalPlacement_handlesWithin _ _ _ _ _ Hst) as Hw.
      destruct (sget (handlePositions st) (id n)) as [h|] eqn:E; cbn [nullish].
      * apply horizontalHandles_opposite. eapply (sget_Forall horizontalHandles); eassumption.
      * reflexivity.
    + intro H. injection H as <- _. intros o Ho.
      destruct nodes; [destruct Ho|]. unfold horizontalRoot in Er.
      destruct (filter _ (n :: nodes)); discriminate.
  - intro H. apply bind_Some in H. destruct H as [ns [Hr H]].
    injection H as <- _. intros o Ho. right.
    unfold radialLayout in Hr. destruct nodes as [|n0 nodes'].
    + injection Hr as <-. destruct Ho.
    + apply bind_Some in Hr. destruct Hr as [[st off] [Ht Hr]].
      injection Hr as Hns. rewrite <- Hns in Ho.
      change (In o (map (newNode_r (fst (placeOrphans_radial (n0 :: nodes') st off)))
                        (n0 :: nodes'))) in Ho.
      clear Hns.
      apply in_map_iff in Ho. destruct Ho as [n [<- Hn]].
      unfold radialTraversal in Ht.
      apply bind_Some in Ht. destruct Ht as [[st0 off0] [Hl Ht]].
      injection Ht as <- <-.
      pose proof (layoutRoots_opposite _ _ _ _ _ _ Hl) as Hopp. cbn [fst] in Hopp.
      unfold newNode_r. apply place_opposite.
      match goal with
      | |- context [placeOrphans_radial ?l ?s ?o] =>
          pose proof (orphanPass_opposite l s o) as Hfin
      end.
      cbn [r_handles] in Hfin. specialize (Hfin Hopp).
      match goal with
      | |- oppositeHandles (nullish ?g _) => destruct g as [h|] eqn:E
      end; cbn [nullish].
      * eapply (sget_Forall oppositeHandles); eassumption.
      * reflexivity.
Qed.

Lemma getLayoutedElements_anchors_opposite_witness :
  (LR = TB /\ In (newNode_h (nodeMapOf twoNodes)
                    (nullish (horizontalPlacement 5 twoNodes oneEdge (plainNode "r" 0 0))
                             {| positions := []; handlePositions := [] |})
                    (plainNode "r" 0 0)) twoNodes)
  \/ oppositeAnchors
       (newNode_h (nodeMapOf twoNodes)
          (nullish (horizontalPlacement 5 twoNodes oneEdge (plainNode "r" 0 0))
                   {| positions := []; handlePositions := [] |})
          (plainNode "r" 0 0)).
Proof.
  eapply (getLayoutedElements_anchors_opposite MathQ.lib noDagre 5 twoNodes oneEdge LR).
  - vm_compute. reflexivity.
  - left. vm_compute. reflexivity.
Defined.

(** ** Incremental placement: the edges of the search *)

(** X10: on an empty canvas the first candidate of the vertical scan wins:
    the new node is put 200 above the requested point. *)
Theorem findNonOverlappingPosition_empty_canvas (M : MathLib) (w h x0 y0 : Q)
  (direction : Side) :
  findNonOverlappingPosition M w h x0 y0 [] direction = {| px := x0; py := y0 + -200 |}.
Proof. reflexivity. Qed.

Lemma tryX_first_clear (w h x0 : Q) (direction : Side) (existing : list Node) (b : Best) :
  forall adjusts,
    let r := tryX w h x0 direction existing b adjusts in
    bestY r = bestY b
    /\ ((exists pre xa post,
           adjusts = pre ++ xa :: post
           /\ bestX r = shiftX x0 direction xa
           /\ clearAt w h (shiftX x0 direction xa) (bestY b) existing
           /\ forall xb, In xb pre -> ~ clearAt w h (shiftX x0 direction xb) (bestY b) existing)
        \/ (bestX r = bestX b
            /\ forall xa, In xa adjusts ->
                 ~ clearAt w h (shiftX x0 direction xa) (bestY b) existing)).
Proof.
  induction adjusts as [|xa adjusts IH]; cbn [tryX].
  - split; [reflexivity|]. right. split; [reflexivity|]. intros xa [].
  - fold (shiftX x0 direction xa).
    destruct (existsb (overlapsExisting w h (shiftX x0 direction xa) (bestY b)) existing)
      eqn:E.
    + assert (Hnc : ~ clearAt w h (shiftX x0 direction xa) (bestY b) existing).
      { intro Hc. apply existsb_clearAt in Hc. congruence. }
      destruct IH as [Hy [[pre [xc [post [Heq [Hx [Hc Hpre]]]]]]|[Hx Hall]]].
      * split; [exact Hy|]. left. exists (xa :: pre), xc, post.
        split; [rewrite Heq; reflexivity|]. split; [exact Hx|]. split; [exact Hc|].
        intros xb [<-|Hin]; auto.
      * split; [exact Hy|]. right. split; [exact Hx|].
        intros xb [<-|Hin]; auto.
    + apply existsb_clearAt in E. cbn [bestX bestY]. split; [reflexivity|].
      left. exists [], xa, adjusts. split; [reflexivity|]. split; [reflexivity|].
      split; [exact E|]. intros xb [].
Qed.

(** X11: when every candidate of the vertical scan overlaps, the function
    keeps the requested height and returns the first horizontal offset
    0, 50, ..., 450 (in the insertion direction) that is free of overlap
    there; when none is, it returns the requested point itself. *)
Theorem findNonOverlappingPosition_fallback (M : MathLib) (w h x0 y0 : Q)
  (existing : list Node) (direction : Side) :
  (forall yo, In yo yOffsets -> ~ clearAt w h x0 (y0 + yo) existing) ->
  let p := findNonOverlappingPosition M w h x0 y0 existing direction in
  py p = y0
  /\ ((exists pre xa post,
         xAdjusts = pre ++ xa :: post
         /\ px p = shiftX x0 direction xa
         /\ clearAt w h (shiftX x0 direction xa) y0 existing
         /\ forall xb, In xb pre -> ~ clearAt w h (shiftX x0 direction xb) y0 existing)
      \/ (px p = x0
          /\ forall xa, In xa xAdjusts -> ~ clearAt w h (shiftX x0 direction xa) y0 existing)).
Proof.
  intro Hnone. unfold findNonOverlappingPosition.
  pose proof (fold_tryY_scanned M w h x0 y0 existing yOffsets [] _
                (scanned_start M w h x0 y0 existing)) as Hs.
  cbn [app] in Hs.
  set (b1 := fold_left (tryY M w h x0 y0 existing) yOffsets
               {| bestX := x0; bestY := y0; minDistance := None |}) in *.
  destruct Hs as [Hx [Hn Hsome]].
  destruct (minDistance b1) as [m|] eqn:Em.
  - exfalso. destruct (Hsome m eq_refl) as [yo [Hin [_ [Hc _]]]]. exact (Hnone yo Hin Hc).
  - destruct (Hn eq_refl) as [Hy _].
    pose proof (tryX_first_clear w h x0 direction existing b1 xAdjusts) as Ht.
    cbv zeta in Ht. rewrite Hy, Hx in Ht. cbv zeta. cbn [px py]. exact Ht.
Qed.

Lemma findNonOverlappingPosition_fallback_witness :
  py (findNonOverlappingPosition MathQ.lib 200 100 0 0 [tallNode] ToRight)
  = 0.
Proof.
  refine (proj1 (findNonOverlappingPosition_fallback MathQ.lib 200 100 0 0
                   [tallNode] ToRight _)).
  intros yo Hin Hclear.
  specialize (Hclear tallNode (or_introl eq_refl)).
  cbn in Hin.
  repeat (destruct Hin as [<-|Hin]; [vm_compute in Hclear; discriminate|]).
  destruct Hin.
Defined.

(** ** Rank-based pass: handles *)

Lemma newNode_d_vertical store root side n :
  sget store (id n) <> None ->
  (targetPosition (newNode_d false store root side n) = Some Position.Top
   /\ sourcePosition (newNode_d false store root side n) = Some Position.Bottom)
  \/ (targetPosition (newNode_d false store root side n) = Some Position.Bottom
      /\ sourcePosition (newNode_d false store root side n) = Some Position.Top).
Proof.
  intro Hs. unfold newNode_d. destruct (sget store (id n)); [|contradiction].
  cbv zeta.
  match goal with
  | |- context [place n (if ?b then _ else _) _] => destruct b
  end; cbn; auto.
Qed.

(** X12: in the rank-based (top to bottom) pass, for every rewritten edge
    whose two ends are output nodes: a target anchored at the top or bottom
    gives the edge that side as target handle; a source other than the root
    anchored at the top or bottom gives it as source handle; an edge leaving
    the root keeps its own source handle, or gets "bottom" when it has none
    or an empty one. *)
Theorem rankLayout_edge_handles (dagre : DagreLayout) nodes edges outN outE :
  rankLayout dagre nodes edges TB = (outN, outE) ->
  forall i e0 e src tgt,
    nth_error edges i = Some e0 -> nth_error outE i = Some e ->
    find_node outN (source e0) = Some src ->
    find_node outN (target e0) = Some tgt ->
    (forall p, p = Position.Top \/ p = Position.Bottom ->
       targetPosition tgt = Some p -> targetHandle e = Some (Position.name p))
    /\ (forall root p, horizontalRoot nodes edges = Some root -> id src <> id root ->
          p = Position.Top \/ p = Position.Bottom ->
          sourcePosition src = Some p -> sourceHandle e = Some (Position.name p))
    /\ (forall root, horizontalRoot nodes edges = Some root -> id src = id root ->
          sourceHandle e = Some (handle_or (sourceHandle e0) "bottom")).
Proof.
  unfold rankLayout. intro H. injection H as <- <-.
  intros i e0 e src tgt He0 He Hsrc Htgt.
  rewrite nth_error_map, He0 in He. cbn [option_map] in He. injection He as <-.
  unfold newEdge_d. rewrite Hsrc, Htgt. cbn [sourceHandle targetHandle rehandle].
  split; [|split].
  - intros p [->| ->] ->; reflexivity.
  - intros root p -> Hne Hp Hsp.
    destruct (String.eqb (id src) (id root)) eqn:E;
      [apply String.eqb_eq in E; contradiction|].
    rewrite Hsp. destruct Hp as [->| ->]; reflexivity.
  - intros root -> Heq. rewrite Heq, String.eqb_refl. reflexivity.
Qed.

Lemma rankLayout_edge_handles_witness :
  sourceHandle (newEdge_d false (horizontalRoot twoNodes oneEdge)
                  (fst (rankLayout (fun _ => [("r", origin); ("a", origin)]%string)
                          twoNodes oneEdge TB)) (plainEdge "r" "a"))
  = Some (handle_or (sourceHandle (plainEdge "r" "a")) "bottom").
Proof.
  refine (proj2 (proj2 (rankLayout_edge_handles
                          (fun _ => [("r", origin); ("a", origin)]%string)
                          twoNodes oneEdge _ _ eq_refl 0%nat (plainEdge "r" "a") _ _ _
                          eq_refl eq_refl _ _)) (plainNode "r" 0 0) eq_refl _).
  - vm_compute. reflexivity.
  - vm_compute. reflexivity.
  - vm_compute. reflexivity.
Defined.

(** ** Sides of the root's children *)

Lemma splitRootChildren_from nodes edges rootNode : forall kids i l0 r0,
  exists l r,
    foldi_from
      (fun (acc : list string * list string) childId index =>
         let '(leftChildren, rightChildren) := acc in
         let handle := rootEdgeHandle edges (id rootNode) childId in
         if opt_is handle "left" then (leftChildren ++ [childId], rightChildren)
         else if opt_is handle "right" then (leftChildren, rightChildren ++ [childId])
         else
           match find_node nodes childId with
           | Some childNode =>
               if Qltb (inputCenterX childNode) (inputCenterX rootNode)
               then (leftChildren ++ [childId], rightChildren)
               else (leftChildren, rightChildren ++ [childId])
           | None =>
               if Nat.even index then (leftChildren, rightChildren ++ [childId])
               else (leftChildren ++ [childId], rightChildren)
           end)
      i kids (l0, r0) = (l0 ++ l, r0 ++ r)
    /\ Permutation kids (l ++ r)
    /\ (forall c, In c l -> exists j, goesLeft nodes edges rootNode c j = true)
    /\ (forall c, In c r -> exists j, goesLeft nodes edges rootNode c j = false).
Proof.
  induction kids as [|k kids IH]; intros i l0 r0; cbn [foldi_from].
  - exists [], []. rewrite !app_nil_r. repeat split; try constructor; intros c [].
  - match goal with
    | |- context [foldi_from ?f (S i) kids ?s] =>
        assert (Hs : s = if goesLeft nodes edges rootNode k i
                         then (l0 ++ [k], r0) else (l0, r0 ++ [k]))
    end.
    { unfold goesLeft. cbv zeta.
      destruct (opt_is (rootEdgeHandle edges (id rootNode) k) "left"); [reflexivity|].
      destruct (opt_is (rootEdgeHandle edges (id rootNode) k) "right"); [reflexivity|].
      destruct (find_node nodes k) as [childNode|].
      - destruct (Qltb (inputCenterX childNode) (inputCenterX rootNode)); reflexivity.
      - destruct (Nat.even i); reflexivity. }
    rewrite Hs. clear Hs.
    destruct (goesLeft nodes edges rootNode k i) eqn:Eg.
    + destruct (IH (S i) (l0 ++ [k]) r0) as [l [r [Hf [Hp [Hl Hr]]]]].
      exists (k :: l), r. rewrite <- app_assoc in Hf.
      split; [exact Hf|]. split; [constructor; exact Hp|].
      split; [|exact Hr].
      intros c [<-|Hc]; [exists i; exact Eg|apply Hl; exact Hc].
    + destruct (IH (S i) l0 (r0 ++ [k])) as [l [r [Hf [Hp [Hl Hr]]]]].
      exists l, (k :: r). rewrite <- app_assoc in Hf.
      split; [exact Hf|]. split; [apply Permutation_cons_app; exact Hp|].
      split; [exact Hl|].
      intros c [<-|Hc]; [exists i; exact Eg|apply Hr; exact Hc].
Qed.

Lemma goesLeft_marked_left nodes edges rootNode c j :
  rootEdgeHandle edges (id rootNode) c = Some "left"%string ->
  goesLeft nodes edges rootNode c j = true.
Proof. intro H. unfold goesLeft. rewrite H. reflexivity. Qed.

Lemma goesLeft_marked_right nodes edges rootNode c j :
  rootEdgeHandle edges (id rootNode) c = Some "right"%string ->
  goesLeft nodes edges rootNode c j = false.
Proof. intro H. unfold goesLeft. rewrite H. reflexivity. Qed.

(** X13: the root's children are split into a left and a right group so
    that every child lands in exactly one group (the two groups together
    are a rearrangement of the children), and a child whose first edge from
    the root is marked "left" or "right" lands on that side. *)
Theorem splitRootChildren_partition nodes edges rootNode kids :
  Permutation kids (fst (splitRootChildren nodes edges rootNode kids)
                    ++ snd (splitRootChildren nodes edges rootNode kids))
  /\ (forall c, In c kids ->
        rootEdgeHandle edges (id rootNode) c = Some "left"%string ->
        In c (fst (splitRootChildren nodes edges rootNode kids))
        /\ ~ In c (snd (splitRootChildren nodes edges rootNode kids)))
  /\ (forall c, In c kids ->
        rootEdgeHandle edges (id rootNode) c = Some "right"%string ->
        In c (snd (splitRootChildren nodes edges rootNode kids))
        /\ ~ In c (fst (splitRootChildren nodes edges rootNode kids))).
Proof.
  destruct (splitRootChildren_from nodes edges rootNode kids 0 [] [])
    as [l [r [Hf [Hp [Hl Hr]]]]].
  assert (Heq : splitRootChildren nodes edges rootNode kids = (l, r)) by exact Hf.
  rewrite Heq. cbn [fst snd]. split; [exact Hp|]. split.
  - intros c Hc Hh.
    assert (Hnr : ~ In c r).
    { intro Hin. destruct (Hr c Hin) as [j Hj].
      rewrite (goesLeft_marked_left nodes edges rootNode c j Hh) in Hj. discriminate. }
    split; [|exact Hnr].
    apply (Permutation_in _ Hp) in Hc. apply in_app_or in Hc. tauto.
  - intros c Hc Hh.
    assert (Hnl : ~ In c l).
    { intro Hin. destruct (Hl c Hin) as [j Hj].
      rewrite (goesLeft_marked_right nodes edges rootNode c j Hh) in Hj. discriminate. }
    split; [|exact Hnl].
    apply (Permutation_in _ Hp) in Hc. apply in_app_or in Hc. tauto.
Qed.

(** ** The overlap passes move nodes vertically only *)

Lemma sset_keeps_x (ps : SMap Point) (k : string) (old v : Point) :
  sget ps k = Some old -> px v = px old -> xProfile (sset ps k v) = xProfile ps.
Proof.
  unfold sget, sset, xProfile. induction ps as [|[k' p'] ps IH]; cbn; [discriminate|].
  destruct (String.eqb k' k) eqn:E; cbn.
  - intros H Hx. injection H as <-. rewrite Hx. reflexivity.
  - intros H Hx. rewrite (IH H Hx). reflexivity.
Qed.

Lemma shas_xProfile (ps ps' : SMap Point) (k : string) :
  xProfile ps = xProfile ps' -> shas ps k = shas ps' k.
Proof.
  unfold xProfile, shas, mhas. revert ps'.
  induction ps as [|[k1 p1] ps IH]; intros [|[k2 p2] ps'] H; cbn in *;
    try discriminate; [reflexivity|].
  injection H as -> _ H. destruct (String.eqb k2 k); [reflexivity|]. apply IH. exact H.
Qed.

Lemma sget_xProfile (ps ps' : SMap Point) (k : string) :
  xProfile ps = xProfile ps' -> option_map px (sget ps k) = option_map px (sget ps' k).
Proof.
  unfold xProfile, sget. revert ps'.
  induction ps as [|[k1 p1] ps IH]; intros [|[k2 p2] ps'] H; cbn in *;
    try discriminate; [reflexivity|].
  injection H as -> Hx H. destruct (String.eqb k2 k); [cbn; rewrite Hx; reflexivity|].
  apply IH. exact H.
Qed.

Section VerticalOnly.
Variable children : SMap (list string).
Variable parent : SMap string.
Variable nodeMap : SMap Node.

Lemma moveNodeWithDirectChildren_x ps nodeId deltaY :
  xProfile (moveNodeWithDirectChildren children ps nodeId deltaY) = xProfile ps.
Proof.
  unfold moveNodeWithDirectChildren.
  destruct (sget ps nodeId) as [cur|] eqn:E; [|reflexivity].
  apply (fold_left_invariant (fun acc : SMap Point => xProfile acc = xProfile ps)).
  - intros s kid Hs. destruct (sget s kid) as [kp|] eqn:Ek; [|exact Hs].
    rewrite (sset_keeps_x s kid kp); [exact Hs|exact Ek|reflexivity].
  - apply (sset_keeps_x ps nodeId cur); [exact E|reflexivity].
Qed.

Lemma siblingScan_x (steps : nat) : forall i ids ps ov,
  xProfile (fst (siblingScan children nodeMap steps i ids ps ov)) = xProfile ps.
Proof.
  induction steps as [|steps IH]; intros i ids ps ov; cbn [siblingScan]; [reflexivity|].
  cbv zeta. destruct (checkOverlap nodeMap ps _ _); [|apply IH].
  destruct (getNodeBounds nodeMap ps (nth i ids EmptyString)) as [b1|]; [|apply IH].
  destruct (getNodeBounds nodeMap ps (nth (S i) ids EmptyString)) as [b2|]; [|apply IH].
  destruct (Qgtb (neededSpace b1 b2) 0); [|apply IH].
  rewrite IH. apply moveNodeWithDirectChildren_x.
Qed.

Lemma columnScan_x (steps : nat) : forall i ids ps ov,
  xProfile (fst (columnScan children parent nodeMap steps i ids ps ov)) = xProfile ps.
Proof.
  induction steps as [|steps IH]; intros i ids ps ov; cbn [columnScan]; [reflexivity|].
  cbv zeta.
  destruct (opt_is (sget parent (nth (S i) ids EmptyString)) (nth i ids EmptyString)
            || opt_is (sget parent (nth i ids EmptyString)) (nth (S i) ids EmptyString));
    [apply IH|].
  destruct (sameParent parent (nth i ids EmptyString) (nth (S i) ids EmptyString));
    [apply IH|].
  destruct (checkOverlap nodeMap ps _ _); [|apply IH].
  destruct (getNodeBounds nodeMap ps (nth i ids EmptyString)) as [b1|]; [|apply IH].
  destruct (getNodeBounds nodeMap ps (nth (S i) ids EmptyString)) as [b2|]; [|apply IH].
  destruct (Qgtb (neededSpace b1 b2) 0); [|apply IH].
  rewrite IH. apply moveNodeWithDirectChildren_x.
Qed.

Lemma siblingPass_x ps ov :
  xProfile (fst (siblingPass children parent nodeMap ps ov)) = xProfile ps.
Proof.
  unfold siblingPass.
  apply (fold_left_invariant (fun acc : SMap Point * bool => xProfile (fst acc) = xProfile ps));
    [|reflexivity].
  intros [s o] [p ids] Hs. cbn [fst snd] in *.
  destruct (length ids <? 2)%nat; [exact Hs|].
  rewrite siblingScan_x. exact Hs.
Qed.

Lemma columnPass_x ps ov :
  xProfile (fst (columnPass children parent nodeMap ps ov)) = xProfile ps.
Proof.
  unfold columnPass.
  apply (fold_left_invariant (fun acc : SMap Point * bool => xProfile (fst acc) = xProfile ps));
    [|reflexivity].
  intros [s o] [c ids] Hs. cbn [fst snd] in *.
  destruct (length ids <? 2)%nat; [exact Hs|].
  rewrite columnScan_x. exact Hs.
Qed.

Lemma resolveLoop_x (remaining : nat) : forall ps,
  xProfile (resolveLoop children parent nodeMap remaining ps) = xProfile ps.
Proof.
  induction remaining as [|remaining IH]; intro ps; cbn [resolveLoop]; [reflexivity|].
  cbv zeta.
  assert (H2 : xProfile (fst (columnPass children parent nodeMap
                               (fst (siblingPass children parent nodeMap ps false))
                               (snd (siblingPass children parent nodeMap ps false))))
               = xProfile ps)
    by (rewrite columnPass_x; apply siblingPass_x).
  destruct (snd (columnPass children parent nodeMap _ _)); [rewrite IH|]; exact H2.
Qed.

Lemma resolveOverlaps_x (ps : SMap Point) :
  xProfile (resolveOverlaps children parent nodeMap ps) = xProfile ps.
Proof. apply resolveLoop_x. Qed.

(** X14: the overlap-resolution pass of the horizontal layout moves nodes
    vertically only: the position map keeps its keys, their order and the x
    coordinate of every key. *)
Theorem resolveOverlaps_vertical_only (ps : SMap Point) :
  xProfile (resolveOverlaps children parent nodeMap ps) = xProfile ps
  /\ forall k, option_map px (sget (resolveOverlaps children parent nodeMap ps) k)
               = option_map px (sget ps k).
Proof.
  split; [apply resolveOverlaps_x|]. intro k. apply sget_xProfile. apply resolveOverlaps_x.
Qed.

Lemma moveSubtreeHorizontally_keys (fuel : nat) : forall ps nodeId dx ps' k,
  moveSubtreeHorizontally children fuel ps nodeId dx = Some ps' ->
  shas ps' k = shas ps k.
Proof.
  induction fuel as [|fuel IH]; intros ps nodeId dx ps' k H; [discriminate|].
  cbn [moveSubtreeHorizontally] in H. revert H.
  apply (foldM_invariant (fun acc : SMap Point => shas acc k = shas ps k)).
  - intros s kid s' Hs Hstep. rewrite (IH _ _ _ _ k Hstep). exact Hs.
  - destruct (sget ps nodeId) as [pos|] eqn:E; [|reflexivity].
    rewrite shas_sset. destruct (String.eqb nodeId k) eqn:Ek; [|reflexivity].
    apply String.eqb_eq in Ek. subst. unfold shas, mhas. fold (sget ps k).
    rewrite E. reflexivity.
Qed.

Lemma nudgeLoop_keys (iters : nat) : forall fuel ps parentId childId ps' k,
  nudgeLoop children nodeMap iters fuel ps parentId childId = Some ps' ->
  shas ps' k = shas ps k.
Proof.
  induction iters as [|iters IH]; intros fuel ps parentId childId ps' k H;
    cbn [nudgeLoop] in H.
  - injection H as <-. reflexivity.
  - destruct (getNodeBounds nodeMap ps parentId) as [pb|];
      [|injection H as <-; reflexivity].
    destruct (getNodeBounds nodeMap ps childId) as [cb|];
      [|injection H as <-; reflexivity].
    destruct (boundsOverlap pb cb 40); [|injection H as <-; reflexivity].
    apply bind_Some in H. destruct H as [ps1 [Hm Hr]].
    rewrite (IH _ _ _ _ _ k Hr). eapply moveSubtreeHorizontally_keys. exact Hm.
Qed.
End VerticalOnly.

(** ** No lookup of the horizontal pass misses *)

Lemma initialLayout_cover children nodeMap (root : string) (fuel : nat) :
  forall st nodeId x y side r,
    handlesCover st /\ shas (handlePositions st) root = true ->
    initialLayout children nodeMap fuel st nodeId x y side = Some r ->
    handlesCover (fst r) /\ shas (handlePositions (fst r)) root = true.
Proof.
  induction fuel as [|fuel IH]; intros st nodeId x y side r [Hc Hr] H; [discriminate|].
  cbn [initialLayout] in H.
  set (st1 := {| positions := sset (positions st) nodeId {| px := x; py := y |};
                 handlePositions := sset (handlePositions st) nodeId (side_handles side) |})
    in *.
  assert (H1 : handlesCover st1 /\ shas (handlePositions st1) root = true).
  { split.
    - intros k. unfold st1. cbn [positions handlePositions]. rewrite !shas_sset.
      destruct (String.eqb nodeId k); [reflexivity|]. cbn [orb]. apply Hc.
    - unfold st1. cbn [handlePositions]. rewrite shas_sset, Hr. apply orb_true_r. }
  destruct (kids_of children nodeId) as [|k kids].
  - injection H as <-. exact H1.
  - apply bind_Some in H. destruct H as [hs [_ H]].
    apply bind_Some in H. destruct H as [acc [Hf H]].
    injection H as <-. cbn [fst]. revert Hf.
    apply (foldMi_from_invariant
             (fun acc : Placement * Q =>
                handlesCover (fst acc) /\ shas (handlePositions (fst acc)) root = true)).
    + intros [s cy] a i s' Hs Hstep.
      apply bind_Some in Hstep. destruct Hstep as [r' [Hl Hs']].
      injection Hs' as <-. cbn [fst]. eapply IH; [|exact Hl]. exact Hs.
    + exact H1.
Qed.

Lemma layoutSide_cover children nodeMap root fuel st kids side st' :
  handlesCover st /\ shas (handlePositions st) root = true ->
  layoutSide children nodeMap fuel st kids side = Some st' ->
  handlesCover st' /\ shas (handlePositions st') root = true.
Proof.
  intros Hst H. unfold layoutSide in H. destruct kids as [|k kids].
  - injection H as <-. exact Hst.
  - apply bind_Some in H. destruct H as [hs [_ H]].
    apply bind_Some in H. destruct H as [acc [Hf H]].
    injection H as <-. revert Hf.
    apply (foldMi_from_invariant
             (fun acc : Placement * Q =>
                handlesCover (fst acc) /\ shas (handlePositions (fst acc)) root = true)).
    + intros [s cy] a i s' Hs Hstep.
      apply bind_Some in Hstep. destruct Hstep as [r' [Hl Hs']].
      injection Hs' as <-. cbn [fst]. eapply initialLayout_cover; [|exact Hl]. exact Hs.
    + exact Hst.
Qed.

Lemma horizontalTraversal_cover fuel nodes edges root st :
  horizontalTraversal fuel nodes edges root = Some st -> handlesCover st.
Proof.
  unfold horizontalTraversal. cbv zeta.
  destruct (splitRootChildren nodes edges root
              (kids_of (t_children (buildTree nodes edges)) (id root))) as [lefts rights].
  intro H.
  apply bind_Some in H. destruct H as [st1 [H1 H]].
  apply bind_Some in H. destruct H as [st2 [H2 H]].
  apply bind_Some in H. destruct H as [ps5 [H5 H]].
  injection H as <-.
  assert (H0 : handlesCover
                 {| positions := sset [] (id root) {| px := rootX; py := rootY |};
                    handlePositions := sset [] (id root) defaultHandles |}
               /\ shas (handlePositions
                          {| positions := sset [] (id root) {| px := rootX; py := rootY |};
                             handlePositions := sset [] (id root) defaultHandles |})
                       (id root) = true).
  { split.
    - intro k. cbn [positions handlePositions]. rewrite !shas_sset. auto.
    - cbn [handlePositions]. rewrite shas_sset, String.eqb_refl. reflexivity. }
  pose proof (layoutSide_cover _ _ _ _ _ _ _ _ H0 H1) as Hc1.
  pose proof (layoutSide_cover _ _ _ _ _ _ _ _ Hc1 H2) as [Hc2 Hr2].
  intros k Hk. cbn [positions handlePositions] in *.
  assert (Hk4 : shas (resolveOverlaps (t_children (buildTree nodes edges))
                        (t_parent (buildTree nodes edges)) (nodeMapOf nodes)
                        (centerRoot (nodeMapOf nodes) (id root) lefts rights (positions st2)))
                     k = true).
  { rewrite <- Hk. symmetry. revert H5.
    apply (foldM_invariant (fun acc : SMap Point => shas acc k = shas _ k));
      [|reflexivity].
    intros s e s' Hs Hstep. rewrite (nudgeLoop_keys _ _ _ _ _ _ _ _ k Hstep). exact Hs. }
  rewrite (shas_xProfile _ _ k (resolveOverlaps_x _ _ _ _)) in Hk4.
  unfold centerRoot in Hk4.
  destruct (lefts ++ rights); [apply Hc2; exact Hk4|].
  destruct (fold_left (extendY (nodeMapOf nodes) (positions st2)) rights
              (fold_left (extendY (nodeMapOf nodes) (positions st2)) lefts (None, None)))
    as [[minY|] [maxY|]]; try (apply Hc2; exact Hk4).
  rewrite shas_sset in Hk4. destruct (String.eqb (id root) k) eqn:E.
  - apply String.eqb_eq in E. subst k. exact Hr2.
  - apply Hc2. exact Hk4.
Qed.

Lemma placeOrphans_cover nodes : forall st,
  handlesCover st -> handlesCover (placeOrphans nodes st).
Proof.
  induction nodes as [|m nodes IH]; intros st Hst; [exact Hst|].
  rewrite placeOrphans_cons. destruct (shas (positions st) (id m)); [apply IH; exact Hst|].
  apply IH. intro k. cbn [positions handlePositions]. rewrite !shas_sset.
  destruct (String.eqb (id m) k); [reflexivity|]. apply Hst.
Qed.

Lemma placeOrphans_total nodes : forall st n,
  In n nodes -> shas (positions (placeOrphans nodes st)) (id n) = true.
Proof.
  intros st n Hin. unfold shas, mhas. fold (sget (positions (placeOrphans nodes st)) (id n)).
  destruct (shas (positions st) (id n)) eqn:E.
  - rewrite (proj1 (placeOrphans_keeps nodes st (id n) E)). exact E.
  - rewrite (proj1 (placeOrphans_fallback nodes st n Hin E)). reflexivity.
Qed.

(** X15: once the horizontal pass has run its orphan pass, every input
    node id has an entry in the position map and in the handle map, so the
    two lookups of the output construction never miss. *)
Theorem horizontalPlacement_total fuel nodes edges root st :
  horizontalPlacement fuel nodes edges root = Some st ->
  forall n, In n nodes ->
    (exists pos, sget (positions st) (id n) = Some pos)
    /\ (exists h, sget (handlePositions st) (id n) = Some h).
Proof.
  unfold horizontalPlacement. intro H. apply bind_Some in H. destruct H as [st0 [Ht H]].
  injection H as <-. intros n Hin.
  pose proof (placeOrphans_total nodes st0 n Hin) as Hp.
  pose proof (placeOrphans_cover nodes st0 (horizontalTraversal_cover _ _ _ _ _ Ht)
                (id n) Hp) as Hh.
  unfold shas, mhas in Hp, Hh.
  fold (sget (positions (placeOrphans nodes st0)) (id n)) in Hp.
  fold (sget (handlePositions (placeOrphans nodes st0)) (id n)) in Hh.
  split.
  - destruct (sget (positions (placeOrphans nodes st0)) (id n)) as [p|];
      [exists p; reflexivity|discriminate].
  - destruct (sget (handlePositions (placeOrphans nodes st0)) (id n)) as [h|];
      [exists h; reflexivity|discriminate].
Qed.

Lemma horizontalPlacement_total_witness :
  (exists pos,
     sget (positions (placeOrphans orphanNodes
                        (nullish (horizontalTraversal 5 orphanNodes orphanEdges
                                    (plainNode "r" 0 0))
                                 {| positions := []; handlePositions := [] |})))
          (id (plainNode "o" 0 0)) = Some pos)
  /\ (exists h,
        sget (handlePositions (placeOrphans orphanNodes
                                 (nullish (horizontalTraversal 5 orphanNodes orphanEdges
                                             (plainNode "r" 0 0))
                                          {| positions := []; handlePositions := [] |})))
             (id (plainNode "o" 0 0)) = Some h).
Proof.
  apply (horizontalPlacement_total 5 orphanNodes orphanEdges (plainNode "r" 0 0)).
  - vm_compute. reflexivity.
  - right. right. left. reflexivity.
Defined.

(** ** The sideways shift of the radial pass *)

Lemma shiftLoop_steps (iters : nat) (parentSize childSize : Size) (pX pY cy direction : Q) :
  forall cx,
    exists k, (k <= iters)%nat
              /\ shiftLoop iters parentSize childSize pX pY cy direction cx
                 == cx + direction * 40 * of_nat k.
Proof.
  induction iters as [|iters IH]; intro cx; cbn [shiftLoop].
  - exists 0%nat. split; [lia|]. unfold of_nat. cbn. ring.
  - cbv zeta.
    match goal with |- context [if ?b then _ else _] => destruct b end.
    + destruct (IH (cx + direction * 40)) as [k [Hk Heq]].
      exists (S k). split; [lia|]. rewrite Heq. unfold of_nat.
      rewrite Nat2Z.inj_succ, <- Z.add_1_r, inject_Z_plus.
      generalize (inject_Z (Z.of_nat k)). intro c. change (inject_Z 1) with 1. ring.
    + exists 0%nat. split; [lia|]. unfold of_nat. cbn. ring.
Qed.

(** X16: the radial shift pass touches, for one edge, only the position of
    the edge's target: it keeps its height and moves it sideways by at most
    twenty steps of 40, away from the parent's column (to the right when
    the child is not left of the parent); an edge with an end that has no
    position changes nothing. *)
Theorem nudgeEdge_bounded (nodes : list Node) (ps : SMap Point) (e : Edge) :
  (forall parentPos childPos,
     sget ps (source e) = Some parentPos -> sget ps (target e) = Some childPos ->
     exists c' k,
       (k <= 20)%nat
       /\ sget (nudgeEdge nodes ps e) (target e) = Some c'
       /\ py c' = py childPos
       /\ px c' == px childPos
                   + (if Qgeb (px childPos) (px parentPos) then 1 else -1) * 40 * of_nat k
       /\ forall k0, target e <> k0 -> sget (nudgeEdge nodes ps e) k0 = sget ps k0)
  /\ (sget ps (source e) = None \/ sget ps (target e) = None -> nudgeEdge nodes ps e = ps).
Proof.
  unfold nudgeEdge. split.
  - intros parentPos childPos -> ->. cbv zeta.
    destruct (shiftLoop_steps 20 (getNodeSize_radial nodes (source e))
                (getNodeSize_radial nodes (target e)) (px parentPos) (py parentPos)
                (py childPos) (if Qgeb (px childPos) (px parentPos) then 1 else -1)
                (px childPos)) as [k [Hk Heq]].
    eexists. exists k. split; [exact Hk|]. split; [apply sget_sset_same|].
    split; [reflexivity|]. split; [exact Heq|].
    intros k0 Hne. apply sget_sset_other. exact Hne.
  - intros [-> | H]; [reflexivity|].
    destruct (sget ps (source e)); [rewrite H|]; reflexivity.
Qed.

(** ** The guarded level computation always returns *)

Lemma set_has_add (s : SSet) (k k' : string) :
  set_has (set_add s k) k' = String.eqb k' k || set_has s k'.
Proof.
  unfold set_add. destruct (set_has s k) eqn:E.
  - destruct (String.eqb k' k) eqn:Ek; [|reflexivity].
    apply String.eqb_eq in Ek. subst. rewrite E. reflexivity.
  - unfold set_has. rewrite existsb_app. cbn. rewrite orb_false_r. apply orb_comm.
Qed.

Lemma filter_length_le {A : Type} (p q : A -> bool) (l : list A) :
  (forall a, p a = true -> q a = true) ->
  (length (filter p l) <= length (filter q l))%nat.
Proof.
  intro H. induction l as [|a l IH]; cbn; [lia|].
  destruct (p a) eqn:Ep.
  - rewrite (H a Ep). cbn. lia.
  - destruct (q a); cbn; lia.
Qed.

Lemma filter_length_lt {A : Type} (p q : A -> bool) (l : list A) (x : A) :
  (forall a, p a = true -> q a = true) ->
  In x l -> p x = false -> q x = true ->
  (length (filter p l) < length (filter q l))%nat.
Proof.
  intros H Hin Hp Hq. induction l as [|a l IH]; [destruct Hin|]. cbn.
  destruct Hin as [->|Hin].
  - rewrite Hp, Hq. cbn. pose proof (filter_length_le p q l H). lia.
  - specialize (IH Hin). destruct (p a) eqn:Ep.
    + rewrite (H a Ep). cbn. lia.
    + destruct (q a); cbn; lia.
Qed.

Lemma sget_key {V : Type} (m : SMap V) (k : string) (v : V) :
  sget m k = Some v -> In k (map fst m).
Proof.
  unfold sget. induction m as [|[k' v'] m IH]; cbn; [discriminate|].
  destruct (String.eqb k' k) eqn:E; [apply String.eqb_eq in E; auto|auto].
Qed.

Section LevelsReturn.
Variable children : SMap (list string).

Lemma unvisitedKeys_le (v v' : SSet) :
  (forall k, set_has v k = true -> set_has v' k = true) ->
  (unvisitedKeys children v' <= unvisitedKeys children v)%nat.
Proof.
  intro H. apply filter_length_le. intros k Hk.
  rewrite negb_true_iff in *. destruct (set_has v k) eqn:E; [|reflexivity].
  rewrite (H k E) in Hk. discriminate.
Qed.

Lemma calculateLevels_returns (fuel : nat) : forall st nodeId lvl,
  (unvisitedKeys children (fst st) < fuel)%nat ->
  exists st',
    calculateLevels children fuel st nodeId lvl = Some st'
    /\ set_has (fst st') nodeId = true
    /\ forall k, set_has (fst st) k = true -> set_has (fst st') k = true.
Proof.
  induction fuel as [|fuel IH]; intros st nodeId lvl Hlt; [lia|].
  cbn [calculateLevels]. destruct (set_has (fst st) nodeId) eqn:Ev.
  - exists st. auto.
  - set (st1 := (set_add (fst st) nodeId, sset (snd st) nodeId lvl)).
    assert (Hmono1 : forall k, set_has (fst st) k = true -> set_has (fst st1) k = true).
    { intros k Hk. unfold st1. cbn [fst]. rewrite set_has_add, Hk. apply orb_true_r. }
    assert (Hself : set_has (fst st1) nodeId = true).
    { unfold st1. cbn [fst]. rewrite set_has_add, String.eqb_refl. reflexivity. }
    assert (Hloop : forall kids s1,
              (unvisitedKeys children (fst s1) < fuel)%nat ->
              exists s',
                foldM (fun acc child => calculateLevels children fuel acc child (lvl + 1))
                      kids s1 = Some s'
                /\ forall k, set_has (fst s1) k = true -> set_has (fst s') k = true).
    { induction kids as [|c kids IHk]; intros s1 Hs1; cbn [foldM].
      - exists s1. auto.
      - destruct (IH s1 c (lvl + 1) Hs1) as [s2 [Hc [_ Hm]]].
        rewrite Hc. cbn [bind].
        destruct (IHk s2) as [s' [Hf Hm']].
        { pose proof (unvisitedKeys_le (fst s1) (fst s2) Hm). lia. }
        exists s'. split; [exact Hf|]. intros k Hk. apply Hm', Hm, Hk. }
    destruct (kids_of children nodeId) as [|c kids] eqn:Ek.
    + exists st1. cbn [foldM]. auto.
    + destruct (Hloop (c :: kids) st1) as [s' [Hf Hm]].
      { assert (Hin : In nodeId (map fst children)).
        { unfold kids_of, nullish in Ek.
          destruct (sget children nodeId) as [l|] eqn:Es; [|discriminate].
          eapply sget_key. exact Es. }
        assert (unvisitedKeys children (fst st1) < unvisitedKeys children (fst st))%nat.
        { apply (filter_length_lt _ _ _ nodeId).
          - intros k Hk. rewrite negb_true_iff in *.
            destruct (set_has (fst st) k) eqn:E; [|reflexivity].
            rewrite (Hmono1 k E) in Hk. discriminate.
          - exact Hin.
          - rewrite Hself. reflexivity.
          - rewrite Ev. reflexivity. }
        lia. }
      exists s'. split; [exact Hf|]. split; [apply Hm; exact Hself|].
      intros k Hk. apply Hm, Hmono1, Hk.
Qed.

(** X17: on every adjacency map, cyclic or not, the level computation
    returns within a recursion depth of one more than the number of keys of
    the map; it marks the start node visited and forgets no visited node. *)
Theorem calculateLevels_terminates (st : SSet * SMap Q) (nodeId : string) (lvl : Q) :
  exists st',
    calculateLevels children (S (length children)) st nodeId lvl = Some st'
    /\ set_has (fst st') nodeId = true
    /\ forall k, set_has (fst st) k = true -> set_has (fst st') k = true.
Proof.
  apply calculateLevels_returns.
  unfold unvisitedKeys.
  pose proof (filter_length_le (fun k => negb (set_has (fst st) k)) (fun _ => true)
                (map fst children) (fun _ _ => eq_refl)) as H.
  assert (Hall : forall (l : list string), filter (fun _ => true) l = l)
    by (induction l as [|a l IHl]; cbn; [|rewrite IHl]; reflexivity).
  rewrite Hall, length_map in H. lia.
Qed.
End LevelsReturn.

(** ** Node lookup *)

(** X18: the node map of the horizontal pass answers an id with the last
    node that carries it, whereas the lookup of the radial pass,
    [nodes.find], answers with the first; the two agree when ids are
    distinct. *)
Theorem nodeMapOf_last_find_first (nodes : list Node) (k : string) :
  sget (nodeMapOf nodes) k = find (fun n => String.eqb (id n) k) (rev nodes)
  /\ find_node nodes k = find (fun n => String.eqb (id n) k) nodes
  /\ (NoDup (map id nodes) -> sget (nodeMapOf nodes) k = find_node nodes k).
Proof.
  assert (Hlast : forall l, sget (nodeMapOf l) k = find (fun n => String.eqb (id n) k) (rev l)).
  { unfold nodeMapOf. induction l as [|n l IH] using rev_ind; [reflexivity|].
    rewrite fold_left_app, rev_app_distr. cbn [fold_left rev app find].
    destruct (String.eqb (id n) k) eqn:E.
    - apply String.eqb_eq in E. subst k. apply sget_sset_same.
    - rewrite sget_sset_other; [exact IH|].
      intro Heq. subst. rewrite String.eqb_refl in E. discriminate. }
  split; [apply Hlast|]. split; [reflexivity|].
  intro Hnd. rewrite Hlast. unfold find_node.
  induction nodes as [|n nodes IH]; [reflexivity|].
  inversion Hnd as [|? ? Hn Hnd']; subst. cbn [rev find].
  assert (Happ : forall (l1 l2 : list Node),
            find (fun n => String.eqb (id n) k) (l1 ++ l2)
            = match find (fun n => String.eqb (id n) k) l1 with
              | Some x => Some x
              | None => find (fun n => String.eqb (id n) k) l2
              end).
  { induction l1 as [|a l1 IHl]; intro l2; cbn; [reflexivity|].
    destruct (String.eqb (id a) k); [reflexivity|apply IHl]. }
  rewrite Happ, (IH Hnd'). cbn [find].
  destruct (String.eqb (id n) k) eqn:E.
  - apply String.eqb_eq in E. subst k.
    destruct (find (fun n0 => String.eqb (id n0) (id n)) nodes) as [m|] eqn:Ef;
      [|reflexivity].
    exfalso. apply find_some in Ef. destruct Ef as [Hin Heq].
    apply String.eqb_eq in Heq. apply Hn. rewrite <- Heq. apply in_map. exact Hin.
  - destruct (find (fun n0 => String.eqb (id n0) k) nodes); reflexivity.
Qed.

(** X19: every root [findRootNodes] returns is one of the input nodes, and
    the result is empty only for an empty node list. *)
Theorem findRootNodes_within_nodes (nodes : list Node) (edges : list Edge) :
  incl (findRootNodes nodes edges) nodes
  /\ (findRootNodes nodes edges = [] <-> nodes = []).
Proof.
  unfold findRootNodes.
  destruct (filter (fun n => negb (set_has (map target edges) (id n))) nodes)
    as [|r roots] eqn:E.
  - destruct nodes as [|n0 nodes'].
    + split; [intros x []|tauto].
    + split; [intros x [<-|[]]; left; reflexivity|]. split; discriminate.
  - split.
    + intros x Hx. rewrite <- E in Hx. apply filter_In in Hx. tauto.
    + split; [discriminate|]. intros ->. discriminate.
Qed.

(** ** A graph without edges, laid out horizontally *)

Lemma placeOrphans_lookup nodes st n :
  In n nodes ->
  sget (positions (placeOrphans nodes st)) (id n)
  = if shas (positions st) (id n) then sget (positions st) (id n)
    else Some {| px := rootX + 500; py := rootY |}.
Proof.
  intro Hin. destruct (shas (positions st) (id n)) eqn:E.
  - apply (placeOrphans_keeps nodes st (id n) E).
  - apply (placeOrphans_fallback nodes st n Hin E).
Qed.

Lemma placeOrphans_handles_default nodes : forall st,
  Forall (fun kv => snd kv = defaultHandles) (handlePositions st) ->
  Forall (fun kv => snd kv = defaultHandles) (handlePositions (placeOrphans nodes st)).
Proof.
  induction nodes as [|m nodes IH]; intros st Hst; [exact Hst|].
  rewrite placeOrphans_cons. destruct (shas (positions st) (id m)); [apply IH; exact Hst|].
  apply IH. cbn [handlePositions].
  apply (sset_Forall (fun h => h = defaultHandles)); [exact Hst|reflexivity].
Qed.

Lemma horizontalTraversal_no_edges fuel n0 rest :
  horizontalTraversal fuel (n0 :: rest) [] n0
  = Some {| positions := [(id n0, {| px := rootX; py := rootY |})];
            handlePositions := [(id n0, defaultHandles)] |}.
Proof.
  unfold horizontalTraversal. cbv zeta.
  assert (Hk : kids_of (t_children (buildTree (n0 :: rest) [])) (id n0) = []).
  { unfold kids_of.
    change (t_children (buildTree (n0 :: rest) []))
      with (fold_left (fun c n => sset c (id n) (@nil string)) (n0 :: rest) []).
    rewrite children_init. destruct (set_has _ _); reflexivity. }
  rewrite Hk. cbn [splitRootChildren foldi_from layoutSide bind centerRoot app].
  cbn [positions handlePositions foldM bind]. reflexivity.
Qed.

(** X20: with no edges at all the horizontal pass returns for every
    budget: the first node is the root, centred on (800, 500); every node
    with another id is centred on the same fallback point (1300, 500), so
    these nodes coincide; all get the default anchors. *)
Theorem horizontalLayout_no_edges (fuel : nat) (n0 : Node) (rest : list Node) :
  horizontalLayout fuel (n0 :: rest) []
  = Some (map (fun n =>
                 let size := getNodeSize (nodeMapOf (n0 :: rest)) (id n) in
                 let cx := if String.eqb (id n0) (id n) then rootX else rootX + 500 in
                 place n defaultHandles
                   {| px := cx - width size / 2; py := rootY - height size / 2 |})
              (n0 :: rest),
          []).
Proof.
  unfold horizontalLayout.
  assert (Hroot : horizontalRoot (n0 :: rest) [] = Some n0) by reflexivity.
  rewrite Hroot. unfold horizontalPlacement. rewrite horizontalTraversal_no_edges.
  cbn [bind map]. f_equal. f_equal.
  set (st0 := {| positions := [(id n0, {| px := rootX; py := rootY |})];
                 handlePositions := [(id n0, defaultHandles)] |}).
  assert (Hd : Forall (fun kv => snd kv = defaultHandles)
                      (handlePositions (placeOrphans (n0 :: rest) st0))).
  { apply placeOrphans_handles_default. constructor; [reflexivity|constructor]. }
  assert (Hnode : forall n, In n (n0 :: rest) ->
            newNode_h (nodeMapOf (n0 :: rest)) (placeOrphans (n0 :: rest) st0) n
            = place n defaultHandles
                {| px := (if String.eqb (id n0) (id n) then rootX else rootX + 500)
                         - width (getNodeSize (nodeMapOf (n0 :: rest)) (id n)) / 2;
                   py := rootY - height (getNodeSize (nodeMapOf (n0 :: rest)) (id n)) / 2 |}).
  { intros n Hin. unfold newNode_h. rewrite (placeOrphans_lookup _ st0 n Hin).
    assert (Hh : nullish (sget (handlePositions (placeOrphans (n0 :: rest) st0)) (id n))
                         defaultHandles = defaultHandles).
    { destruct (sget (handlePositions (placeOrphans (n0 :: rest) st0)) (id n)) as [h|] eqn:E;
        [|reflexivity].
      cbn [nullish]. exact (sget_Forall (fun h => h = defaultHandles) _ _ _ Hd E). }
    rewrite Hh. unfold st0, shas, mhas, sget. cbn [positions mget].
    destruct (String.eqb (id n0) (id n)); reflexivity. }
  change (map (newNode_h (nodeMapOf (n0 :: rest)) (placeOrphans (n0 :: rest) st0)) (n0 :: rest)
          = map (fun n =>
                   place n defaultHandles
                     {| px := (if String.eqb (id n0) (id n) then rootX else rootX + 500)
                              - width (getNodeSize (nodeMapOf (n0 :: rest)) (id n)) / 2;
                        py := rootY
                              - height (getNodeSize (nodeMapOf (n0 :: rest)) (id n)) / 2 |})
                (n0 :: rest)).
  apply map_ext_in. exact Hnode.
Qed.

(** ** When the unguarded recursions return *)

Lemma isSome_bind {A B : Type} (a : option A) (k : A -> option B) :
  isSome (bind a k) = match a with Some v => isSome (k v) | None => false end.
Proof. destruct a; reflexivity. Qed.

Lemma foldMi_from_isSome {A St : Type} (f : St -> A -> nat -> option St) (ok : A -> bool) :
  (forall s a i, isSome (f s a i) = ok a) ->
  forall l i s, isSome (foldMi_from f i l s) = forallb ok l.
Proof.
  intros Hf l. induction l as [|a l IH]; intros i s; cbn; [reflexivity|].
  specialize (Hf s a i). destruct (f s a i) as [s'|]; cbn in *.
  - rewrite <- Hf. cbn. apply IH.
  - rewrite <- Hf. reflexivity.
Qed.

Lemma foldM_isSome {A St : Type} (f : St -> A -> option St) (ok : A -> bool) :
  (forall s a, isSome (f s a) = ok a) ->
  forall l s, isSome (foldM f l s) = forallb ok l.
Proof.
  intros Hf l. induction l as [|a l IH]; intro s; cbn; [reflexivity|].
  specialize (Hf s a). destruct (f s a) as [s'|]; cbn in *.
  - rewrite <- Hf. cbn. apply IH.
  - rewrite <- Hf. reflexivity.
Qed.

Lemma mapM_isSome {A B : Type} (f : A -> option B) (l : list A) :
  isSome (mapM f l) = forallb (fun a => isSome (f a)) l.
Proof.
  induction l as [|a l IH]; cbn; [reflexivity|].
  destruct (f a) as [b|]; cbn; [|reflexivity].
  rewrite <- IH. destruct (mapM f l); reflexivity.
Qed.

Lemma forallb_ext_all {A : Type} (p q : A -> bool) (l : list A) :
  (forall a, p a = q a) -> forallb p l = forallb q l.
Proof. intro H. induction l as [|a l IH]; cbn; [reflexivity|]. rewrite H, IH. reflexivity. Qed.

Lemma unfolds_mono children (fuel : nat) : forall fuel' p,
  (fuel <= fuel')%nat -> unfolds children fuel p = true -> unfolds children fuel' p = true.
Proof.
  induction fuel as [|fuel IH]; intros fuel' p Hle H; [discriminate|].
  destruct fuel' as [|fuel']; [lia|]. cbn [unfolds] in *.
  rewrite forallb_forall in *. intros k Hk. apply IH; [lia|]. apply H. exact Hk.
Qed.

Lemma unfolds_kid children fuel p k :
  unfolds children fuel p = true -> In k (kids_of children p) ->
  unfolds children fuel k = true.
Proof.
  destruct fuel as [|fuel]; [discriminate|]. intros H Hk.
  cbn [unfolds] in H. rewrite forallb_forall in H.
  apply (unfolds_mono children fuel); [lia|]. apply H. exact Hk.
Qed.

Section Returns.
Variable children : SMap (list string).
Variable nodeMap : SMap Node.

Lemma calcSubtreeHeight_isSome (fuel : nat) : forall p,
  isSome (calcSubtreeHeight children nodeMap fuel p) = unfolds children fuel p.
Proof.
  induction fuel as [|fuel IH]; intro p; [reflexivity|].
  cbn [calcSubtreeHeight unfolds].
  destruct (kids_of children p) as [|k kids] eqn:Ek; [reflexivity|].
  rewrite isSome_bind.
  match goal with
  | |- context [foldMi_from ?f ?i ?l ?s] =>
      pose proof (foldMi_from_isSome f (unfolds children fuel)) as Hf
  end.
  match type of Hf with
  | ?P -> _ => assert (Hstep : P)
  end.
  { intros s a i. rewrite isSome_bind. rewrite <- IH.
    destruct (calcSubtreeHeight children nodeMap fuel a); reflexivity. }
  specialize (Hf Hstep (k :: kids) 0%nat 0). rewrite <- Hf.
  match goal with |- context [foldMi_from ?f ?i ?l ?s] => destruct (foldMi_from f i l s) end;
    reflexivity.
Qed.

Lemma initialLayout_isSome (fuel : nat) : forall st p x y side,
  isSome (initialLayout children nodeMap fuel st p x y side) = unfolds children fuel p.
Proof.
  induction fuel as [|fuel IH]; intros st p x y side; [reflexivity|].
  cbn [initialLayout unfolds].
  destruct (kids_of children p) as [|k kids] eqn:Ek; [reflexivity|].
  rewrite isSome_bind.
  pose proof (mapM_isSome (calcSubtreeHeight children nodeMap fuel) (k :: kids)) as Hm.
  rewrite (forallb_ext_all _ (unfolds children fuel) _ (calcSubtreeHeight_isSome fuel)) in Hm.
  destruct (mapM (calcSubtreeHeight children nodeMap fuel) (k :: kids)) as [hs|];
    cbn [isSome] in Hm; [|exact Hm].
  rewrite isSome_bind.
  match goal with
  | |- context [foldMi_from ?f ?i ?l ?s] =>
      pose proof (foldMi_from_isSome f (unfolds children fuel)) as Hf;
      match type of Hf with
      | ?P -> _ => assert (Hstep : P)
      end
  end.
  { intros [s cy] a i. rewrite isSome_bind. rewrite <- (IH s a (x + side_step side)
                                                          (cy + nth i hs 0 / 2) side).
    destruct (initialLayout children nodeMap fuel s a _ _ side); reflexivity. }
  match goal with
  | |- context [foldMi_from ?f ?i ?l ?s] =>
      specialize (Hf Hstep l i s); destruct (foldMi_from f i l s)
  end; exact Hf.
Qed.

Lemma moveSubtreeHorizontally_isSome (fuel : nat) : forall ps p dx,
  isSome (moveSubtreeHorizontally children fuel ps p dx) = unfolds children fuel p.
Proof.
  induction fuel as [|fuel IH]; intros ps p dx; [reflexivity|].
  cbn [moveSubtreeHorizontally unfolds].
  apply foldM_isSome. intros s a. apply IH.
Qed.

Lemma positionChildren_isSome M nodes (fuel : nat) : forall levels st p a0 a1,
  isSome (positionChildren M nodes children fuel levels st p a0 a1)
  = unfolds children fuel p.
Proof.
  induction fuel as [|fuel IH]; intros levels st p a0 a1; [reflexivity|].
  cbn [positionChildren unfolds].
  destruct (kids_of children p) as [|k kids] eqn:Ek; [reflexivity|].
  apply foldMi_from_isSome.
  intros [[ps hs] angles] a i. rewrite isSome_bind.
  match goal with
  | |- context [positionChildren M nodes children fuel ?l ?s ?q ?b0 ?b1] =>
      rewrite <- (IH l s q b0 b1);
      destruct (positionChildren M nodes children fuel l s q b0 b1)
  end; reflexivity.
Qed.
End Returns.

(** X21: each of the four recursions that carry no visited-set returns
    within a given recursion depth exactly when the part of the graph below
    its start node unfolds completely within that depth; whether it returns
    depends on nothing else (not on sizes, positions or angles). *)
Theorem unguarded_recursions_return_iff_unfolds (M : MathLib) (nodes : list Node)
  (children : SMap (list string)) (nodeMap : SMap Node) (fuel : nat) (p : string)
  st ps hs levels x y side dx a0 a1 :
  isSome (calcSubtreeHeight children nodeMap fuel p) = unfolds children fuel p
  /\ isSome (initialLayout children nodeMap fuel st p x y side) = unfolds children fuel p
  /\ isSome (moveSubtreeHorizontally children fuel ps p dx) = unfolds children fuel p
  /\ isSome (positionChildren M nodes children fuel levels (ps, hs) p a0 a1)
     = unfolds children fuel p.
Proof.
  split; [apply calcSubtreeHeight_isSome|].
  split; [apply initialLayout_isSome|].
  split; [apply moveSubtreeHorizontally_isSome|].
  apply positionChildren_isSome.
Qed.

(** ** The horizontal pass returns on every graph without a cycle below the root *)

Lemma foldMi_from_returns {A St : Type} (I : St -> Prop) (f : St -> A -> nat -> option St)
  (l : list A) :
  (forall s a i, In a l -> I s -> exists s', f s a i = Some s' /\ I s') ->
  forall i s, I s -> exists s', foldMi_from f i l s = Some s' /\ I s'.
Proof.
  induction l as [|a l IH]; intros Hf i s Hs; cbn [foldMi_from].
  - exists s. auto.
  - destruct (Hf s a i (or_introl eq_refl) Hs) as [s1 [H1 Hs1]].
    rewrite H1. cbn [bind]. apply IH; [|exact Hs1].
    intros s0 a0 i0 Hin. apply Hf. right. exact Hin.
Qed.

Lemma foldM_returns {A St : Type} (I : St -> Prop) (f : St -> A -> option St) (l : list A) :
  (forall s a, In a l -> I s -> exists s', f s a = Some s' /\ I s') ->
  forall s, I s -> exists s', foldM f l s = Some s' /\ I s'.
Proof.
  induction l as [|a l IH]; intros Hf s Hs; cbn [foldM].
  - exists s. auto.
  - destruct (Hf s a (or_introl eq_refl) Hs) as [s1 [H1 Hs1]].
    rewrite H1. cbn [bind]. apply IH; [|exact Hs1].
    intros s0 a0 Hin. apply Hf. right. exact Hin.
Qed.

Lemma isSome_true {A : Type} (a : option A) : isSome a = true -> exists v, a = Some v.
Proof. destruct a as [v|]; [exists v; reflexivity|discriminate]. Qed.

Section HorizontalReturns.
Variable children : SMap (list string).
Variable parent : SMap string.
Variable nodeMap : SMap Node.
Variable budget : nat.

Lemma keysUnfold_sset ps k v :
  keysUnfold children budget ps -> unfolds children budget k = true ->
  keysUnfold children budget (sset ps k v).
Proof.
  intros Hps Hk k0. rewrite shas_sset. destruct (String.eqb k k0) eqn:E.
  - apply String.eqb_eq in E. subst. intros _. exact Hk.
  - cbn [orb]. apply Hps.
Qed.

Lemma heights_return (fuel : nat) (kids : list string) :
  forallb (unfolds children fuel) kids = true ->
  exists hs, mapM (calcSubtreeHeight children nodeMap fuel) kids = Some hs.
Proof.
  intro H. apply isSome_true. rewrite mapM_isSome.
  rewrite (forallb_ext_all _ (unfolds children fuel) _
             (calcSubtreeHeight_isSome children nodeMap fuel)).
  exact H.
Qed.

Lemma initialLayout_returns (fuel : nat) : forall st p x y side,
  (fuel <= budget)%nat ->
  unfolds children fuel p = true ->
  keysUnfold children budget (positions st) ->
  exists r, initialLayout children nodeMap fuel st p x y side = Some r
            /\ keysUnfold children budget (positions (fst r)).
Proof.
  induction fuel as [|fuel IH]; intros st p x y side Hle Hp Hst; [discriminate|].
  cbn [initialLayout].
  assert (Hst1 : keysUnfold children budget (sset (positions st) p {| px := x; py := y |})).
  { apply keysUnfold_sset; [exact Hst|].
    apply (unfolds_mono children (S fuel)); [exact Hle|exact Hp]. }
  cbn [unfolds] in Hp.
  destruct (kids_of children p) as [|k kids] eqn:Ek.
  - eexists. split; [reflexivity|]. exact Hst1.
  - destruct (heights_return fuel (k :: kids) Hp) as [hs Hhs].
    rewrite Hhs. cbn [bind].
    match goal with
    | |- context [foldMi_from ?f ?i0 ?l ?s0] =>
        pose proof (fun H =>
                      foldMi_from_returns
                        (fun acc : Placement * Q =>
                           keysUnfold children budget (positions (fst acc))) f l H i0 s0)
          as HR
    end.
    destruct HR as [acc [Hf Hacc]].
    + intros [s cy] a i Hin Hs. rewrite forallb_forall in Hp.
      destruct (IH s a (x + side_step side) (cy + nth i hs 0 / 2) side) as [r [Hr Hk]];
        [lia|apply Hp; exact Hin|exact Hs|].
      rewrite Hr. cbn [bind]. eexists. split; [reflexivity|]. exact Hk.
    + exact Hst1.
    + rewrite Hf. cbn [bind]. eexists. split; [reflexivity|]. exact Hacc.
Qed.

Lemma layoutSide_returns st kids side :
  (forall c, In c kids -> unfolds children budget c = true) ->
  keysUnfold children budget (positions st) ->
  exists st', layoutSide children nodeMap budget st kids side = Some st'
              /\ keysUnfold children budget (positions st').
Proof.
  intros Hkids Hst. unfold layoutSide. destruct kids as [|k kids].
  - exists st. auto.
  - assert (Hall : forallb (unfolds children budget) (k :: kids) = true)
      by (apply forallb_forall; exact Hkids).
    destruct (heights_return budget (k :: kids) Hall) as [hs Hhs].
    rewrite Hhs. cbn [bind].
    match goal with
    | |- context [foldMi_from ?f ?i0 ?l ?s0] =>
        pose proof (fun H =>
                      foldMi_from_returns
                        (fun acc : Placement * Q =>
                           keysUnfold children budget (positions (fst acc))) f l H i0 s0)
          as HR
    end.
    destruct HR as [acc [Hf Hacc]].
    + intros [s cy] a i Hin Hs.
      destruct (initialLayout_returns budget s a (rootX + side_step side)
                  (cy + nth i hs 0 / 2) side) as [r [Hr Hk]];
        [lia|apply Hkids; exact Hin|exact Hs|].
      rewrite Hr. cbn [bind]. eexists. split; [reflexivity|]. exact Hk.
    + exact Hst.
    + rewrite Hf. cbn [bind]. eexists. split; [reflexivity|]. exact Hacc.
Qed.

Lemma getNodeBounds_shas ps k b : getNodeBounds nodeMap ps k = Some b -> shas ps k = true.
Proof.
  unfold getNodeBounds, shas, mhas. fold (sget ps k).
  destruct (sget ps k); [reflexivity|discriminate].
Qed.

Lemma nudgeLoop_returns (iters : nat) : forall ps parentId childId,
  keysUnfold children budget ps ->
  exists ps', nudgeLoop children nodeMap iters budget ps parentId childId = Some ps'
              /\ keysUnfold children budget ps'.
Proof.
  induction iters as [|iters IH]; intros ps parentId childId Hps; cbn [nudgeLoop].
  - exists ps. auto.
  - destruct (getNodeBounds nodeMap ps parentId) as [pb|]; [|exists ps; auto].
    destruct (getNodeBounds nodeMap ps childId) as [cb|] eqn:Ec; [|exists ps; auto].
    destruct (boundsOverlap pb cb 40); [|exists ps; auto].
    match goal with
    | |- context [moveSubtreeHorizontally children budget ps childId ?dx] =>
        destruct (isSome_true (moveSubtreeHorizontally children budget ps childId dx))
          as [ps1 H1]
    end.
    { rewrite moveSubtreeHorizontally_isSome. apply Hps.
      eapply getNodeBounds_shas. exact Ec. }
    rewrite H1. cbn [bind]. apply IH.
    intros k Hk. apply Hps. rewrite <- Hk. symmetry.
    eapply moveSubtreeHorizontally_keys. exact H1.
Qed.
End HorizontalReturns.

Lemma splitRootChildren_within nodes edges rootNode kids c :
  In c (fst (splitRootChildren nodes edges rootNode kids)
        ++ snd (splitRootChildren nodes edges rootNode kids)) -> In c kids.
Proof.
  destruct (splitRootChildren_from nodes edges rootNode kids 0 [] [])
    as [l [r [Hf [Hp _]]]].
  assert (Heq : splitRootChildren nodes edges rootNode kids = (l, r)) by exact Hf.
  rewrite Heq. cbn [fst snd]. apply (Permutation_in _ (Permutation_sym Hp)).
Qed.

(** the horizontal pass returns whenever the part of the graph below its
    root unfolds within the recursion budget *)
Lemma horizontalLayout_returns_unfolds (fuel : nat) (nodes : list Node) (edges : list Edge)
  (root : Node) :
  horizontalRoot nodes edges = Some root ->
  unfolds (t_children (buildTree nodes edges)) fuel (id root) = true ->
  exists outN outE, horizontalLayout fuel nodes edges = Some (outN, outE).
Proof.
  intros Hroot Hunf. unfold horizontalLayout, horizontalPlacement. rewrite Hroot.
  assert (Htrav : exists st, horizontalTraversal fuel nodes edges root = Some st).
  { unfold horizontalTraversal. cbv zeta.
    set (children := t_children (buildTree nodes edges)) in *.
    pose proof (splitRootChildren_within nodes edges root (kids_of children (id root)))
      as Hin.
    destruct (splitRootChildren nodes edges root (kids_of children (id root)))
      as [lefts rights].
    cbn [fst snd] in Hin.
    assert (Hkid : forall c, In c (lefts ++ rights) -> unfolds children fuel c = true).
    { intros c Hc. apply (unfolds_kid children fuel (id root)); [exact Hunf|].
      apply Hin. exact Hc. }
    assert (H0 : keysUnfold children fuel
                   (sset [] (id root) {| px := rootX; py := rootY |})).
    { apply keysUnfold_sset; [intros k Hk; discriminate|exact Hunf]. }
    destruct (layoutSide_returns children (nodeMapOf nodes) fuel
                {| positions := sset [] (id root) {| px := rootX; py := rootY |};
                   handlePositions := sset [] (id root) defaultHandles |} lefts ToLeft)
      as [st1 [H1 Hk1]];
      [intros c Hc; apply Hkid, in_or_app; left; exact Hc|exact H0|].
    rewrite H1. cbn [bind].
    destruct (layoutSide_returns children (nodeMapOf nodes) fuel st1 rights ToRight)
      as [st2 [H2 Hk2]];
      [intros c Hc; apply Hkid, in_or_app; right; exact Hc|exact Hk1|].
    rewrite H2. cbn [bind].
    match goal with
    | |- context [foldM ?f edges ?s0] =>
        pose proof (fun H => foldM_returns (keysUnfold children fuel) f edges H s0) as HR
    end.
    destruct HR as [ps5 [H5 _]].
    - intros s e _ Hs. apply nudgeLoop_returns. exact Hs.
    - intros k Hk.
      rewrite (shas_xProfile _ _ k (resolveOverlaps_x _ _ _ _)) in Hk.
      unfold centerRoot in Hk.
      destruct (lefts ++ rights); [apply Hk2; exact Hk|].
      destruct (fold_left (extendY (nodeMapOf nodes) (positions st2)) rights
                  (fold_left (extendY (nodeMapOf nodes) (positions st2)) lefts (None, None)))
        as [[minY|] [maxY|]]; try (apply Hk2; exact Hk).
      revert Hk. apply keysUnfold_sset; [exact Hk2|exact Hunf].
    - rewrite H5. cbn [bind]. eexists. reflexivity. }
  destruct Htrav as [st Hst]. rewrite Hst. cbn [bind]. eexists. eexists. reflexivity.
Qed.

(** ** The radial pass returns on every graph without a cycle below a root *)

Lemma unvisitedKeys_bound (children : SMap (list string)) (visited : SSet) :
  (unvisitedKeys children visited <= length children)%nat.
Proof.
  unfold unvisitedKeys.
  pose proof (filter_length_le (fun k => negb (set_has visited k)) (fun _ => true)
                (map fst children) (fun _ _ => eq_refl)) as H.
  assert (Hall : forall (l : list string), filter (fun _ => true) l = l)
    by (induction l as [|a l IHl]; cbn; [|rewrite IHl]; reflexivity).
  rewrite Hall, length_map in H. exact H.
Qed.

Lemma layoutTree_returns M nodes children fuel st rootId x y :
  (length children < fuel)%nat ->
  unfolds children fuel rootId = true ->
  exists st', layoutTree M nodes children fuel st rootId x y = Some st'.
Proof.
  intros Hlen Hunf. unfold layoutTree.
  destruct (calculateLevels_returns children fuel (r_visited st, []) rootId 0)
    as [[visited levels] [Hc _]].
  { eapply Nat.le_lt_trans; [apply unvisitedKeys_bound|exact Hlen]. }
  rewrite Hc. cbn [bind].
  match goal with
  | |- context [positionChildren M nodes children fuel ?l ?s ?p ?a0 ?a1] =>
      destruct (isSome_true (positionChildren M nodes children fuel l s p a0 a1))
        as [[[ps hs] angles] Hp]
  end.
  { rewrite positionChildren_isSome. exact Hunf. }
  rewrite Hp. cbn [bind]. eexists. reflexivity.
Qed.

(** the radial pass returns whenever the recursion budget exceeds the number
    of entries of the child map and the part of the graph below every
    detected root unfolds within it *)
Lemma radialLayout_returns_unfolds (M : MathLib) (fuel : nat) (nodes : list Node)
  (edges : list Edge) :
  (length (t_children (buildTree nodes edges)) < fuel)%nat ->
  (forall r, In r (findRootNodes nodes edges) ->
     unfolds (t_children (buildTree nodes edges)) fuel (id r) = true) ->
  exists outN, radialLayout M fuel nodes edges = Some outN.
Proof.
  intros Hlen Hroots. unfold radialLayout. destruct nodes as [|n0 nodes'].
  - eexists. reflexivity.
  - unfold radialTraversal, layoutRoots.
    match goal with
    | |- context [foldM ?f ?l ?s0] =>
        pose proof (fun H => foldM_returns (fun _ : RadialState * Q => True) f l H s0 I)
          as HR
    end.
    destruct HR as [[st off] [Hf _]].
    + intros [s o] r Hin _.
      destruct (layoutTree_returns M (n0 :: nodes')
                  (t_children (buildTree (n0 :: nodes') edges)) fuel s (id r)
                  (o + 600) 600 Hlen (Hroots r Hin)) as [st' Hl].
      cbn [fst snd]. rewrite Hl. cbn [bind]. eexists. split; [reflexivity|exact I].
    + rewrite Hf. cbn [bind]. eexists. reflexivity.
Qed.

(** ** Initial radial placement of a tree *)

Lemma below_closed children (fuel : nat) : forall p u v,
  unfolds children fuel p = true ->
  In u (p :: below children fuel p) -> In v (kids_of children u) ->
  In v (below children fuel p).
Proof.
  induction fuel as [|fuel IH]; intros p u v Hunf Hu Hv; [discriminate|].
  cbn [unfolds below] in *. rewrite forallb_forall in Hunf.
  apply in_flat_map. destruct Hu as [<-|Hu].
  - exists v. split; [exact Hv|left; reflexivity].
  - apply in_flat_map in Hu. destruct Hu as [k [Hk Hin]].
    exists k. split; [exact Hk|]. right.
    apply (IH k u v (Hunf k Hk) Hin Hv).
Qed.

Lemma NoDup_app_disjoint {A : Type} (l1 l2 : list A) (x : A) :
  NoDup (l1 ++ l2) -> In x l1 -> In x l2 -> False.
Proof.
  induction l1 as [|a l1 IH]; cbn; intros Hnd H1 H2; [destruct H1|].
  inversion Hnd as [|? ? Ha Hnd']; subst. destruct H1 as [<-|H1].
  - apply Ha. apply in_or_app. right. exact H2.
  - exact (IH Hnd' H1 H2).
Qed.

Lemma NoDup_app_l {A : Type} (l1 l2 : list A) : NoDup (l1 ++ l2) -> NoDup l1.
Proof.
  induction l1 as [|a l1 IH]; cbn; intro H; [constructor|].
  inversion H as [|? ? Ha Hnd]; subst. constructor; [|apply IH; exact Hnd].
  intro Hin. apply Ha. apply in_or_app. left. exact Hin.
Qed.

Lemma NoDup_app_r {A : Type} (l1 l2 : list A) : NoDup (l1 ++ l2) -> NoDup l2.
Proof.
  induction l1 as [|a l1 IH]; cbn; intro H; [exact H|].
  inversion H; subst. apply IH. assumption.
Qed.

Lemma distance2_ringPoint (M : MathLib) (p : Point) (r angle : Q) :
  distance2 p (ringPoint M p r angle)
  == r * r * (cos M angle * cos M angle + sin M angle * sin M angle).
Proof.
  unfold distance2, ringPoint. cbn [px py].
  generalize (cos M angle) (sin M angle). intros c s. ring.
Qed.

Section Rings.
Variable M : MathLib.
Variable nodes : list Node.
Variable children : SMap (list string).
Variable levels : SMap Q.

Lemma onRing_frame ps ps' u v :
  sget ps' u = sget ps u -> sget ps' v = sget ps v ->
  onRing M nodes children levels ps u v -> onRing M nodes children levels ps' u v.
Proof.
  intros Hu Hv [pu [angle [H1 H2]]]. exists pu, angle. rewrite Hu, Hv. auto.
Qed.

(** the loop over the children [l] of one parent placed at [pp], for a loop
    body that puts the child on the parent's ring and then recurses *)
Lemma ring_loop (fuel : nat) (p : string) (pp : Point)
  (step : SMap Point * SMap Handles * list Q -> string -> nat
          -> option (SMap Point * SMap Handles * list Q)) :
  (forall c ps ps', NoDup (c :: below children fuel c) ->
     (exists pc, sget ps c = Some pc) ->
     (exists hs a0 a1 r, positionChildren M nodes children fuel levels (ps, hs) c a0 a1 = Some r
                         /\ fst (fst r) = ps') ->
     ringsBelow M nodes children levels fuel c ps ps') ->
  (forall ps hs angles c i acc',
     step (ps, hs, angles) c i = Some acc' ->
     exists angle hs' a0 a1 r,
       positionChildren M nodes children fuel levels
         (sset ps c (ringPoint M pp (ringRadius nodes children levels p) angle), hs')
         c a0 a1 = Some r
       /\ fst (fst acc') = fst (fst r)) ->
  forall l i acc acc',
    NoDup (flat_map (fun k => k :: below children fuel k) l) ->
    foldMi_from step i l acc = Some acc' ->
    (forall k, ~ In k (flat_map (fun k => k :: below children fuel k) l) ->
       sget (fst (fst acc')) k = sget (fst (fst acc)) k)
    /\ (forall c, In c l ->
          exists angle,
            sget (fst (fst acc')) c
            = Some (ringPoint M pp (ringRadius nodes children levels p) angle))
    /\ (forall c u v, In c l -> In u (c :: below children fuel c) ->
          In v (kids_of children u) ->
          onRing M nodes children levels (fst (fst acc')) u v).
Proof.
  intros Hrec Hstep l. induction l as [|c l IH]; intros i acc acc' Hnd H;
    cbn [foldMi_from] in H.
  - injection H as <-. split; [reflexivity|]. split; intros c0 []; contradiction.
  - apply bind_Some in H. destruct H as [acc1 [H1 H2]].
    destruct acc as [[ps hs] angles].
    destruct (Hstep ps hs angles c i acc1 H1) as [angle [hs' [a0 [a1 [r [Hp Hr]]]]]].
    cbn [flat_map] in Hnd.
    change (NoDup ((c :: below children fuel c)
                   ++ flat_map (fun k => k :: below children fuel k) l)) in Hnd.
    pose proof (NoDup_app_l _ _ Hnd) as Hndc.
    pose proof (NoDup_app_r _ _ Hnd) as Hndl.
    set (pc := ringPoint M pp (ringRadius nodes children levels p) angle) in *.
    destruct (Hrec c (sset ps c pc) (fst (fst r)) Hndc) as [Hframe Hring].
    { exists pc. apply sget_sset_same. }
    { exists hs', a0, a1, r. split; [exact Hp|reflexivity]. }
    destruct (IH (S i) acc1 acc' Hndl H2) as [Hf2 [Hk2 Hr2]].
    assert (Hc_notin : ~ In c (below children fuel c))
      by (inversion Hndc; assumption).
    assert (Hkeep : forall k, In k (c :: below children fuel c) ->
              sget (fst (fst acc')) k = sget (fst (fst r)) k).
    { intros k Hk. rewrite Hf2; [rewrite Hr; reflexivity|].
      intro Hin. exact (NoDup_app_disjoint _ _ k Hnd Hk Hin). }
    assert (Hunf : unfolds children fuel c = true).
    { rewrite <- (positionChildren_isSome children M nodes fuel levels
                    (sset ps c pc, hs') c a0 a1), Hp. reflexivity. }
    split; [|split].
    + intros k Hk. cbn [fst]. rewrite Hf2.
      * rewrite Hr, Hframe.
        -- apply sget_sset_other. intro Heq. subst k. apply Hk. cbn [flat_map].
           left. reflexivity.
        -- intro Hin. apply Hk. cbn [flat_map]. right. apply in_or_app. left. exact Hin.
      * intro Hin. apply Hk. cbn [flat_map]. right. apply in_or_app. right. exact Hin.
    + intros c0 [<-|Hc0].
      * exists angle. rewrite (Hkeep c (or_introl eq_refl)), (Hframe c Hc_notin).
        apply sget_sset_same.
      * apply Hk2. exact Hc0.
    + intros c0 u v [<-|Hc0] Hu Hv.
      * apply (onRing_frame (fst (fst r))).
        -- apply Hkeep. exact Hu.
        -- apply Hkeep. right. apply (below_closed children fuel c u v Hunf Hu Hv).
        -- apply Hring; assumption.
      * apply (Hr2 c0 u v Hc0 Hu Hv).
Qed.

Lemma positionChildren_rings (fuel : nat) : forall p ps ps',
  NoDup (p :: below children fuel p) ->
  (exists pp, sget ps p = Some pp) ->
  (exists hs a0 a1 r, positionChildren M nodes children fuel levels (ps, hs) p a0 a1 = Some r
                      /\ fst (fst r) = ps') ->
  ringsBelow M nodes children levels fuel p ps ps'.
Proof.
  induction fuel as [|fuel IH]; intros p ps ps' Hnd [pp Hpp] [hs [a0 [a1 [r [H Hr]]]]];
    [discriminate|].
  cbn [positionChildren] in H. unfold ringsBelow. cbn [below].
  destruct (kids_of children p) as [|k kids] eqn:Ek.
  - injection H as <-. cbn [fst] in Hr. subst ps'. cbn [flat_map].
    split; [reflexivity|].
    intros u v [<-|[]] Hv. rewrite Ek in Hv. destruct Hv.
  - cbv zeta in H. cbn [fst] in H. rewrite Hpp in H. cbn [nullish] in H.
    cbn [below] in Hnd. rewrite Ek in Hnd.
    inversion Hnd as [|? ? Hp_notin Hnd']; subst.
    match type of H with
    | foldMi_from ?step ?i0 ?l0 ?acc0 = Some _ =>
        pose proof (fun Hs => ring_loop fuel p pp step IH Hs l0 i0 acc0 r) as HL
    end.
    destruct HL as [Hframe [Hkids Hring]].
    + intros ps0 hs0 angles c i acc' Hs. cbv beta iota in Hs.
      apply bind_Some in Hs. destruct Hs as [r0 [Hp0 Hs]]. injection Hs as <-.
      eexists. eexists. eexists. eexists. exists r0. split; [exact Hp0|reflexivity].
    + exact Hnd'.
    + exact H.
    + cbn [fst] in Hframe. split.
      * intros k0 Hk0. apply Hframe. exact Hk0.
      * intros u v [<-|Hu] Hv.
        -- rewrite Ek in Hv. destruct (Hkids v Hv) as [angle Hsv].
           exists pp, angle. split; [|exact Hsv].
           rewrite (Hframe p Hp_notin). exact Hpp.
        -- apply in_flat_map in Hu. destruct Hu as [c [Hc Hu]].
           apply (Hring c u v Hc Hu Hv).
Qed.

(** X24: in a subgraph that is a tree (the ids met below [p] are pairwise
    distinct and differ from [p]), a run of [positionChildren] from a
    placed parent [p] leaves every node outside the subtree where it was
    and puts every node of the subtree on the ring of its own parent: at
    the parent's centre plus the ring radius times (cos, sin) of some
    angle.  That radius is at least
    [parentHalfDiagonal + childHalfDiagonal + 80], and the squared distance
    of the two centres is the squared radius times
    [cos angle ^ 2 + sin angle ^ 2], whatever sine and cosine the program
    runs with. *)
Theorem positionChildren_places_tree_on_rings (fuel : nat) (p : string)
  (ps : SMap Point) (hs : SMap Handles) (a0 a1 : Q) (pp : Point)
  (ps' : SMap Point) (hs' : SMap Handles) (angles : list Q) :
  NoDup (p :: below children fuel p) ->
  sget ps p = Some pp ->
  positionChildren M nodes children fuel levels (ps, hs) p a0 a1 = Some (ps', hs', angles) ->
  (forall k, ~ In k (below children fuel p) -> sget ps' k = sget ps k)
  /\ forall u v, In u (p :: below children fuel p) -> In v (kids_of children u) ->
       exists pu pv angle,
         sget ps' u = Some pu /\ sget ps' v = Some pv
         /\ pv = ringPoint M pu (ringRadius nodes children levels u) angle
         /\ separation nodes u v <= ringRadius nodes children levels u
         /\ distance2 pu pv
            == ringRadius nodes children levels u * ringRadius nodes children levels u
               * (cos M angle * cos M angle + sin M angle * sin M angle).
Proof.
  intros Hnd Hpp H.
  destruct (positionChildren_rings fuel p ps ps' Hnd) as [Hframe Hring].
  { exists pp. exact Hpp. }
  { exists hs, a0, a1, (ps', hs', angles). split; [exact H|reflexivity]. }
  split; [exact Hframe|].
  intros u v Hu Hv. destruct (Hring u v Hu Hv) as [pu [angle [H1 H2]]].
  exists pu, (ringPoint M pu (ringRadius nodes children levels u) angle), angle.
  split; [exact H1|]. split; [exact H2|]. split; [reflexivity|].
  split; [apply ringRadius_bound; exact Hv|].
  apply distance2_ringPoint.
Qed.
End Rings.

Lemma positionChildren_places_tree_on_rings_witness :
  exists ps' hs' angles,
    positionChildren MathQ.lib smallTreeNodes
      (t_children (buildTree smallTreeNodes smallTreeEdges)) 3 []
      (sset [] "r" origin, []) "r" 0 (2 * PI MathQ.lib) = Some (ps', hs', angles)
    /\ exists pu pv angle,
         sget ps' "b" = Some pu /\ sget ps' "c" = Some pv
         /\ pv = ringPoint MathQ.lib pu
                   (ringRadius smallTreeNodes
                      (t_children (buildTree smallTreeNodes smallTreeEdges)) [] "b") angle
         /\ separation smallTreeNodes "b" "c"
            <= ringRadius smallTreeNodes
                 (t_children (buildTree smallTreeNodes smallTreeEdges)) [] "b"
         /\ distance2 pu pv
            == ringRadius smallTreeNodes
                 (t_children (buildTree smallTreeNodes smallTreeEdges)) [] "b"
               * ringRadius smallTreeNodes
                   (t_children (buildTree smallTreeNodes smallTreeEdges)) [] "b"
               * (cos MathQ.lib angle * cos MathQ.lib angle
                  + sin MathQ.lib angle * sin MathQ.lib angle).
Proof.
  eexists. eexists. eexists. split; [vm_compute; reflexivity|].
  edestruct (positionChildren_places_tree_on_rings MathQ.lib smallTreeNodes
               (t_children (buildTree smallTreeNodes smallTreeEdges)) [] 3 "r"
               (sset [] "r" origin) [] 0 (2 * PI MathQ.lib) origin)
    as [_ Hring].
  - vm_compute. repeat constructor; cbn; intuition discriminate.
  - vm_compute. reflexivity.
  - vm_compute. reflexivity.
  - apply (Hring "b"%string "c"%string).
    + vm_compute. tauto.
    + vm_compute. tauto.
Defined.

(** ** Graphs without a cycle unfold within a budget of one more than the
    number of nodes *)

Lemma kids_of_buildTree (nodes : list Node) (edges : list Edge) (k : string) :
  kids_of (t_children (buildTree nodes edges)) k
  = if set_has (map id nodes) k
    then map target (filter (fun e => String.eqb (source e) k) edges)
    else [].
Proof.
  unfold kids_of, buildTree. rewrite children_edges. cbn [t_children].
  rewrite children_init. destruct (set_has (map id nodes) k); reflexivity.
Qed.

(** a child recorded by [buildTree] is the target of an edge that leaves a
    node *)
Lemma kids_of_edge (nodes : list Node) (edges : list Edge) (p k : string) :
  In k (kids_of (t_children (buildTree nodes edges)) p) ->
  In p (map id nodes) /\ exists e, In e edges /\ source e = p /\ target e = k.
Proof.
  rewrite kids_of_buildTree. destruct (set_has (map id nodes) p) eqn:E; [|intros []].
  intro H. split; [apply set_has_In; exact E|].
  apply in_map_iff in H. destruct H as [e [Ht Hf]].
  apply filter_In in Hf. destruct Hf as [Hin Hs].
  apply String.eqb_eq in Hs. exists e. auto.
Qed.

(** and every edge that leaves a node records its target as a child *)
Lemma edge_kids_of (nodes : list Node) (edges : list Edge) (e : Edge) :
  In e edges -> In (source e) (map id nodes) ->
  In (target e) (kids_of (t_children (buildTree nodes edges)) (source e)).
Proof.
  intros He Hs. rewrite kids_of_buildTree.
  apply set_has_In in Hs. rewrite Hs.
  apply in_map. apply filter_In. split; [exact He|apply String.eqb_refl].
Qed.

Lemma edgePath_trans (edges : list Edge) (x y z : string) :
  edgePath edges x y -> edgePath edges y z -> edgePath edges x z.
Proof.
  intros Hxy Hyz. induction Hxy as [e He|e w He Hw IH].
  - apply path_more; assumption.
  - apply path_more; [exact He|apply IH; exact Hyz].
Qed.

Lemma acyclic_below (edges : list Edge) (p : string) : acyclic edges -> acyclicBelow edges p.
Proof. intros H x _. apply H. Qed.

Lemma acyclicBelow_kid (nodes : list Node) (edges : list Edge) (p k : string) :
  acyclicBelow edges p ->
  In k (kids_of (t_children (buildTree nodes edges)) p) ->
  edgePath edges p k /\ acyclicBelow edges k.
Proof.
  intros Hp Hk. apply kids_of_edge in Hk. destruct Hk as [_ [e [He [Hs Ht]]]].
  assert (Hpk : edgePath edges p k) by (subst; apply path_one; exact He).
  split; [exact Hpk|]. intros x [->|Hx]; apply Hp; right; [exact Hpk|].
  eapply edgePath_trans; eassumption.
Qed.

Lemma ranked_acyclic (rank : string -> nat) (edges : list Edge) :
  ranked rank edges = true -> acyclic edges.
Proof.
  intro Hr. unfold ranked in Hr. rewrite forallb_forall in Hr.
  assert (Hlt : forall x y, edgePath edges x y -> (rank y < rank x)%nat).
  { intros x y Hxy. induction Hxy as [e He|e w He Hw IH].
    - apply Nat.ltb_lt. apply Hr. exact He.
    - apply Nat.lt_trans with (rank (target e)); [exact IH|].
      apply Nat.ltb_lt. apply Hr. exact He. }
  intros x Hx. apply Hlt in Hx. lia.
Qed.

Lemma forallb_false_inv {A : Type} (f : A -> bool) (l : list A) :
  forallb f l = false -> exists a, In a l /\ f a = false.
Proof.
  induction l as [|a l IH]; cbn; [discriminate|].
  destruct (f a) eqn:E; cbn.
  - intro H. destruct (IH H) as [b [Hb Hf]]. exists b. auto.
  - intros _. exists a. auto.
Qed.

(** a recursion that does not unfold within [fuel] runs through [fuel]
    distinct nodes, one below the other *)
Lemma unfolds_false_chain (nodes : list Node) (edges : list Edge) (fuel : nat) : forall p,
  acyclicBelow edges p ->
  unfolds (t_children (buildTree nodes edges)) fuel p = false ->
  exists l, length l = fuel /\ NoDup l /\ incl l (map id nodes)
            /\ forall x, In x l -> x = p \/ edgePath edges p x.
Proof.
  induction fuel as [|fuel IH]; intros p Hac Hunf.
  - exists []. split; [reflexivity|]. split; [constructor|].
    split; [intros x []|intros x []].
  - cbn [unfolds] in Hunf. apply forallb_false_inv in Hunf.
    destruct Hunf as [k [Hk Hf]].
    destruct (acyclicBelow_kid nodes edges p k Hac Hk) as [Hpk Hack].
    destruct (IH k Hack Hf) as [l [Hlen [Hnd [Hincl Hreach]]]].
    exists (p :: l). split; [cbn; rewrite Hlen; reflexivity|].
    split; [|split].
    + constructor; [|exact Hnd]. intro Hin.
      apply (Hac p (or_introl eq_refl)).
      destruct (Hreach p Hin) as [->|Hkp]; [exact Hpk|].
      eapply edgePath_trans; eassumption.
    + intros x [<-|Hx]; [|apply Hincl; exact Hx].
      apply (kids_of_edge nodes edges p k Hk).
    + intros x [<-|Hx]; [left; reflexivity|right].
      destruct (Hreach x Hx) as [->|Hkx]; [exact Hpk|].
      eapply edgePath_trans; eassumption.
Qed.

Lemma acyclic_unfolds (nodes : list Node) (edges : list Edge) (fuel : nat) (p : string) :
  acyclicBelow edges p -> (length nodes < fuel)%nat ->
  unfolds (t_children (buildTree nodes edges)) fuel p = true.
Proof.
  intros Hac Hlen.
  destruct (unfolds (t_children (buildTree nodes edges)) fuel p) eqn:E; [reflexivity|].
  exfalso. destruct (unfolds_false_chain nodes edges fuel p Hac E)
    as [l [Hl [Hnd [Hincl _]]]].
  pose proof (NoDup_incl_length Hnd Hincl) as Hle.
  rewrite length_map in Hle. lia.
Qed.

(** the child map has at most one entry per node *)
Lemma sset_length {V : Type} (m : SMap V) (k : string) (v : V) :
  length (sset m k v) = if shas m k then length m else S (length m).
Proof.
  unfold sset, shas, mhas. induction m as [|[k' v'] m IH]; cbn; [reflexivity|].
  destruct (String.eqb k' k); cbn; [reflexivity|]. rewrite IH.
  destruct (isSome (mget String.eqb m k)); reflexivity.
Qed.

Lemma children_init_length (nodes : list Node) : forall (c0 : SMap (list string)),
  (length (fold_left (fun c n => sset c (id n) []) nodes c0) <= length c0 + length nodes)%nat.
Proof.
  induction nodes as [|n nodes IH]; intro c0; cbn [fold_left length]; [lia|].
  eapply Nat.le_trans; [apply IH|]. rewrite sset_length.
  destruct (shas c0 (id n)); lia.
Qed.

Lemma children_edges_length (edges : list Edge) : forall (t : Tree),
  length (t_children
            (fold_left
               (fun t e =>
                  let children :=
                    match sget (t_children t) (source e) with
                    | Some parentChildren =>
                        sset (t_children t) (source e) (parentChildren ++ [target e])
                    | None => t_children t
                    end in
                  {| t_children := children;
                     t_parent := sset (t_parent t) (target e) (source e) |})
               edges t))
  = length (t_children t).
Proof.
  induction edges as [|e edges IH]; intro t; cbn [fold_left]; [reflexivity|].
  rewrite IH. cbn [t_children].
  destruct (sget (t_children t) (source e)) as [l|] eqn:El; [|reflexivity].
  rewrite sset_length. unfold shas, mhas. unfold sget in El. rewrite El. reflexivity.
Qed.

Lemma buildTree_children_length (nodes : list Node) (edges : list Edge) :
  (length (t_children (buildTree nodes edges)) <= length nodes)%nat.
Proof.
  unfold buildTree. rewrite children_edges_length. cbn [t_children].
  apply (children_init_length nodes []).
Qed.

(** X22: on a graph in which no cycle of edges passes through the root or
    through an id reached from the root, the horizontal pass returns its
    node list and edge list as soon as the recursion budget exceeds the
    number of nodes; cycles among nodes the root does not reach do no harm. *)
Theorem horizontalLayout_returns (fuel : nat) (nodes : list Node) (edges : list Edge) :
  (forall root, horizontalRoot nodes edges = Some root -> acyclicBelow edges (id root)) ->
  (length nodes < fuel)%nat ->
  exists outN outE, horizontalLayout fuel nodes edges = Some (outN, outE).
Proof.
  intros Hac Hlen.
  destruct (horizontalRoot nodes edges) as [root|] eqn:Hroot.
  - apply (horizontalLayout_returns_unfolds fuel nodes edges root Hroot).
    apply acyclic_unfolds; [apply Hac; reflexivity|exact Hlen].
  - unfold horizontalLayout. rewrite Hroot. eexists. eexists. reflexivity.
Qed.

Lemma horizontalLayout_returns_witness :
  exists outN outE, horizontalLayout 5 smallTreeNodes smallTreeEdges = Some (outN, outE).
Proof.
  apply (horizontalLayout_returns 5 smallTreeNodes smallTreeEdges).
  - intros root _. apply acyclic_below. apply (ranked_acyclic smallTreeRank).
    vm_compute. reflexivity.
  - vm_compute. lia.
Defined.

(** X23: on a graph in which no cycle of edges passes through a detected
    root or through an id reached from one, the radial pass returns its
    node list as soon as the recursion budget exceeds the number of nodes;
    cycles among nodes no root reaches do no harm. *)
Theorem radialLayout_returns (M : MathLib) (fuel : nat) (nodes : list Node)
  (edges : list Edge) :
  (forall r, In r (findRootNodes nodes edges) -> acyclicBelow edges (id r)) ->
  (length nodes < fuel)%nat ->
  exists outN, radialLayout M fuel nodes edges = Some outN.
Proof.
  intros Hac Hlen. apply radialLayout_returns_unfolds.
  - eapply Nat.le_lt_trans; [apply buildTree_children_length|exact Hlen].
  - intros r Hr. apply acyclic_unfolds; [apply Hac; exact Hr|exact Hlen].
Qed.

Lemma radialLayout_returns_witness :
  exists outN, radialLayout MathQ.lib 5 smallTreeNodes smallTreeEdges = Some outN.
Proof.
  apply (radialLayout_returns MathQ.lib 5 smallTreeNodes smallTreeEdges).
  - intros r _. apply acyclic_below. apply (ranked_acyclic smallTreeRank).
    vm_compute. reflexivity.
  - vm_compute. lia.
Defined.

(** ** [sort_by] is a stable ascending sort, as [Array.prototype.sort] is *)

Lemma insert_by_perm {A : Type} (key : A -> Q) (a : A) (l : list A) :
  Permutation (insert_by key a l) (a :: l).
Proof.
  induction l as [|b l IH]; cbn [insert_by]; [reflexivity|].
  destruct (Qleb (key a) (key b)); [reflexivity|].
  rewrite IH. apply perm_swap.
Qed.

Lemma sort_by_perm {A : Type} (key : A -> Q) (l : list A) : Permutation (sort_by key l) l.
Proof.
  unfold sort_by. induction l as [|a l IH]; cbn [fold_right]; [reflexivity|].
  rewrite insert_by_perm. constructor. exact IH.
Qed.

Lemma insert_by_ascending {A : Type} (key : A -> Q) (a : A) (l : list A) :
  ascending key l -> ascending key (insert_by key a l).
Proof.
  induction l as [|b l IH]; cbn [insert_by ascending].
  - intros _. split; [intros b []|exact I].
  - intros [Hb Hl]. destruct (Qleb (key a) (key b)) eqn:E.
    + apply Qleb_le in E. cbn [ascending]. split; [|split; assumption].
      intros c [<-|Hc]; [exact E|]. eapply Qle_trans; [exact E|apply Hb; exact Hc].
    + assert (Hba : key b <= key a).
      { unfold Qleb in E. destruct (Qlt_le_dec (key b) (key a)) as [Hlt|Hle];
          [apply Qlt_le_weak; exact Hlt|].
        apply Qle_bool_iff in Hle. congruence. }
      cbn [ascending]. split; [|apply IH; exact Hl].
      intros c Hc. apply (Permutation_in _ (insert_by_perm key a l)) in Hc.
      destruct Hc as [<-|Hc]; [exact Hba|apply Hb; exact Hc].
Qed.

Lemma sort_by_ascending {A : Type} (key : A -> Q) (l : list A) : ascending key (sort_by key l).
Proof.
  unfold sort_by. induction l as [|a l IH]; cbn [fold_right]; [exact I|].
  apply insert_by_ascending. exact IH.
Qed.

(** an element is put in front of the elements of its own key that came
    after it in the input *)
Lemma insert_by_stable {A : Type} (key : A -> Q) (q : Q) (a : A) (l : list A) :
  filter (fun x => Qeq_bool (key x) q) (insert_by key a l)
  = filter (fun x => Qeq_bool (key x) q) (a :: l).
Proof.
  induction l as [|b l IH]; cbn [insert_by]; [reflexivity|].
  destruct (Qleb (key a) (key b)) eqn:E; [reflexivity|].
  cbn [filter] in *. rewrite IH.
  destruct (Qeq_bool (key a) q) eqn:Ea, (Qeq_bool (key b) q) eqn:Eb; try reflexivity.
  exfalso. apply Qeq_bool_iff in Ea, Eb.
  assert (Hle : key a <= key b) by (rewrite Ea, Eb; apply Qle_refl).
  apply Qleb_le in Hle. congruence.
Qed.

(** the elements of any one key leave the sort in their input order *)
Lemma sort_by_stable {A : Type} (key : A -> Q) (q : Q) (l : list A) :
  filter (fun x => Qeq_bool (key x) q) (sort_by key l)
  = filter (fun x => Qeq_bool (key x) q) l.
Proof.
  unfold sort_by. induction l as [|a l IH]; cbn [fold_right]; [reflexivity|].
  rewrite insert_by_stable. cbn [filter]. rewrite IH. reflexivity.
Qed.

(** ** Radial layout of a forest: rings and the shift pass *)

Lemma NoDup_flat_map_unique {A B : Type} (f : A -> list B) (l : list A) (a a' : A) (x : B) :
  NoDup (flat_map f l) -> In a l -> In a' l -> In x (f a) -> In x (f a') -> a = a'.
Proof.
  induction l as [|b l IH]; cbn [flat_map]; intros Hnd Ha Ha' Hx Hx'; [destruct Ha|].
  destruct Ha as [->|Ha], Ha' as [->|Ha'].
  - reflexivity.
  - exfalso. apply (NoDup_app_disjoint _ _ x Hnd Hx).
    apply in_flat_map. exists a'. auto.
  - exfalso. apply (NoDup_app_disjoint _ _ x Hnd Hx').
    apply in_flat_map. exists a. auto.
  - apply IH; auto. apply (NoDup_app_r _ _ Hnd).
Qed.

Lemma NoDup_flat_map_part {A B : Type} (f : A -> list B) (l : list A) (a : A) :
  NoDup (flat_map f l) -> In a l -> NoDup (f a).
Proof.
  induction l as [|b l IH]; cbn [flat_map]; intros Hnd Ha; [destruct Ha|].
  destruct Ha as [->|Ha]; [apply (NoDup_app_l _ _ Hnd)|].
  apply IH; [apply (NoDup_app_r _ _ Hnd)|exact Ha].
Qed.

Lemma shas_sget {V : Type} (m : SMap V) (k : string) :
  shas m k = true <-> exists v, sget m k = Some v.
Proof.
  unfold shas, mhas. fold (sget m k). destruct (sget m k) as [v|]; cbn.
  - split; [intros _; exists v; reflexivity|reflexivity].
  - split; [discriminate|intros [v Hv]; discriminate].
Qed.

Section Forest.
Variable children : SMap (list string).
Variable fuel : nat.

Lemma forestIds_app (l1 l2 : list Node) :
  forestIds children fuel (l1 ++ l2) = forestIds children fuel l1 ++ forestIds children fuel l2.
Proof. unfold forestIds. apply flat_map_app. Qed.

Lemma forestIds_one (r : Node) :
  forestIds children fuel [r] = id r :: below children fuel (id r).
Proof. unfold forestIds. cbn [flat_map]. apply app_nil_r. Qed.

Lemma kid_below (p c : string) :
  unfolds children fuel p = true -> In c (kids_of children p) -> In c (below children fuel p).
Proof.
  intros Hunf Hc. apply (below_closed children fuel p p c Hunf); [left; reflexivity|exact Hc].
Qed.

(** the ids of a forest that unfolds are closed under taking children *)
Lemma forest_closed (roots : list Node) (u v : string) :
  (forall r, In r roots -> unfolds children fuel (id r) = true) ->
  In u (forestIds children fuel roots) -> In v (kids_of children u) ->
  exists r, In r roots /\ In u (id r :: below children fuel (id r))
            /\ In v (below children fuel (id r)).
Proof.
  intros Hunf Hu Hv. unfold forestIds in Hu. apply in_flat_map in Hu.
  destruct Hu as [r [Hr Hu]]. exists r. split; [exact Hr|]. split; [exact Hu|].
  apply (below_closed children fuel (id r) u v (Hunf r Hr) Hu Hv).
Qed.

(** in a forest without repeated ids no root is anybody's child *)
Lemma forest_root_no_parent (roots : list Node) (r : Node) (x : string) :
  NoDup (forestIds children fuel roots) ->
  (forall r0, In r0 roots -> unfolds children fuel (id r0) = true) ->
  In r roots -> In x (forestIds children fuel roots) ->
  ~ In (id r) (kids_of children x).
Proof.
  intros Hnd Hunf Hr Hx Hkid.
  destruct (forest_closed roots x (id r) Hunf Hx Hkid) as [r0 [Hr0 [_ Hb]]].
  assert (r0 = r).
  { apply (NoDup_flat_map_unique (fun r => id r :: below children fuel (id r))
             roots r0 r (id r) Hnd Hr0 Hr); [right; exact Hb|left; reflexivity]. }
  subst r0.
  pose proof (NoDup_flat_map_part _ roots r Hnd Hr) as Hseg. cbv beta in Hseg.
  inversion Hseg; contradiction.
Qed.

(** and a child of a root has no other parent *)
Lemma forest_root_child_parent (roots : list Node) (r : Node) (x c : string) :
  NoDup (forestIds children fuel roots) ->
  (forall r0, In r0 roots -> unfolds children fuel (id r0) = true) ->
  In r roots -> In c (kids_of children (id r)) ->
  In x (forestIds children fuel roots) -> In c (kids_of children x) ->
  x = id r.
Proof.
  intros Hnd Hunf Hr Hc Hx Hcx.
  destruct (forest_closed roots x c Hunf Hx Hcx) as [r0 [Hr0 [Hxr0 Hb]]].
  assert (r0 = r).
  { apply (NoDup_flat_map_unique (fun r => id r :: below children fuel (id r))
             roots r0 r c Hnd Hr0 Hr); right; [exact Hb|].
    apply kid_below; [apply Hunf; exact Hr|exact Hc]. }
  subst r0.
  pose proof (NoDup_flat_map_part _ roots r Hnd Hr) as Hseg. cbv beta in Hseg.
  destruct Hxr0 as [Heq|Hxb]; [symmetry; exact Heq|exfalso].
  pose proof (Hunf r Hr) as Hur.
  destruct fuel as [|fuel']; [discriminate|].
  cbn [below] in Hxb, Hseg. cbn [unfolds] in Hur. rewrite forallb_forall in Hur.
  apply in_flat_map in Hxb. destruct Hxb as [k [Hk Hxk]].
  assert (Hck : In c (below children fuel' k))
    by (apply (below_closed children fuel' k x c (Hur k Hk) Hxk Hcx)).
  inversion Hseg as [|? ? _ Hnd']; subst.
  assert (k = c).
  { apply (NoDup_flat_map_unique (fun k => k :: below children fuel' k)
             (kids_of children (id r)) k c c Hnd' Hk Hc); [right; exact Hck|left; reflexivity]. }
  subst k.
  pose proof (NoDup_flat_map_part _ _ c Hnd' Hc) as Hsegc. cbv beta in Hsegc.
  inversion Hsegc; contradiction.
Qed.

(** the guarded level computation marks its start node, keeps every earlier
    mark, and marks nothing outside the part of the graph below its start *)
Lemma calculateLevels_marks : forall (budget : nat) st p lvl st',
  calculateLevels children budget st p lvl = Some st' ->
  set_has (fst st') p = true
  /\ (forall k, set_has (fst st) k = true -> set_has (fst st') k = true)
  /\ (forall k, set_has (fst st') k = true ->
        set_has (fst st) k = true \/ k = p \/ In k (below children budget p))
  /\ (set_has (fst st) p = false ->
        forall c, In c (kids_of children p) -> set_has (fst st') c = true).
Proof.
  induction budget as [|budget IH]; intros st p lvl st' H; cbn [calculateLevels] in H;
    destruct (set_has (fst st) p) eqn:E.
  - injection H as <-. repeat split; auto. discriminate.
  - discriminate.
  - injection H as <-. repeat split; auto. discriminate.
  - cbn [below].
    assert (Hloop : forall l acc res,
              foldM (fun acc child => calculateLevels children budget acc child (lvl + 1))
                    l acc = Some res ->
              (forall k, set_has (fst acc) k = true -> set_has (fst res) k = true)
              /\ (forall c, In c l -> set_has (fst res) c = true)
              /\ (forall k, set_has (fst res) k = true ->
                    set_has (fst acc) k = true
                    \/ In k (flat_map (fun c => c :: below children budget c) l))).
    { induction l as [|c l IHl]; intros acc res Hf; cbn [foldM] in Hf.
      - injection Hf as <-. repeat split; auto. all: try (intros c []; contradiction).
      - apply bind_Some in Hf. destruct Hf as [acc1 [H1 H2]].
        destruct (IH _ _ _ _ H1) as [Hc [Hmono [Hsound _]]].
        destruct (IHl _ _ H2) as [Hmono2 [Hall2 Hsound2]].
        split; [auto|]. split.
        + intros c0 [<-|Hc0]; auto.
        + intros k Hk. cbn [flat_map].
          destruct (Hsound2 k Hk) as [Hk1|Hk1].
          * destruct (Hsound k Hk1) as [Hk0|[->|Hk0]]; [left; exact Hk0| |].
            -- right. left. reflexivity.
            -- right. right. apply in_or_app. left. exact Hk0.
          * right. right. apply in_or_app. right. exact Hk1. }
    destruct (Hloop _ _ _ H) as [Hmono [Hall Hsound]]. cbn [fst] in *.
    split; [apply Hmono; rewrite set_has_add, String.eqb_refl; reflexivity|].
    split; [intros k Hk; apply Hmono; rewrite set_has_add, Hk; apply orb_true_r|].
    split; [|intros _; exact Hall].
    intros k Hk. destruct (Hsound k Hk) as [Hk0|Hk0]; [|right; right; exact Hk0].
    rewrite set_has_add in Hk0. apply orb_true_iff in Hk0.
    destruct Hk0 as [Hk0|Hk0]; [right; left; apply String.eqb_eq; exact Hk0|left; exact Hk0].
Qed.
End Forest.

Section ForestPlacement.
Variable M : MathLib.
Variable nodes : list Node.
Variable children : SMap (list string).
Variable fuel : nat.

Lemma placedForest_start :
  placedForest M nodes children fuel []
    {| r_positions := []; r_handles := []; r_visited := [] |}.
Proof.
  unfold placedForest. cbn [r_positions r_visited forestIds flat_map].
  repeat split; try discriminate; intros; contradiction.
Qed.

(** one more root: its tree is placed on rings and the trees placed before
    are left alone *)
Lemma layoutTree_placedForest (done : list Node) (r : Node) (st st1 : RadialState) (x y : Q) :
  NoDup (forestIds children fuel (done ++ [r])) ->
  placedForest M nodes children fuel done st ->
  layoutTree M nodes children fuel st (id r) x y = Some st1 ->
  placedForest M nodes children fuel (done ++ [r]) st1.
Proof.
  intros Hnd [Hkeys [Hvis [Hroots Hring]]] H.
  rewrite forestIds_app, forestIds_one in Hnd.
  pose proof (NoDup_app_r _ _ Hnd) as Hseg.
  assert (Hdisj : forall k, In k (forestIds children fuel done) ->
                            In k (id r :: below children fuel (id r)) -> False)
    by (intros k H1 H2; exact (NoDup_app_disjoint _ _ k Hnd H1 H2)).
  unfold layoutTree in H. apply bind_Some in H. destruct H as [[visited levels] [Hc H]].
  apply bind_Some in H. destruct H as [[[ps' hs'] angles] [Hp H]].
  injection H as <-.
  destruct (calculateLevels_marks children fuel _ _ _ _ Hc) as [Hm1 [Hm2 [Hm3 Hm4]]].
  cbn [fst] in Hm1, Hm2, Hm3, Hm4.
  assert (Hunf : unfolds children fuel (id r) = true).
  { rewrite <- (positionChildren_isSome children M nodes fuel levels
                  (sset (r_positions st) (id r) {| px := x; py := y |}, r_handles st)
                  (id r) 0 (2 * PI M)), Hp. reflexivity. }
  destruct (positionChildren_rings M nodes children levels fuel (id r)
              (sset (r_positions st) (id r) {| px := x; py := y |}) ps' Hseg)
    as [Hframe Hrings].
  { eexists. apply sget_sset_same. }
  { eexists. eexists. eexists. eexists. split; [exact Hp|reflexivity]. }
  assert (Hold : forall k, In k (forestIds children fuel done) ->
                   sget ps' k = sget (r_positions st) k).
  { intros k Hk. rewrite Hframe by (intro Hb; apply (Hdisj k Hk); right; exact Hb).
    apply sget_sset_other. intro Heq. apply (Hdisj k Hk). left. exact Heq. }
  assert (Hfresh : set_has (r_visited st) (id r) = false).
  { destruct (set_has (r_visited st) (id r)) eqn:E; [|reflexivity].
    exfalso. apply (Hdisj (id r)); [apply Hvis; exact E|left; reflexivity]. }
  unfold placedForest. cbn [r_positions r_visited].
  rewrite forestIds_app, forestIds_one.
  split; [|split; [|split]].
  - intros k Hk. apply in_or_app.
    destruct (in_dec string_dec k (below children fuel (id r))) as [Hb|Hb];
      [right; right; exact Hb|].
    rewrite shas_sget in Hk. rewrite (Hframe k Hb) in Hk.
    destruct (string_dec (id r) k) as [Heq|Hne]; [right; left; exact Heq|].
    rewrite sget_sset_other in Hk by exact Hne.
    left. apply Hkeys. apply shas_sget. exact Hk.
  - intros k Hk. apply in_or_app.
    destruct (Hm3 k Hk) as [Hk0|[->|Hk0]];
      [left; apply Hvis; exact Hk0|right; left; reflexivity|right; right; exact Hk0].
  - intros r0 Hr0. apply in_app_or in Hr0. destruct Hr0 as [Hr0|[<-|[]]].
    + destruct (Hroots r0 Hr0) as [H1 [H2 H3]]. repeat split; auto.
    + split; [exact Hunf|]. split; [exact Hm1|]. apply Hm4. exact Hfresh.
  - intros u v Hu Hv. apply in_app_or in Hu. destruct Hu as [Hu|Hu].
    + destruct (Hring u v Hu Hv) as [levels0 Hon]. exists levels0.
      apply (onRing_frame M nodes children levels0 (r_positions st)); [| |exact Hon].
      * apply Hold. exact Hu.
      * apply Hold.
        destruct (forest_closed children fuel done u v) as [r0 [Hr0 [_ Hb]]];
          [intros r0 Hr0; apply (Hroots r0 Hr0)|exact Hu|exact Hv|].
        unfold forestIds. apply in_flat_map. exists r0. split; [exact Hr0|right; exact Hb].
    + exists levels. apply Hrings; assumption.
Qed.

Lemma layoutRoots_from (rest : list Node) : forall (done : list Node) acc res,
  NoDup (forestIds children fuel (done ++ rest)) ->
  placedForest M nodes children fuel done (fst acc) ->
  foldM (fun (acc : RadialState * Q) root =>
           st' <- layoutTree M nodes children fuel (fst acc) (id root) (snd acc + 600) 600 ;;
           Some (st', snd acc + 1200))
        rest acc = Some res ->
  placedForest M nodes children fuel (done ++ rest) (fst res).
Proof.
  induction rest as [|r rest IH]; intros done acc res Hnd Hinv H; cbn [foldM] in H.
  - injection H as <-. rewrite app_nil_r. exact Hinv.
  - apply bind_Some in H. destruct H as [acc1 [H1 H2]].
    apply bind_Some in H1. destruct H1 as [st1 [Hl H1]]. injection H1 as <-.
    replace (done ++ r :: rest) with ((done ++ [r]) ++ rest) in *
      by (rewrite <- app_assoc; reflexivity).
    apply (IH (done ++ [r]) (st1, snd acc + 1200) res Hnd); [|exact H2].
    cbn [fst]. apply (layoutTree_placedForest done r (fst acc) st1 (snd acc + 600) 600);
      [|exact Hinv|exact Hl].
    rewrite forestIds_app in Hnd. apply (NoDup_app_l _ _ Hnd).
Qed.

Lemma layoutRoots_placedForest (roots : list Node) (st : RadialState) (off : Q) :
  NoDup (forestIds children fuel roots) ->
  layoutRoots M nodes children fuel roots = Some (st, off) ->
  placedForest M nodes children fuel roots st.
Proof.
  intros Hnd H. unfold layoutRoots in H.
  apply (layoutRoots_from roots []
           ({| r_positions := []; r_handles := []; r_visited := [] |}, 0) (st, off) Hnd
           placedForest_start H).
Qed.
End ForestPlacement.

(** *** The shift pass never brings a child nearer to a parent that stays *)

Lemma of_nat_nonneg (k : nat) : 0 <= of_nat k.
Proof.
  unfold of_nat. change 0 with (inject_Z 0). rewrite <- Zle_Qle. apply Nat2Z.is_nonneg.
Qed.

Lemma nudgeEdge_shiftedAway (nodes : list Node) (ps0 ps : SMap Point) (r c : string)
  (pr pc0 : Point) (e : Edge) :
  (shas ps0 (source e) = true -> shas ps0 (target e) = true ->
   target e <> r /\ (target e = c -> source e = r)) ->
  shiftedAway ps0 r c pr pc0 ps ->
  shiftedAway ps0 r c pr pc0 (nudgeEdge nodes ps e).
Proof.
  intros Hedge [Hkeys [Hr [pc [Hc [Hy Hx]]]]]. unfold nudgeEdge.
  destruct (sget ps (source e)) as [parentPos|] eqn:Es;
    [|split; [exact Hkeys|split; [exact Hr|exists pc; auto]]].
  destruct (sget ps (target e)) as [childPos|] eqn:Et;
    [|split; [exact Hkeys|split; [exact Hr|exists pc; auto]]].
  cbv zeta.
  destruct Hedge as [Hnr Hnc].
  { rewrite <- Hkeys. apply shas_sget. eexists. exact Es. }
  { rewrite <- Hkeys. apply shas_sget. eexists. exact Et. }
  split; [|split].
  - intro k. rewrite shas_sset, <- Hkeys.
    destruct (String.eqb (target e) k) eqn:E; [|reflexivity].
    apply String.eqb_eq in E. subst k. cbn [orb]. symmetry.
    apply shas_sget. eexists. exact Et.
  - rewrite sget_sset_other by exact Hnr. exact Hr.
  - destruct (string_dec (target e) c) as [Heq|Hne].
    + pose proof (Hnc Heq) as Hsrc. rewrite Hsrc, Hr in Es. injection Es as <-.
      rewrite Heq, Hc in Et. injection Et as <-.
      rewrite Heq, Hsrc.
      destruct (shiftLoop_steps 20 (getNodeSize_radial nodes r)
                  (getNodeSize_radial nodes c) (px pr) (py pr) (py pc)
                  (if Qgeb (px pc) (px pr) then 1 else -1) (px pc)) as [k [_ Hk]].
      pose proof (of_nat_nonneg k) as Hk0.
      revert Hk.
      generalize (shiftLoop 20 (getNodeSize_radial nodes r) (getNodeSize_radial nodes c)
                    (px pr) (py pr) (py pc) (if Qgeb (px pc) (px pr) then 1 else -1) (px pc)).
      intros cx Hk.
      exists {| px := cx; py := py pc |}. split; [apply sget_sset_same|]. cbn [px py].
      split; [exact Hy|].
      revert Hk0 Hk. generalize (of_nat k). intros q Hq Hk.
      destruct Hx as [[H1 H2]|[H1 H2]].
      * left. split; [exact H1|].
        assert (Hg : Qgeb (px pc) (px pr) = true)
          by (unfold Qgeb; apply Qle_bool_iff; eapply Qle_trans; eassumption).
        rewrite Hg in Hk. lra.
      * right. split; [exact H1|].
        assert (Hg : Qgeb (px pc) (px pr) = false).
        { unfold Qgeb. destruct (Qle_bool (px pr) (px pc)) eqn:E; [|reflexivity].
          apply Qle_bool_iff in E. exfalso.
          apply (Qlt_irrefl (px pr)). eapply Qle_lt_trans; [exact E|].
          eapply Qle_lt_trans; eassumption. }
        rewrite Hg in Hk. lra.
    + rewrite sget_sset_other by exact Hne. exists pc. auto.
Qed.

Lemma shiftPass_shiftedAway (nodes : list Node) (ps0 : SMap Point) (r c : string)
  (pr pc0 : Point) (edges : list Edge) :
  (forall e, In e edges ->
     shas ps0 (source e) = true -> shas ps0 (target e) = true ->
     target e <> r /\ (target e = c -> source e = r)) ->
  forall ps, shiftedAway ps0 r c pr pc0 ps ->
             shiftedAway ps0 r c pr pc0 (fold_left (nudgeEdge nodes) edges ps).
Proof.
  induction edges as [|e edges IH]; intros Hedges ps Hps; cbn [fold_left]; [exact Hps|].
  apply IH; [intros e0 He0; apply Hedges; right; exact He0|].
  apply nudgeEdge_shiftedAway; [apply Hedges; left; reflexivity|exact Hps].
Qed.

Lemma distance2_shiftedAway (pr pc0 pc : Point) :
  py pc = py pc0 ->
  (px pr <= px pc0 /\ px pc0 <= px pc) \/ (px pc0 < px pr /\ px pc <= px pc0) ->
  distance2 pr pc0 <= distance2 pr pc.
Proof.
  intros Hy Hx. unfold distance2. rewrite Hy.
  generalize dependent (px pr). generalize dependent (px pc0).
  generalize (px pc) (py pr) (py pc0). intros x' b y0 x0 a Hx.
  destruct Hx as [[H1 H2]|[H1 H2]]; nra.
Qed.

(** *** The fallback pass and the output keep a visited node's centre *)

Lemma orphanPass_keeps_visited (l : list Node) : forall st off k,
  set_has (r_visited st) k = true ->
  sget (r_positions (fst (placeOrphans_radial l st off))) k = sget (r_positions st) k.
Proof.
  induction l as [|m l IH]; intros st off k Hk; [reflexivity|].
  rewrite orphanPass_cons. destruct (set_has (r_visited st) (id m)) eqn:Em; [apply IH; exact Hk|].
  rewrite IH by exact Hk. cbn [r_positions].
  apply sget_sset_other. intro Heq. subst k. congruence.
Qed.

Lemma centerOf_newNode_r (st : RadialState) (n : Node) (pos : Point) :
  sget (r_positions st) (id n) = Some pos ->
  px (centerOf (newNode_r st n)) == px pos /\ py (centerOf (newNode_r st n)) == py pos.
Proof.
  intro H. unfold centerOf, newNode_r, inputCenterX, inputCenterY, place, measured_width,
    measured_height. cbv zeta. cbn [px py position measured]. rewrite H. cbn [nullish].
  split; ring.
Qed.

Lemma distance2_compat (a b a' b' : Point) :
  px a == px a' -> py a == py a' -> px b == px b' -> py b == py b' ->
  distance2 a b == distance2 a' b'.
Proof. intros H1 H2 H3 H4. unfold distance2. rewrite H1, H2, H3, H4. reflexivity. Qed.

(** C5: radial layout of a tree-shaped graph (every edge leaves a node, and
    the traversal from the roots meets no id twice).  The root traversals
    put every child on the ring of its parent, at the parent's centre plus
    the ring radius times (cos, sin) of some angle; that radius is at least
    [parentHalfDiagonal + childHalfDiagonal + 80], and the squared distance
    of the two centres is the squared radius times
    [cos angle ^ 2 + sin angle ^ 2].  In the output, the centres of a root
    and of each of its children are still at least that far apart: the
    shift pass moves a child only sideways and away from its parent, and a
    root is never moved.  Nothing is said of the other edges, whose parent
    the shift pass may move. *)
Theorem radialLayout_ring_separation (M : MathLib) (fuel : nat) (nodes : list Node)
  (edges : list Edge) (outN : list Node) :
  (forall e, In e edges -> In (source e) (map id nodes)) ->
  NoDup (forestIds (t_children (buildTree nodes edges)) fuel (findRootNodes nodes edges)) ->
  radialLayout M fuel nodes edges = Some outN ->
  (exists st off,
     layoutRoots M nodes (t_children (buildTree nodes edges)) fuel
       (findRootNodes nodes edges) = Some (st, off)
     /\ forall u v,
          In u (forestIds (t_children (buildTree nodes edges)) fuel
                  (findRootNodes nodes edges)) ->
          In v (kids_of (t_children (buildTree nodes edges)) u) ->
          exists levels pu pv angle,
            sget (r_positions st) u = Some pu
            /\ sget (r_positions st) v = Some pv
            /\ pv = ringPoint M pu
                      (ringRadius nodes (t_children (buildTree nodes edges)) levels u) angle
            /\ separation nodes u v
               <= ringRadius nodes (t_children (buildTree nodes edges)) levels u
            /\ distance2 pu pv
               == ringRadius nodes (t_children (buildTree nodes edges)) levels u
                  * ringRadius nodes (t_children (buildTree nodes edges)) levels u
                  * (cos M angle * cos M angle + sin M angle * sin M angle))
  /\ (forall r c r' c',
        In r (findRootNodes nodes edges) ->
        In c (kids_of (t_children (buildTree nodes edges)) (id r)) ->
        In r' outN -> In c' outN -> id r' = id r -> id c' = c ->
        exists levels angle,
          separation nodes (id r) c
          <= ringRadius nodes (t_children (buildTree nodes edges)) levels (id r)
          /\ ringRadius nodes (t_children (buildTree nodes edges)) levels (id r)
             * ringRadius nodes (t_children (buildTree nodes edges)) levels (id r)
             * (cos M angle * cos M angle + sin M angle * sin M angle)
             <= distance2 (centerOf r') (centerOf c')).
Proof.
  intros Hclosed Hnd H.
  destruct nodes as [|n0 nodes'].
  { injection H as <-. split.
    - exists {| r_positions := []; r_handles := []; r_visited := [] |}, 0.
      split; [reflexivity|]. intros u v [].
    - intros r c r' c' _ _ []. }
  unfold radialLayout in H.
  remember (n0 :: nodes') as nodes eqn:Enodes. clear Enodes n0 nodes'.
  set (children := t_children (buildTree nodes edges)) in *.
  set (roots := findRootNodes nodes edges) in *.
  apply bind_Some in H. destruct H as [[st2 off2] [Ht H]]. injection H as <-.
  unfold radialTraversal in Ht. fold children roots in Ht.
  apply bind_Some in Ht. destruct Ht as [[st off] [Hl Ht]]. injection Ht as <- <-.
  pose proof (layoutRoots_placedForest M nodes children fuel roots st off Hnd Hl)
    as [Hkeys [Hvis [Hroots Hring]]].
  split.
  - exists st, off. split; [exact Hl|]. intros u v Hu Hv.
    destruct (Hring u v Hu Hv) as [levels [pu [angle [H1 H2]]]].
    exists levels, pu, (ringPoint M pu (ringRadius nodes children levels u) angle), angle.
    split; [exact H1|]. split; [exact H2|]. split; [reflexivity|].
    split; [apply ringRadius_bound; exact Hv|apply distance2_ringPoint].
  - intros r c r' c' Hr Hc Hr' Hc' Hidr Hidc.
    assert (Hunf : forall r0, In r0 roots -> unfolds children fuel (id r0) = true)
      by (intros r0 Hr0; apply (Hroots r0 Hr0)).
    assert (Hrin : In (id r) (forestIds children fuel roots)).
    { unfold forestIds. apply in_flat_map. exists r. split; [exact Hr|left; reflexivity]. }
    destruct (Hring (id r) c Hrin Hc) as [levels [pr [angle [Hpr Hpc]]]].
    exists levels, angle. split; [apply ringRadius_bound; exact Hc|].
    set (pc0 := ringPoint M pr (ringRadius nodes children levels (id r)) angle) in *.
    assert (Hshift : shiftedAway (r_positions st) (id r) c pr pc0
                       (fold_left (nudgeEdge nodes) edges (r_positions st))).
    { apply shiftPass_shiftedAway.
      - intros e He Hs _.
        assert (Hsf : In (source e) (forestIds children fuel roots)) by (apply Hkeys; exact Hs).
        assert (Hk : In (target e) (kids_of children (source e)))
          by (apply edge_kids_of; [exact He|apply Hclosed; exact He]).
        split.
        + intro Heq. rewrite Heq in Hk.
          exact (forest_root_no_parent children fuel roots r (source e) Hnd Hunf Hr Hsf Hk).
        + intro Heq. rewrite Heq in Hk.
          exact (forest_root_child_parent children fuel roots r (source e) c
                   Hnd Hunf Hr Hc Hsf Hk).
      - split; [reflexivity|]. split; [exact Hpr|]. exists pc0.
        split; [exact Hpc|]. split; [reflexivity|].
        destruct (Qlt_le_dec (px pc0) (px pr)) as [Hlt|Hle].
        + right. split; [exact Hlt|apply Qle_refl].
        + left. split; [exact Hle|apply Qle_refl]. }
    destruct Hshift as [_ [Hr2 [pc [Hc2 [Hy Hx]]]]].
    destruct (Hroots r Hr) as [_ [Hvr Hvc]].
    apply in_map_iff in Hr'. destruct Hr' as [nr [Hnr _]].
    apply in_map_iff in Hc'. destruct Hc' as [nc [Hnc _]].
    assert (Hidnr : id nr = id r) by (rewrite <- Hidr, <- Hnr; reflexivity).
    assert (Hidnc : id nc = c) by (rewrite <- Hidc, <- Hnc; reflexivity).
    match type of Hnr with
    | newNode_r ?s _ = _ =>
        assert (Hposr : sget (r_positions s) (id nr) = Some pr);
        [|assert (Hposc : sget (r_positions s) (id nc) = Some pc)]
    end.
    { rewrite orphanPass_keeps_visited; cbn [r_positions r_visited]; rewrite Hidnr;
        [exact Hr2|exact Hvr]. }
    { rewrite orphanPass_keeps_visited; cbn [r_positions r_visited]; rewrite Hidnc;
        [exact Hc2|apply Hvc; exact Hc]. }
    destruct (centerOf_newNode_r _ nr pr Hposr) as [Hrx Hry].
    destruct (centerOf_newNode_r _ nc pc Hposc) as [Hcx Hcy].
    rewrite Hnr in Hrx, Hry. rewrite Hnc in Hcx, Hcy.
    rewrite (distance2_compat _ _ pr pc Hrx Hry Hcx Hcy).
    rewrite <- (distance2_ringPoint M pr (ringRadius nodes children levels (id r)) angle).
    apply distance2_shiftedAway; assumption.
Qed.

Lemma radialLayout_ring_separation_witness :
  treeShaped ringNodes ringEdges = true
  /\ exists outN,
       radialLayout MathQ.lib 10 ringNodes ringEdges = Some outN
       /\ forall r' c', In r' outN -> In c' outN -> id r' = "G"%string -> id c' = "P"%string ->
            exists levels angle,
              separation ringNodes "G" "P"
              <= ringRadius ringNodes (t_children (buildTree ringNodes ringEdges)) levels "G"
              /\ ringRadius ringNodes (t_children (buildTree ringNodes ringEdges)) levels "G"
                 * ringRadius ringNodes (t_children (buildTree ringNodes ringEdges)) levels "G"
                 * (cos MathQ.lib angle * cos MathQ.lib angle
                    + sin MathQ.lib angle * sin MathQ.lib angle)
                 <= distance2 (centerOf r') (centerOf c').
Proof.
  split; [vm_compute; reflexivity|].
  eexists. split; [vm_compute; reflexivity|].
  edestruct (radialLayout_ring_separation MathQ.lib 10 ringNodes ringEdges) as [_ Hfinal].
  - intros e He. vm_compute in He. vm_compute.
    destruct He as [<-|[<-|[<-|[<-|[]]]]]; cbn; tauto.
  - vm_compute. repeat constructor; cbn; intuition discriminate.
  - vm_compute. reflexivity.
  - intros r' c' Hr' Hc' Hidr Hidc.
    apply (Hfinal (sizedNode "G" 1000 1000) "P"%string r' c'); try assumption.
    + vm_compute. left. reflexivity.
    + vm_compute. left. reflexivity.
Defined.
